(** * PowerStrings: the transformation engine of [src/views/Transform.ts]
    and the chain evaluator of [src/views/PowerStrings.vue].

    The development embeds the TypeScript code shallowly:
    - a JavaScript string is a Rocq [string]; its characters stand for
      code units 0..255, which covers every character the source tests
      for (separators, digits, white space, JSON punctuation);
    - a value flowing through a chain is a [Value]: a string, an array of
      values, or [undefined] (lodash's [pullAt] can put it in an array);
    - a thrown exception is the [Err] case of [result];
    - a token of plain characters can denote, by escapes, texts outside
      that alphabet; [JSON.parse] reads them, and where [decodeATL] would
      return or print one, the model tells so and no more ([Outside]);
    - calls of a transformer's [Func] and calls of [alert] are recorded in
      an event trace, so that "is never invoked" and "is reported" are
      statements about the trace;
    - the array objects that [cloneDeep], [reverse], [sort] and [pullAt]
      allocate or mutate live in an explicit store of arrays.

    The catalog is that of the latest revision of Transform.ts, in which
    [split] and [replace] know the wildcard token and [slice_array] takes
    an index text. [applyTransformer], [encodeATL], [decodeATL] and the
    [Func] of [sort] are the same in the earlier revisions. *)

From Stdlib Require Import String Ascii List ZArith Lia Bool Arith.
From Stdlib Require Import Sorting.Sorted Sorting.Permutation.
Import ListNotations.
Open Scope list_scope.
Open Scope string_scope.

(** ** Values, exceptions and effects *)

#[warnings="-register-all"]
Inductive Value : Type :=
| VStr (s : string)
| VArr (l : list Value)
| VUndefined.

(** [typeof v === 'string'] and [v instanceof Array]. *)
Definition is_string (v : Value) : bool :=
  match v with VStr _ => true | _ => false end.

Definition is_Array (v : Value) : bool :=
  match v with VArr _ => true | _ => false end.

(** The exceptions the code can raise: [new Error(msg)] thrown by the
    source, and the host's [TypeError] and [SyntaxError]. *)
Inductive JSError : Type :=
| Error (msg : string)
| TypeError (msg : string)
| SyntaxError (msg : string).

(** [`${e}`]: the error's name, a colon and its message. *)
Definition error_toString (e : JSError) : string :=
  match e with
  | Error m => "Error: " ++ m
  | TypeError m => "TypeError: " ++ m
  | SyntaxError m => "SyntaxError: " ++ m
  end.

Inductive result (A : Type) : Type :=
| Ok (a : A)
| Err (e : JSError).
Arguments Ok {A} a.
Arguments Err {A} e.

Definition is_Ok {A} (r : result A) : bool :=
  match r with Ok _ => true | Err _ => false end.

(** Observable events: an invocation of the [Func] of the transformer with
    the given ID on a value with arguments, and a call of [alert]. *)
Inductive Event : Type :=
| Invoke (id : string) (v : Value) (args : list string)
| Alert (msg : string).

(** A computation that may throw and that leaves a trace of events. The
    events emitted before a throw stay in the trace. *)
Definition M (A : Type) : Type := (list Event * result A)%type.

Definition ret {A} (a : A) : M A := ([], Ok a).
Definition throw {A} (e : JSError) : M A := ([], Err e).
Definition emit (ev : Event) : M unit := ([ev], Ok tt).
Definition lift {A} (r : result A) : M A := ([], r).

Definition bind {A B} (m : M A) (f : A -> M B) : M B :=
  match m with
  | (tr, Err e) => (tr, Err e)
  | (tr, Ok a) => let (tr', r) := f a in ((tr ++ tr')%list, r)
  end.

(** [try { m } catch (e) { h e }] *)
Definition try_catch {A} (m : M A) (h : JSError -> M A) : M A :=
  match m with
  | (tr, Err e) => let (tr', r) := h e in ((tr ++ tr')%list, r)
  | (tr, Ok a) => (tr, Ok a)
  end.

Declare Scope js_scope.
Delimit Scope js_scope with js.
Notation "x <- m ;; k" := (bind m (fun x => k))
  (at level 61, m at next level, right associativity) : js_scope.
Notation "m ;;; k" := (bind m (fun _ => k))
  (at level 61, right associativity) : js_scope.
Open Scope js_scope.

Definition trace {A} (m : M A) : list Event := fst m.
Definition outcome {A} (m : M A) : result A := snd m.

(** [Array.prototype.map] with a callback that may throw: the elements are
    visited in index order and the first exception ends the loop. *)
Fixpoint array_map {A B} (f : A -> M B) (l : list A) : M (list B) :=
  match l with
  | [] => ret []
  | x :: xs => y <- f x ;; ys <- array_map f xs ;; ret (y :: ys)
  end.

(** ** Transformers *)

(** ['string' | 'array'] *)
Inductive Shape : Type := Tstring | Tarray.

Definition Shape_eqb (a b : Shape) : bool :=
  match a, b with
  | Tstring, Tstring | Tarray, Tarray => true
  | _, _ => false
  end.

Record PSArg : Type := {
  ArgName : string;
  Placeholder : string
}.

(** [interface PSTransformer]. [Func] receives the value and the spread
    argument list; it returns or throws. *)
Record PSTransformer : Type := {
  ID : string;
  Target : Shape;
  Return : Shape;
  Name : string;
  Description : string;
  Icon : string;
  Func : Value -> list string -> result Value;
  Args : list PSArg
}.

(** [interface PSTransformerWithArguments] *)
Record PSTransformerWithArguments : Type := {
  Transformer : PSTransformer;
  Arguments : list string
}.

(** [t.Transformer.Func(v, ...t.Arguments)], recorded in the trace. *)
Definition invoke (v : Value) (t : PSTransformerWithArguments) : M Value :=
  emit (Invoke (ID (Transformer t)) v (Arguments t)) ;;;
  lift (Func (Transformer t) v (Arguments t)).

(** [applyTransformer], Transform.ts. The local [map_rec] is
    [v.map((vm) => applyTransformer(vm, t))]. *)
Fixpoint applyTransformer (v : Value) (t : PSTransformerWithArguments)
  {struct v} : M Value :=
  if negb (is_string v) && negb (is_Array v) then
    throw (Error "applyTransformer: v is not a string nor array")
  else if is_string v && Shape_eqb (Target (Transformer t)) Tarray then
    throw (Error "applyTransformer: a targeted array transformer cannot be applied on string")
  else
    match v with
    | VArr l =>
        let map_rec :=
          (fix map_rec (l : list Value) : M (list Value) :=
             match l with
             | [] => ret []
             | vm :: l' =>
                 y <- applyTransformer vm t ;;
                 ys <- map_rec l' ;;
                 ret (y :: ys)
             end) in
        match Target (Transformer t) with
        | Tstring => r <- map_rec l ;; ret (VArr r)
        | Tarray =>
            if (0 <? length l)%nat && is_string (nth 0 l VUndefined)
            then invoke v t
            else r <- map_rec l ;; ret (VArr r)
        end
    | _ => invoke v t
    end.

(** The message of the alert raised by [outputValue] for a failing step. *)
Definition alert_message (t : PSTransformerWithArguments) (e : JSError) : string :=
  "Failed to apply transformer " ++ Name (Transformer t)
  ++ ". Maybe it previous transformer is bugged - try to remove it."
  ++ String "010" (String "010" (error_toString e)).

(** One iteration of the [forEach] body of [outputValue]: the assignment to
    [v] happens only when [applyTransformer] returns. *)
Definition outputValue_step (v : Value) (t : PSTransformerWithArguments) : M Value :=
  try_catch (applyTransformer v t)
            (fun e => emit (Alert (alert_message t e)) ;;; ret v).

Fixpoint forEach_step (ts : list PSTransformerWithArguments) (v : Value) : M Value :=
  match ts with
  | [] => ret v
  | t :: ts' => v' <- outputValue_step v t ;; forEach_step ts' v'
  end.

(** [outputValue], PowerStrings.vue: [state.InputValue] is the text of the
    input area, [state.AppliedTransformers] the chain. *)
Definition outputValue (InputValue : string)
  (AppliedTransformers : list PSTransformerWithArguments) : M Value :=
  let v := VStr InputValue in
  if (String.length InputValue =? 0)%nat then ret (VStr "")
  else forEach_step AppliedTransformers v.

(** ** Host string operations

    The methods of [String.prototype] and the global [parseInt] that the
    transformers call, following the ECMAScript algorithms. *)

Definition drop (n : nat) (s : string) : string :=
  substring n (String.length s - n) s.

Definition take (n : nat) (s : string) : string := substring 0 n s.

(** [s.includes(sub)] *)
Fixpoint includes (sub s : string) : bool :=
  prefix sub s ||
  match s with
  | EmptyString => false
  | String _ s' => includes sub s'
  end.

(** [StringIndexOf(s, sub, 0)]: the first position at which [sub] occurs. *)
Fixpoint indexOf (sub s : string) : option nat :=
  if prefix sub s then Some O
  else match s with
       | EmptyString => None
       | String _ s' => option_map S (indexOf sub s')
       end.

Definition code (c : ascii) : nat := nat_of_ascii c.

(** White space and line terminators ([StrWhiteSpaceChar]) among the code
    units below 256: TAB, LF, VT, FF, CR, SP and NBSP. *)
Definition is_white_space (c : ascii) : bool :=
  let n := code c in
  (((9 <=? n) && (n <=? 13)) || (n =? 32) || (n =? 160))%nat.

Fixpoint trimStart (s : string) : string :=
  match s with
  | String c s' => if is_white_space c then trimStart s' else s
  | EmptyString => EmptyString
  end.

Fixpoint string_rev (s : string) : string :=
  match s with
  | EmptyString => EmptyString
  | String c s' => string_rev s' ++ String c EmptyString
  end.

Definition trimEnd (s : string) : string := string_rev (trimStart (string_rev s)).

(** [s.trim()] *)
Definition trim (s : string) : string := trimEnd (trimStart s).

Fixpoint string_map (f : ascii -> ascii) (s : string) : string :=
  match s with
  | EmptyString => EmptyString
  | String c s' => String (f c) (string_map f s')
  end.

(** [s.toLowerCase()]: A-Z and the capital letters of Latin-1 (192-222
    except the multiplication sign 215) move up by 32. *)
Definition lower_char (c : ascii) : ascii :=
  let n := code c in
  if (((65 <=? n) && (n <=? 90)) || ((192 <=? n) && (n <=? 222) && negb (n =? 215)))%nat
  then ascii_of_nat (n + 32) else c.

Definition toLowerCase (s : string) : string := string_map lower_char s.

(** [s.toUpperCase()]: a-z and the small letters of Latin-1 (224-254 except
    the division sign 247) move down by 32 and the sharp s (223) becomes
    "SS". The micro sign (181) and y with diaeresis (255) have their capital
    forms above code unit 255; they are outside this alphabet and are left
    as they are. *)
Fixpoint toUpperCase (s : string) : string :=
  match s with
  | EmptyString => EmptyString
  | String c s' =>
      let n := code c in
      if (((97 <=? n) && (n <=? 122)) || ((224 <=? n) && (n <=? 254) && negb (n =? 247)))%nat
      then String (ascii_of_nat (n - 32)) (toUpperCase s')
      else if (n =? 223)%nat then String "S" (String "S" (toUpperCase s'))
      else String c (toUpperCase s')
  end.

(** [String.prototype.split] with a string separator and no limit:
    [split_string_from] is the loop over the positions found by
    [StringIndexOf]; it is only entered with a non-empty separator, so each
    round consumes at least one character and [length s] rounds suffice. *)
Fixpoint split_string_from (fuel : nat) (sep s : string) : list string :=
  match fuel with
  | O => [s]
  | S fuel' =>
      match indexOf sep s with
      | None => [s]
      | Some j => take j s :: split_string_from fuel' sep (drop (j + String.length sep) s)
      end
  end.

Fixpoint code_units (s : string) : list string :=
  match s with
  | EmptyString => []
  | String c s' => String c EmptyString :: code_units s'
  end.

Definition split_string (sep s : string) : list string :=
  if (String.length sep =? 0)%nat then code_units s
  else split_string_from (String.length s) sep s.

(** ** Numbers

    [parseInt] returns a Number. Only integral values, the two zeros, the
    infinities and NaN can come out of it. A finite value is kept as the
    integer it denotes; [number_of_Z] rounds an integer to the nearest
    double (ties to even) as the host does for long digit strings. *)

Inductive Number : Type :=
| NaN
| MinusZero
| Int (z : Z)
| PlusInfinity
| MinusInfinity.

Definition isNaN (n : Number) : bool :=
  match n with NaN => true | _ => false end.

(** Round a positive integer to 53 significant bits, ties to even. *)
Definition round_to_53_bits (n : Z) : Z :=
  let bits := (Z.log2 n + 1)%Z in
  if (bits <=? 53)%Z then n
  else
    let sh := (bits - 53)%Z in
    let q := Z.shiftr n sh in
    let r := (n - Z.shiftl q sh)%Z in
    let half := Z.shiftl 1 (sh - 1) in
    let q' := if (half <? r)%Z || ((r =? half)%Z && Z.odd q) then (q + 1)%Z else q in
    Z.shiftl q' sh.

Definition number_of_Z (z : Z) : Number :=
  let r := round_to_53_bits (Z.abs z) in
  if (Z.shiftl 1 1024 <=? r)%Z
  then (if (z <? 0)%Z then MinusInfinity else PlusInfinity)
  else Int (if (z <? 0)%Z then (- r)%Z else r).

Definition is_digit (c : ascii) : bool :=
  ((48 <=? code c) && (code c <=? 57))%nat.

Definition digit_value (c : ascii) : Z := Z.of_nat (code c - 48).

(** The value of the longest prefix of decimal digits, most significant
    digit first. *)
Fixpoint digits_value (acc : Z) (s : string) : Z :=
  match s with
  | String c s' =>
      if is_digit c then digits_value (10 * acc + digit_value c)%Z s' else acc
  | EmptyString => acc
  end.

Definition starts_with_digit (s : string) : bool :=
  match s with
  | String c _ => is_digit c
  | EmptyString => false
  end.

(** [parseInt(s, 10)]: skip leading white space, read an optional sign,
    then the longest run of decimal digits; no digit gives NaN, and a zero
    after a minus sign is the negative zero. *)
Definition parseInt (s : string) : Number :=
  let inputS := trimStart s in
  let '(negative, body) :=
    match inputS with
    | String "-" r => (true, r)
    | String "+" r => (false, r)
    | _ => (false, inputS)
    end in
  if negb (starts_with_digit body) then NaN
  else
    let mathInt := digits_value 0 body in
    if (mathInt =? 0)%Z then (if negative then MinusZero else Int 0)
    else number_of_Z (if negative then (- mathInt)%Z else mathInt).

(** [a < b] on Numbers ([IsLessThan]): false as soon as one side is NaN;
    the two zeros are equal. *)
Definition number_ltb (a b : Number) : bool :=
  match a, b with
  | NaN, _ | _, NaN => false
  | MinusInfinity, MinusInfinity => false
  | MinusInfinity, _ => true
  | _, MinusInfinity => false
  | PlusInfinity, _ => false
  | _, PlusInfinity => true
  | MinusZero, MinusZero => false
  | MinusZero, Int z => (0 <? z)%Z
  | Int z, MinusZero => (z <? 0)%Z
  | Int x, Int y => (x <? y)%Z
  end.

(** The clamping that [slice] applies to a bound, for an object of length
    [len]: [ToIntegerOrInfinity] (NaN and the zeros give 0), then a negative
    bound counts from the end and nothing leaves [0, len]. *)
Definition relative_index (n : Number) (len : nat) : nat :=
  match n with
  | NaN | MinusZero => O
  | MinusInfinity => O
  | PlusInfinity => len
  | Int z =>
      if (z <? 0)%Z then Z.to_nat (Z.max (Z.of_nat len + z) 0)
      else Z.to_nat (Z.min z (Z.of_nat len))
  end.

(** [v.slice(start, end)] on an array, both bounds given as Numbers: a new
    array with the elements at [k, final). *)
Definition array_slice {A} (l : list A) (start end_ : Number) : list A :=
  let len := length l in
  let k := relative_index start len in
  let final := relative_index end_ len in
  firstn (final - k) (skipn k l).

(** [v.slice(start, end)] on a string. *)
Definition string_slice (s : string) (start end_ : Number) : string :=
  let len := String.length s in
  let from := relative_index start len in
  let to := relative_index end_ len in
  substring from (to - from) s.

(** ** Conversion to string and [join] *)

Fixpoint join_strings (sep : string) (l : list string) : string :=
  match l with
  | [] => ""
  | [x] => x
  | x :: xs => x ++ sep ++ join_strings sep xs
  end.

(** [ToString(v)]: an array prints as its elements joined by commas, an
    [undefined] element of an array as the empty string. *)
Fixpoint toString (v : Value) : string :=
  match v with
  | VStr s => s
  | VUndefined => "undefined"
  | VArr l =>
      join_strings ","
        (map (fun x => match x with VUndefined => "" | _ => toString x end) l)
  end.

Definition element_text (x : Value) : string :=
  match x with VUndefined => "" | _ => toString x end.

(** [v.join(sep)]; an [undefined] separator stands for a comma. *)
Definition array_join (l : list Value) (sep : option string) : string :=
  join_strings (match sep with Some s => s | None => "," end)
               (map element_text l).

(** ** Array objects

    The arrays that the array-targeted transformers receive, copy and
    mutate are objects of a store; a reference is an index in it. Nested
    values are immutable trees, so the deep copy of an array is a new
    object with the same contents. *)

Definition Store : Type := list (list Value).
Definition Ref : Type := nat.
Definition St (A : Type) : Type := Store -> A * Store.

Definition st_ret {A} (a : A) : St A := fun h => (a, h).
Definition st_bind {A B} (m : St A) (f : A -> St B) : St B :=
  fun h => let (a, h') := m h in f a h'.

Declare Scope st_scope.
Delimit Scope st_scope with st.
Notation "x <- m ;; k" := (st_bind m (fun x => k))
  (at level 61, m at next level, right associativity) : st_scope.
Notation "m ;;; k" := (st_bind m (fun _ => k))
  (at level 61, right associativity) : st_scope.

Definition read (r : Ref) : St (list Value) := fun h => (nth r h [], h).

Fixpoint store_set (r : Ref) (a : list Value) (h : Store) : Store :=
  match h, r with
  | [], _ => []
  | _ :: h', O => a :: h'
  | b :: h', S r' => b :: store_set r' a h'
  end.

Definition write (r : Ref) (a : list Value) : St unit :=
  fun h => (tt, store_set r a h).

Definition alloc (a : list Value) : St Ref :=
  fun h => (length h, (h ++ [a])%list).

(** lodash [cloneDeep(v)] *)
Definition cloneDeep (v : Ref) : St Ref :=
  (a <- read v ;; alloc a)%st.

(** [ret.reverse()], in place. *)
Definition array_reverse (r : Ref) : St unit :=
  (a <- read r ;; write r (rev a))%st.

(** [v.slice(s, e)] allocates its result. *)
Definition slice_method (v : Ref) (s e : Number) : St Ref :=
  (a <- read v ;; alloc (array_slice a s e))%st.

(** [ret.every(p)] *)
Definition every (p : Value -> bool) (r : Ref) : St bool :=
  (a <- read r ;; st_ret (forallb p a))%st.

(** *** [Array.prototype.sort]

    The host's sort is stable. It sets the [undefined] elements apart,
    orders the others with the comparator and puts the [undefined] ones
    last. The stable order is computed here by insertion from the right:
    an element goes in front of the first element that it does not exceed. *)

Fixpoint insert_sorted (cmp : Value -> Value -> Z) (x : Value) (l : list Value) : list Value :=
  match l with
  | [] => [x]
  | y :: l' => if (0 <? cmp x y)%Z then y :: insert_sorted cmp x l' else x :: l
  end.

Definition stable_sort (cmp : Value -> Value -> Z) (l : list Value) : list Value :=
  fold_right (insert_sorted cmp) [] l.

Definition is_undefined (v : Value) : bool :=
  match v with VUndefined => true | _ => false end.

Definition sort_elements (cmp : Value -> Value -> Z) (l : list Value) : list Value :=
  (stable_sort cmp (filter (fun x => negb (is_undefined x)) l)
   ++ filter is_undefined l)%list.

(** The comparison of [sort()] without a comparator: by the texts of the
    elements, code unit by code unit. *)
Definition compare_default (a b : Value) : Z :=
  if String.ltb (toString a) (toString b) then (-1)%Z
  else if String.ltb (toString b) (toString a) then 1%Z
  else 0%Z.

(** [ret.sort()] and [ret.sort(cmp)], in place. *)
Definition array_sort (cmp : Value -> Value -> Z) (r : Ref) : St unit :=
  (a <- read r ;; write r (sort_elements cmp a))%st.

(** *** lodash [pullAt(array, indexes)]

    "Removes elements from array corresponding to indexes and returns an
    array of removed elements." The returned array has one entry per index,
    in the order of the indexes: [array[index]], which is [undefined] when
    the index is not an integer in [0, length), the negative zero included
    (lodash looks it up under the key "-0"). The array itself loses the
    elements at the listed positions; lodash splices them out from the
    highest position down, each position once. *)

Definition get_at (a : list Value) (index : Number) : Value :=
  match index with
  | Int z => if (0 <=? z)%Z then nth (Z.to_nat z) a VUndefined else VUndefined
  | _ => VUndefined
  end.

(** The positions that [pullAt] splices out of the array. *)
Definition pulled_position (indexes : list Number) (i : nat) : bool :=
  existsb (fun n => match n with
                    | Int z => (z =? Z.of_nat i)%Z
                    | MinusZero => (i =? 0)%nat
                    | _ => false
                    end) indexes.

Fixpoint remove_positions (p : nat -> bool) (i : nat) (a : list Value) : list Value :=
  match a with
  | [] => []
  | x :: a' => if p i then remove_positions p (S i) a'
               else x :: remove_positions p (S i) a'
  end.

Definition pullAt (array : Ref) (indexes : list Number) : St Ref :=
  (a <- read array ;;
   write array (remove_positions (pulled_position indexes) 0 a) ;;;
   alloc (map (get_at a) indexes))%st.

(** Run the body of an array transformer on the array [l], placed alone in
    a store, and read the array it returns. *)
Definition run_on_array (body : Ref -> St Ref) (l : list Value) : list Value :=
  let (r, h) := body O [l] in nth r h [].

(** ** Replacement and regular expressions *)

(** [GetSubstitution(matched, str, position, captures, undefined, template)]:
    the text that replaces one match. [before] is [str] up to the match and
    [after] is [str] from the end of the match. Each round consumes at
    least one character of the template. *)
Fixpoint GetSubstitution (fuel : nat) (matched before after : string)
  (captures : list string) (template : string) : string :=
  match fuel with
  | O => EmptyString
  | S fuel' =>
      let continue := GetSubstitution fuel' matched before after captures in
      match template with
      | EmptyString => EmptyString
      | String "$" (String "$" t) => "$" ++ continue t
      | String "$" (String "`" t) => before ++ continue t
      | String "$" (String "&" t) => matched ++ continue t
      | String "$" (String "'" t) => after ++ continue t
      | String "$" (String d1 t) =>
          if is_digit d1 then
            let m := length captures in
            let one := Z.to_nat (digit_value d1) in
            let two :=
              match t with
              | String d2 _ =>
                  if is_digit d2 then Some (10 * one + Z.to_nat (digit_value d2))%nat
                  else None
              | EmptyString => None
              end in
            match two with
            | Some index =>
                if ((1 <=? index) && (index <=? m))%nat
                then nth (index - 1) captures "" ++ continue (drop 1 t)
                else if ((1 <=? one) && (one <=? m))%nat
                then nth (one - 1) captures "" ++ continue t
                else "$" ++ continue (String d1 t)
            | None =>
                if ((1 <=? one) && (one <=? m))%nat
                then nth (one - 1) captures "" ++ continue t
                else "$" ++ continue (String d1 t)
            end
          else "$" ++ continue (String d1 t)
      | String c t => String c (continue t)
      end
  end.

Definition substitution (matched before after : string) (captures : list string)
  (template : string) : string :=
  GetSubstitution (String.length template) matched before after captures template.

(** [v.replaceAll(search, template)] with a string pattern: every
    occurrence, left to right and not overlapping; an empty pattern occurs
    before each character and at the end. [before] is the text already
    passed. *)
Fixpoint replaceAll_from (fuel : nat) (search template before s : string) : string :=
  match fuel with
  | O => s
  | S fuel' =>
      if prefix search s then
        let len := String.length search in
        let after := drop len s in
        substitution search before after [] template ++
        match len, s with
        | O, EmptyString => EmptyString
        | O, String c s' =>
            String c (replaceAll_from fuel' search template (before ++ String c "") s')
        | _, _ => replaceAll_from fuel' search template (before ++ search) after
        end
      else
        match s with
        | EmptyString => EmptyString
        | String c s' =>
            String c (replaceAll_from fuel' search template (before ++ String c "") s')
        end
  end.

Definition replaceAll (search template s : string) : string :=
  replaceAll_from (S (String.length s)) search template "" s.

(** [s.replaceAll(/\r\n|\n/g, '')]: every CR LF pair and every LF goes. *)
Fixpoint remove_line_breaks (s : string) : string :=
  match s with
  | String "013" (String "010" s') => remove_line_breaks s'
  | String "010" s' => remove_line_breaks s'
  | String c s' => String c (remove_line_breaks s')
  | EmptyString => EmptyString
  end.

(** The characters of the class [[.*+?^${}()|[\]\\]] that the source
    escapes. They are all the syntax characters of a pattern. *)
Definition is_syntax_char (c : ascii) : bool :=
  existsb (Ascii.eqb c)
    ["."; "*"; "+"; "?"; "^"; "$"; "{"; "}"; "("; ")"; "|"; "["; "]"; "\"]%char.

(** [s.replace(/[.*+?^${}()|[\]\\]/g, '\\$&')] *)
Fixpoint escape_regex_chars (s : string) : string :=
  match s with
  | EmptyString => EmptyString
  | String c s' =>
      if is_syntax_char c then String "\" (String c (escape_regex_chars s'))
      else String c (escape_regex_chars s')
  end.

(** The patterns that the source builds are sequences of three kinds of
    term: a character that matches itself, the lazy wildcard (any
    characters, as few as possible) and the greedy wildcard in a capturing
    group (any characters, as many as possible). *)
Inductive Term : Type :=
| Char (c : ascii)
| LazyAny
| GreedyGroup.

Definition RegExp : Type := list Term.

Definition lazy_text : string := "[^]*?".
Definition greedy_text : string := "([^]*" ++ ")".

(** [new RegExp(source)] for the sources made of these terms: an escaped
    syntax character, a plain character that is not a syntax character,
    and the two wildcard texts. [None] is a source outside this fragment. *)
Fixpoint parse_pattern (fuel : nat) (source : string) : option RegExp :=
  match fuel with
  | O => match source with EmptyString => Some [] | _ => None end
  | S fuel' =>
      if prefix lazy_text source then
        option_map (cons LazyAny) (parse_pattern fuel' (drop 5 source))
      else if prefix greedy_text source then
        option_map (cons GreedyGroup) (parse_pattern fuel' (drop 6 source))
      else
        match source with
        | EmptyString => Some []
        | String c rest =>
            if Ascii.eqb c "\" then
              match rest with
              | String e rest' =>
                  if is_syntax_char e
                  then option_map (cons (Char e)) (parse_pattern fuel' rest')
                  else None
              | EmptyString => None
              end
            else if is_syntax_char c then None
            else option_map (cons (Char c)) (parse_pattern fuel' rest)
        end
  end.

Definition new_RegExp (source : string) : option RegExp :=
  parse_pattern (String.length source) source.

(** The backtracking matcher, anchored at the start of [s]: the captures
    and the length of the first match in the order of the alternatives
    that the host explores. The lazy wildcard tries the rest of the pattern
    before it takes one more character; the greedy group takes all the
    characters it can and gives them back one by one. *)
Fixpoint match_here (p : RegExp) (s : string) {struct p} : option (list string * nat) :=
  match p with
  | [] => Some ([], O)
  | Char c :: p' =>
      match s with
      | String d s' =>
          if Ascii.eqb c d
          then option_map (fun r => (fst r, S (snd r))) (match_here p' s')
          else None
      | EmptyString => None
      end
  | LazyAny :: p' =>
      (fix lazy (s : string) : option (list string * nat) :=
         match match_here p' s with
         | Some r => Some r
         | None =>
             match s with
             | String _ s' => option_map (fun r => (fst r, S (snd r))) (lazy s')
             | EmptyString => None
             end
         end) s
  | GreedyGroup :: p' =>
      let greedy :=
        (fix greedy (s : string) : option (nat * (list string * nat)) :=
           let stop := option_map (fun r => (O, r)) (match_here p' s) in
           match s with
           | String _ s' =>
               match greedy s' with
               | Some (k, r) => Some (S k, r)
               | None => stop
               end
           | EmptyString => stop
           end) in
      match greedy s with
      | Some (k, (caps, n)) => Some (take k s :: caps, (k + n)%nat)
      | None => None
      end
  end.

(** [s.split(regexp)] without a limit ([RegExp.prototype[@@split]]): [p] is
    the start of the current piece and [q] the position where a match is
    tried. An empty match at [p] is passed over, so a position is visited
    at most twice. *)
Fixpoint split_regexp_loop (fuel : nat) (R : RegExp) (s : string) (p q : nat) : list string :=
  match fuel with
  | O => [drop p s]
  | S fuel' =>
      if (String.length s <=? q)%nat then [drop p s]
      else
        match match_here R (drop q s) with
        | None => split_regexp_loop fuel' R s p (S q)
        | Some (_, n) =>
            let e := Nat.min (q + n) (String.length s) in
            if (e =? p)%nat then split_regexp_loop fuel' R s p (S q)
            else substring p (q - p) s :: split_regexp_loop fuel' R s e e
        end
  end.

Definition split_regexp (R : RegExp) (s : string) : list string :=
  if (String.length s =? 0)%nat then
    match match_here R s with
    | Some _ => []
    | None => [s]
    end
  else split_regexp_loop (2 * String.length s + 2) R s 0 0.

(** [RegExpBuiltinExec] without the sticky flag: the first position from
    [lastIndex] on at which the pattern matches, with the captures and the
    length of the match. *)
Fixpoint exec_from (fuel : nat) (R : RegExp) (s : string) (lastIndex : nat)
  : option (nat * list string * nat) :=
  if (String.length s <? lastIndex)%nat then None
  else
    match match_here R (drop lastIndex s) with
    | Some (caps, n) => Some (lastIndex, caps, n)
    | None =>
        match fuel with
        | O => None
        | S fuel' => exec_from fuel' R s (S lastIndex)
        end
    end.

(** [s.replace(regexp, template)] with the global flag. The matches are
    found one after the other, an empty match moving [lastIndex] one
    further; [next] is the end of the last replaced match. *)
Fixpoint replace_regexp_loop (fuel : nat) (R : RegExp) (template s : string)
  (lastIndex next : nat) : string :=
  match fuel with
  | O => drop next s
  | S fuel' =>
      match exec_from (String.length s) R s lastIndex with
      | None => drop next s
      | Some (position, caps, n) =>
          let e := (position + n)%nat in
          let lastIndex' := if (n =? 0)%nat then S e else e in
          if (next <=? position)%nat then
            substring next (position - next) s
            ++ substitution (substring position n s) (take position s) (drop e s)
                            caps template
            ++ replace_regexp_loop fuel' R template s lastIndex' e
          else replace_regexp_loop fuel' R template s lastIndex' next
      end
  end.

Definition replace_regexp (R : RegExp) (template s : string) : string :=
  replace_regexp_loop (S (S (String.length s))) R template s 0 0.

(** ** The catalog: [PSTransformers]

    [applyTransformer] hands a string to the [Func] of a transformer whose
    [Target] is ['string'] and an array to one whose [Target] is ['array'],
    as the TypeScript signature of each [Func] requires. On a value of the
    other shape the model raises a [TypeError]. A parameter for which the
    argument list is too short is [undefined]. *)

Definition arg (i : nat) (args : list string) : option string := nth_error args i.

(** [parseInt(a, 10)] for a parameter: [undefined] reads as the text
    "undefined", which is not a number. *)
Definition parseInt_arg (a : option string) : Number :=
  parseInt (match a with Some s => s | None => "undefined" end).

Definition wrong_shape {A} : result A :=
  Err (TypeError "the value does not have the shape of the transformer's Target").

Definition undefined_argument {A} (method : string) : result A :=
  Err (TypeError ("Cannot read properties of undefined (reading '" ++ method ++ "')")).

Definition invalid_pattern {A} : result A :=
  Err (SyntaxError "Invalid regular expression").

Definition strings (l : list string) : Value := VArr (map VStr l).

Definition split_Func (v : Value) (args : list string) : result Value :=
  match v, arg 0 args with
  | VStr v, Some sep =>
      if includes "%w%" sep then
        let sepEscaped := escape_regex_chars sep in
        let sepRegex := replaceAll "%w%" lazy_text sepEscaped in
        match new_RegExp sepRegex with
        | Some R => Ok (strings (split_regexp R v))
        | None => invalid_pattern
        end
      else Ok (strings (split_string sep v))
  | VStr _, None => undefined_argument "includes"
  | _, _ => wrong_shape
  end.

Definition replace_Func (v : Value) (args : list string) : result Value :=
  match v, arg 0 args with
  | VStr v, Some pattern =>
      let replacement := match arg 1 args with Some r => r | None => "undefined" end in
      if includes "%w%" pattern then
        let patEscaped := escape_regex_chars pattern in
        let patRegex := replaceAll "%w%" greedy_text patEscaped in
        match new_RegExp patRegex with
        | Some R => Ok (VStr (replace_regexp R replacement v))
        | None => invalid_pattern
        end
      else Ok (VStr (replaceAll pattern replacement v))
  | VStr _, None => undefined_argument "includes"
  | _, _ => wrong_shape
  end.

Definition trim_Func (v : Value) (args : list string) : result Value :=
  match v with VStr v => Ok (VStr (trim v)) | _ => wrong_shape end.

Definition lower_case_Func (v : Value) (args : list string) : result Value :=
  match v with VStr v => Ok (VStr (toLowerCase v)) | _ => wrong_shape end.

Definition upper_case_Func (v : Value) (args : list string) : result Value :=
  match v with VStr v => Ok (VStr (toUpperCase v)) | _ => wrong_shape end.

Definition slice_Func (v : Value) (args : list string) : result Value :=
  match v with
  | VStr v =>
      let s := parseInt_arg (arg 0 args) in
      let e := parseInt_arg (arg 1 args) in
      Ok (VStr (string_slice v s e))
  | _ => wrong_shape
  end.

(** The body of the [Func] of [slice_array], on the array object [v]. *)
Definition slice_array_body (indexes : string) (v : Ref) : St Ref :=
  let normalized := remove_line_breaks (replaceAll " " "" indexes) in
  if includes "-" normalized then
    let commaSpt := split_string "-" normalized in
    if negb (length commaSpt =? 2)%nat then st_ret v (* do nothing *)
    else
      let s := parseInt (nth 0 commaSpt "") in
      let e := parseInt (nth 1 commaSpt "") in
      slice_method v s e
  else if includes "," normalized then
    let commaSpt := split_string "," normalized in
    let indexes := map parseInt commaSpt in
    (ret <- cloneDeep v ;;
     pullAt ret indexes)%st
  else
    let idx := parseInt normalized in
    if isNaN idx then st_ret v (* do nothing *)
    else
      (ret <- cloneDeep v ;;
       pullAt ret [idx])%st.

Definition slice_array_Func (v : Value) (args : list string) : result Value :=
  match v, arg 0 args with
  | VArr l, Some indexes => Ok (VArr (run_on_array (slice_array_body indexes) l))
  | VArr _, None => undefined_argument "replaceAll"
  | _, _ => wrong_shape
  end.

Definition reverse_body (v : Ref) : St Ref :=
  (ret <- cloneDeep v ;;
   array_reverse ret ;;;
   st_ret ret)%st.

Definition reverse_Func (v : Value) (args : list string) : result Value :=
  match v with
  | VArr l => Ok (VArr (run_on_array reverse_body l))
  | _ => wrong_shape
  end.

(** The comparator that [sort] passes when all elements are numbers. *)
Definition compare_numeric (a b : Value) : Z :=
  if number_ltb (parseInt (toString a)) (parseInt (toString b)) then (-1)%Z
  else if number_ltb (parseInt (toString b)) (parseInt (toString a)) then 1%Z
  else 0%Z.

Definition sort_body (v : Ref) : St Ref :=
  (ret <- cloneDeep v ;;
   isAllInt <- every (fun v => negb (isNaN (parseInt (toString v)))) ret ;;
   if negb isAllInt then
     array_sort compare_default ret ;;;
     st_ret ret
   else
     (* If all elements are numbers, sort by numeric order. *)
     array_sort compare_numeric ret ;;;
     st_ret ret)%st.

Definition sort_Func (v : Value) (args : list string) : result Value :=
  match v with
  | VArr l => Ok (VArr (run_on_array sort_body l))
  | _ => wrong_shape
  end.

Definition join_Func (v : Value) (args : list string) : result Value :=
  match v with
  | VArr l => Ok (VStr (array_join l (arg 0 args)))
  | _ => wrong_shape
  end.

Definition newline : string := String "010" EmptyString.

Definition split_transformer : PSTransformer := {|
  ID := "split";
  Target := Tstring;
  Return := Tarray;
  Name := "Split";
  Description := "Split the string at the ocurrencies of the given <b>Separator</b>.";
  Icon := "cut";
  Func := split_Func;
  Args := [ {| ArgName := "Separator"; Placeholder := "Use %w% as wildcard" |} ]
|}.

Definition replace_transformer : PSTransformer := {|
  ID := "replace";
  Target := Tstring;
  Return := Tstring;
  Name := "Replace";
  Description := "Replace all ocurrencies of <b>Pattern</b> with the <b>Replacement</b> content";
  Icon := "find_replace";
  Func := replace_Func;
  Args := [ {| ArgName := "Pattern"; Placeholder := "Use %w% as wildcard" |};
            {| ArgName := "Replacement";
               Placeholder := "Use $& for matched and $n (n = %w% index, starting from 1) for wildcarded substrings" |} ]
|}.

Definition trim_transformer : PSTransformer := {|
  ID := "trim";
  Target := Tstring;
  Return := Tstring;
  Name := "Trim";
  Description := "Remove leading and trailing spaces";
  Icon := "space_bar";
  Func := trim_Func;
  Args := []
|}.

Definition lower_case_transformer : PSTransformer := {|
  ID := "lower_case";
  Target := Tstring;
  Return := Tstring;
  Name := "Lower Case";
  Description := "Convert the string to lower case";
  Icon := "arrow_downward";
  Func := lower_case_Func;
  Args := []
|}.

Definition upper_case_transformer : PSTransformer := {|
  ID := "upper_case";
  Target := Tstring;
  Return := Tstring;
  Name := "Upper Case";
  Description := "Convert the string to upper case";
  Icon := "arrow_upward";
  Func := upper_case_Func;
  Args := []
|}.

Definition slice_transformer : PSTransformer := {|
  ID := "slice";
  Target := Tstring;
  Return := Tstring;
  Name := "Slice";
  Description := "Slice a section of the string, between <b>Start</b> and <b>End</b> indexes.";
  Icon := "carpenter";
  Func := slice_Func;
  Args := [ {| ArgName := "Start"; Placeholder := "" |};
            {| ArgName := "End (exclusive)"; Placeholder := "" |} ]
|}.

Definition slice_array_transformer : PSTransformer := {|
  ID := "slice_array";
  Target := Tarray;
  Return := Tarray;
  Name := "Slice Array";
  Description := "Slice a section of the array, at the given <b>Indexes</b>.";
  Icon := "carpenter";
  Func := slice_array_Func;
  Args := [ {| ArgName := "Indexes to slice (use , for lists and - for intervals)";
               Placeholder := "List e.g.: 0,3,5" ++ newline ++ "Interval e.g.: 0-5" |} ]
|}.

Definition reverse_transformer : PSTransformer := {|
  ID := "reverse";
  Target := Tarray;
  Return := Tarray;
  Name := "Reverse";
  Description := "Reverse the array.";
  Icon := "restart_alt";
  Func := reverse_Func;
  Args := []
|}.

Definition sort_transformer : PSTransformer := {|
  ID := "sort";
  Target := Tarray;
  Return := Tarray;
  Name := "Sort";
  Description := "Sort the array.";
  Icon := "sort";
  Func := sort_Func;
  Args := []
|}.

Definition join_transformer : PSTransformer := {|
  ID := "join";
  Target := Tarray;
  Return := Tstring;
  Name := "Join";
  Description := "Adds all the elements of the array into a string, separated by the specified <b>Separator</b>.";
  Icon := "join";
  Func := join_Func;
  Args := [ {| ArgName := "Separator"; Placeholder := "" |} ]
|}.

(** [PSTransformers], in the order of the source. *)
Definition PSTransformers : list PSTransformer :=
  [ split_transformer; replace_transformer; trim_transformer;
    lower_case_transformer; upper_case_transformer; slice_transformer;
    slice_array_transformer; reverse_transformer; sort_transformer;
    join_transformer ].

Definition applied (t : PSTransformer) (args : list string) : PSTransformerWithArguments :=
  {| Transformer := t; Arguments := args |}.

(** ** JSON

    The values that [JSON.parse] builds and [JSON.stringify] prints. The
    codec only asks whether a value is a string or an array and which
    properties a record has, so a number is kept as the text that denotes
    it. The members of an object are kept in the order of the text.

    A text of plain characters can denote, by a [\u] escape, a code unit
    above 255, which no [string] of the model holds. [JSON.parse] reads
    such a text all the same: a string with such a code unit is a
    [JWideString], with the list of its code units, and an object with
    such a member name is a [JWideObject]. [JString] and [JObject] are the
    strings and the objects inside the alphabet. *)

Inductive Text : Type :=
| Narrow (s : string)
| Wide (units : list N).

#[warnings="-register-all"]
Inductive JSON : Type :=
| JNull
| JBool (b : bool)
| JNumber (lexeme : string)
| JString (s : string)
| JArray (l : list JSON)
| JObject (members : list (string * JSON))
| JWideString (units : list N)
| JWideObject (members : list (Text * JSON)).

Fixpoint units_of (s : string) : list N :=
  match s with
  | EmptyString => []
  | String c s' => N_of_ascii c :: units_of s'
  end.

(** A code unit in front of a text. *)
Definition cons_char (c : ascii) (t : Text) : Text :=
  match t with
  | Narrow s => Narrow (String c s)
  | Wide l => Wide (N_of_ascii c :: l)
  end.

Definition cons_unit (n : N) (t : Text) : Text :=
  if (n <? 256)%N then cons_char (ascii_of_N n) t
  else match t with
       | Narrow s => Wide (n :: units_of s)
       | Wide l => Wide (n :: l)
       end.

Definition JSON_of_text (t : Text) : JSON :=
  match t with
  | Narrow s => JString s
  | Wide l => JWideString l
  end.

(** The members of an object all of whose names are inside the alphabet. *)
Fixpoint narrow_members (m : list (Text * JSON)) : option (list (string * JSON)) :=
  match m with
  | [] => Some []
  | (Narrow k, v) :: m' =>
      match narrow_members m' with
      | Some r => Some ((k, v) :: r)
      | None => None
      end
  | (Wide _, _) :: _ => None
  end.

Definition JSON_of_members (m : list (Text * JSON)) : JSON :=
  match narrow_members m with
  | Some r => JObject r
  | None => JWideObject m
  end.

Definition quote_char : ascii := "034"%char.
Definition quote_mark : string := String quote_char EmptyString.

Definition hex_digit (n : nat) : ascii :=
  if (n <? 10)%nat then ascii_of_nat (48 + n) else ascii_of_nat (87 + n).

(** One code unit inside a quoted JSON string ([QuoteJSONString]). *)
Definition quote_code_unit (c : ascii) : string :=
  let n := code c in
  if (n =? 8)%nat then "\b"
  else if (n =? 9)%nat then "\t"
  else if (n =? 10)%nat then "\n"
  else if (n =? 12)%nat then "\f"
  else if (n =? 13)%nat then "\r"
  else if (n =? 34)%nat then String "\" quote_mark
  else if (n =? 92)%nat then "\\"
  else if (n <? 32)%nat then
    "\u00" ++ String (hex_digit (n / 16)) (String (hex_digit (n mod 16)) EmptyString)
  else String c EmptyString.

Fixpoint quote_body (s : string) : string :=
  match s with
  | EmptyString => EmptyString
  | String c s' => quote_code_unit c ++ quote_body s'
  end.

Definition quote (s : string) : string := quote_mark ++ quote_body s ++ quote_mark.

(** A text with a code unit above 255 has no print in the alphabet: the
    host prints the code unit itself. [quote_units] writes the escape that
    denotes it instead. The program prints no such text: [encodeATL]
    prints the IDs and the arguments of a pipeline, which are strings of
    the model. *)
Definition quote_unit (n : N) : string :=
  if (n <? 256)%N then quote_code_unit (ascii_of_N n)
  else "\u" ++ String (hex_digit (N.to_nat (n / 4096)))
                 (String (hex_digit (N.to_nat ((n / 256) mod 16)))
                    (String (hex_digit (N.to_nat ((n / 16) mod 16)))
                       (String (hex_digit (N.to_nat (n mod 16))) EmptyString))).

Fixpoint quote_units (l : list N) : string :=
  match l with
  | [] => EmptyString
  | n :: l' => quote_unit n ++ quote_units l'
  end.

Definition quote_text (t : Text) : string :=
  match t with
  | Narrow s => quote s
  | Wide l => quote_mark ++ quote_units l ++ quote_mark
  end.

(** [JSON.stringify(j)], without indentation. *)
Fixpoint JSON_stringify (j : JSON) : string :=
  match j with
  | JNull => "null"
  | JBool true => "true"
  | JBool false => "false"
  | JNumber lexeme => lexeme
  | JString s => quote s
  | JArray l => "[" ++ join_strings "," (map JSON_stringify l) ++ "]"
  | JObject members =>
      "{" ++ join_strings ","
               (map (fun kv => quote (fst kv) ++ ":" ++ JSON_stringify (snd kv)) members)
          ++ "}"
  | JWideString l => quote_text (Wide l)
  | JWideObject members =>
      "{" ++ join_strings ","
               (map (fun kv => quote_text (fst kv) ++ ":" ++ JSON_stringify (snd kv)) members)
          ++ "}"
  end.

Definition is_json_space (c : ascii) : bool :=
  let n := code c in ((n =? 32) || (n =? 9) || (n =? 10) || (n =? 13))%nat.

Fixpoint skip_ws (s : string) : string :=
  match s with
  | String c s' => if is_json_space c then skip_ws s' else s
  | EmptyString => EmptyString
  end.

Definition hex_value (c : ascii) : option nat :=
  let n := code c in
  if ((48 <=? n) && (n <=? 57))%nat then Some (n - 48)%nat
  else if ((97 <=? n) && (n <=? 102))%nat then Some (n - 87)%nat
  else if ((65 <=? n) && (n <=? 70))%nat then Some (n - 55)%nat
  else None.

(** A [\uXXXX] escape: the code unit that the four digits denote. *)
Definition unicode_escape (h1 h2 h3 h4 : ascii) : option N :=
  match hex_value h1, hex_value h2, hex_value h3, hex_value h4 with
  | Some a, Some b, Some c, Some d =>
      Some (((N.of_nat a * 16 + N.of_nat b) * 16 + N.of_nat c) * 16 + N.of_nat d)%N
  | _, _, _, _ => None
  end.

Definition escaped_char (e : ascii) : option ascii :=
  let n := code e in
  if (n =? 34)%nat then Some quote_char
  else if (n =? 92)%nat then Some "\"%char
  else if (n =? 47)%nat then Some "/"%char
  else if (n =? 98)%nat then Some "008"%char
  else if (n =? 102)%nat then Some "012"%char
  else if (n =? 110)%nat then Some "010"%char
  else if (n =? 114)%nat then Some "013"%char
  else if (n =? 116)%nat then Some "009"%char
  else None.

(** The rest of a string after its opening quotation mark: the text it
    denotes and what follows the closing mark. *)
Fixpoint parse_string_body (s : string) : option (Text * string) :=
  match s with
  | EmptyString => None
  | String "\" (String "u" (String h1 (String h2 (String h3 (String h4 r))))) =>
      match unicode_escape h1 h2 h3 h4, parse_string_body r with
      | Some n, Some (t, r') => Some (cons_unit n t, r')
      | _, _ => None
      end
  | String "\" (String e r) =>
      match escaped_char e, parse_string_body r with
      | Some c, Some (t, r') => Some (cons_char c t, r')
      | _, _ => None
      end
  | String c r =>
      if Ascii.eqb c quote_char then Some (Narrow EmptyString, r)
      else if Ascii.eqb c "\" then None
      else if (code c <? 32)%nat then None
      else match parse_string_body r with
           | Some (t, r') => Some (cons_char c t, r')
           | None => None
           end
  end.

Fixpoint span_digits (s : string) : string * string :=
  match s with
  | String c s' =>
      if is_digit c then let (d, r) := span_digits s' in (String c d, r)
      else (EmptyString, s)
  | EmptyString => (EmptyString, EmptyString)
  end.

(** A JSON number: sign, integer part without a leading zero, fraction,
    exponent. The text read is returned with what follows. *)
Definition parse_number (s : string) : option (string * string) :=
  let '(sign, s1) :=
    match s with String "-" r => ("-", r) | _ => (EmptyString, s) end in
  let int_part :=
    match s1 with
    | String "0" r => Some ("0", r)
    | _ => let (d, r) := span_digits s1 in
           if (String.length d =? 0)%nat then None else Some (d, r)
    end in
  match int_part with
  | None => None
  | Some (i, s2) =>
      let frac_part :=
        match s2 with
        | String "." r =>
            let (d, r') := span_digits r in
            if (String.length d =? 0)%nat then None else Some ("." ++ d, r')
        | _ => Some (EmptyString, s2)
        end in
      match frac_part with
      | None => None
      | Some (f, s3) =>
          let exp_of (e : string) (r : string) :=
            let '(sg, r1) :=
              match r with
              | String "+" r1 => ("+", r1)
              | String "-" r1 => ("-", r1)
              | _ => (EmptyString, r)
              end in
            let (d, r') := span_digits r1 in
            if (String.length d =? 0)%nat then None
            else Some (sign ++ i ++ f ++ e ++ sg ++ d, r') in
          match s3 with
          | String "e" r => exp_of "e" r
          | String "E" r => exp_of "E" r
          | _ => Some (sign ++ i ++ f, s3)
          end
      end
  end.

(** The recursive part of [JSON.parse]. [parse_value] reads one value after
    optional white space; [parse_elements] reads the elements of an array
    after its opening bracket, up to and including the closing bracket;
    [parse_members] does the same for the members of an object. Each call
    spends one unit of fuel. *)
Fixpoint parse_value (fuel : nat) (s : string) : option (JSON * string) :=
  match fuel with
  | O => None
  | S fuel' =>
      match skip_ws s with
      | EmptyString => None
      | String c r =>
          if Ascii.eqb c "[" then
            match skip_ws r with
            | String "]" r' => Some (JArray [], r')
            | _ =>
                match parse_elements fuel' r with
                | Some (l, r') => Some (JArray l, r')
                | None => None
                end
            end
          else if Ascii.eqb c "{" then
            match skip_ws r with
            | String "}" r' => Some (JObject [], r')
            | _ =>
                match parse_members fuel' r with
                | Some (m, r') => Some (JSON_of_members m, r')
                | None => None
                end
            end
          else if Ascii.eqb c quote_char then
            match parse_string_body r with
            | Some (t, r') => Some (JSON_of_text t, r')
            | None => None
            end
          else if prefix "true" (String c r) then Some (JBool true, drop 4 (String c r))
          else if prefix "false" (String c r) then Some (JBool false, drop 5 (String c r))
          else if prefix "null" (String c r) then Some (JNull, drop 4 (String c r))
          else
            match parse_number (String c r) with
            | Some (lexeme, r') => Some (JNumber lexeme, r')
            | None => None
            end
      end
  end
with parse_elements (fuel : nat) (s : string) : option (list JSON * string) :=
  match fuel with
  | O => None
  | S fuel' =>
      match parse_value fuel' s with
      | None => None
      | Some (v, r) =>
          match skip_ws r with
          | String "," r' =>
              match parse_elements fuel' r' with
              | Some (l, r'') => Some (v :: l, r'')
              | None => None
              end
          | String "]" r' => Some ([v], r')
          | _ => None
          end
      end
  end
with parse_members (fuel : nat) (s : string) : option (list (Text * JSON) * string) :=
  match fuel with
  | O => None
  | S fuel' =>
      match skip_ws s with
      | String c r =>
          if Ascii.eqb c quote_char then
            match parse_string_body r with
            | None => None
            | Some (key, r1) =>
                match skip_ws r1 with
                | String ":" r2 =>
                    match parse_value fuel' r2 with
                    | None => None
                    | Some (v, r3) =>
                        match skip_ws r3 with
                        | String "," r4 =>
                            match parse_members fuel' r4 with
                            | Some (m, r5) => Some ((key, v) :: m, r5)
                            | None => None
                            end
                        | String "}" r4 => Some ([(key, v)], r4)
                        | _ => None
                        end
                    end
                | _ => None
                end
            end
          else None
      | EmptyString => None
      end
  end.

(** [JSON.parse(t)]: one value, then only white space. [None] is the
    [SyntaxError]. The fuel given is enough for every text
    ([JSON_parse_fuel] below). *)
Definition JSON_parse (t : string) : option JSON :=
  match parse_value (2 * String.length t + 2) t with
  | Some (v, r) =>
      match skip_ws r with
      | EmptyString => Some v
      | _ => None
      end
  | None => None
  end.

(** [t?.key] for the keys that the codec reads, [i] and [a]: the value of
    the member of that name, the last one when the text repeats the name;
    [None] is [undefined], which is also what [null], a primitive and an
    array give. *)
Fixpoint lookup_member (key : string) (members : list (string * JSON)) : option JSON :=
  match members with
  | [] => None
  | (k, v) :: rest =>
      match lookup_member key rest with
      | Some v' => Some v'
      | None => if String.eqb k key then Some v else None
      end
  end.

Fixpoint lookup_text_member (key : string) (members : list (Text * JSON)) : option JSON :=
  match members with
  | [] => None
  | (k, v) :: rest =>
      match lookup_text_member key rest with
      | Some v' => Some v'
      | None =>
          match k with
          | Narrow k' => if String.eqb k' key then Some v else None
          | Wide _ => None
          end
      end
  end.

Definition property (t : JSON) (key : string) : option JSON :=
  match t with
  | JObject members => lookup_member key members
  | JWideObject members => lookup_text_member key members
  | _ => None
  end.

(** [typeof j === 'string'] *)
Definition is_JString (j : JSON) : bool :=
  match j with JString _ | JWideString _ => true | _ => false end.

(** The strings of an array of strings, when they are all inside the
    alphabet. *)
Fixpoint narrow_strings (a : list JSON) : option (list string) :=
  match a with
  | [] => Some []
  | JString s :: a' =>
      match narrow_strings a' with
      | Some l => Some (s :: l)
      | None => None
      end
  | _ :: _ => None
  end.

Fixpoint all_digits (s : string) : bool :=
  match s with
  | EmptyString => true
  | String c s' => is_digit c && all_digits s'
  end.

(** The print of the Number that a lexeme denotes, for a lexeme that is an
    integer of at most 15 digits: the lexeme itself, and 0 for the negative
    zero. The print of another Number (1.0 prints as 1, 1e21 as 1e+21) is
    not modelled: [None]. *)
Definition number_text (lexeme : string) : option string :=
  let digits := match lexeme with String "-" d => d | _ => lexeme end in
  if String.eqb lexeme "-0" then Some "0"
  else if (all_digits digits && (String.length digits <=? 15)%nat)%bool then Some lexeme
  else None.

Fixpoint all_texts (l : list (option string)) : option (list string) :=
  match l with
  | [] => Some []
  | Some x :: l' =>
      match all_texts l' with
      | Some r => Some (x :: r)
      | None => None
      end
  | None :: _ => None
  end.

(** [`${j}`] in an error message, when the conversion returns: the text,
    or [None] when the text is not one of the model (it holds a code unit
    above 255 or the print of a Number that is not modelled). An array
    prints as its elements joined by commas, [null] among them as the
    empty text. *)
Fixpoint template_text (j : JSON) : option string :=
  match j with
  | JNull => Some "null"
  | JBool true => Some "true"
  | JBool false => Some "false"
  | JNumber lexeme => number_text lexeme
  | JString s => Some s
  | JArray l =>
      match all_texts
              (map (fun x => match x with JNull => Some "" | _ => template_text x end) l) with
      | Some texts => Some (join_strings "," texts)
      | None => None
      end
  | JObject _ => Some "[object Object]"
  | JWideString _ => None
  | JWideObject _ => Some "[object Object]"
  end.

(** Whether the conversion of [j] to a string returns. That of an object
    calls its [toString]: the one it inherits, unless a member of the
    object has that name; then nothing callable gives a primitive value
    and the conversion raises. *)
Fixpoint converts (j : JSON) : bool :=
  match j with
  | JArray l => forallb converts l
  | JObject members =>
      match lookup_member "toString" members with Some _ => false | None => true end
  | JWideObject members =>
      match lookup_text_member "toString" members with Some _ => false | None => true end
  | _ => true
  end.

(** ** The codec: [encodeATL] and [decodeATL] *)

Definition encodeATL (ts : list PSTransformerWithArguments) : string :=
  let ret :=
    map (fun t => JObject [ ("i", JString (ID (Transformer t)));
                            ("a", JArray (map JString (Arguments t))) ]) ts in
  JSON_stringify (JArray ret).

(** What [decodeATL] does on a token, as far as the alphabet of the model
    tells. [Inside r]: it returns or raises as [r] says. [Outside false]:
    it returns a pipeline in which an argument holds a code unit above
    255. [Outside true]: it raises an [Error] whose message is not a text
    of the model. *)
Inductive Modelled (A : Type) : Type :=
| Inside (r : result A)
| Outside (raises : bool).
Arguments Inside {A} r.
Arguments Outside {A} raises.

Definition raises {A} (m : Modelled A) : bool :=
  match m with
  | Inside (Ok _) => false
  | Inside (Err _) => true
  | Outside b => b
  end.

(** [pst.ID === j] *)
Definition ID_is (j : JSON) (pst : PSTransformer) : bool :=
  match j with
  | JString s => String.eqb (ID pst) s
  | _ => false
  end.

(** [throw new Error(`decodeAppliedTransformerList: transformer ${i}...`)] *)
Definition decode_error {A} (i : JSON) (what : string) : Modelled A :=
  if converts i then
    match template_text i with
    | Some text =>
        Inside (Err (Error ("decodeAppliedTransformerList: transformer " ++ text ++ what)))
    | None => Outside true
    end
  else Inside (Err (TypeError "Cannot convert object to primitive value")).

(** The body of the [forEach] of [decodeATL] for the record [t]. *)
Definition decode_record (t : JSON) : Modelled PSTransformerWithArguments :=
  match property t "i", property t "a" with
  | Some i, Some (JArray a) =>
      if negb (forallb is_JString a) then decode_error i " has non-string argument"
      else
        match find (ID_is i) PSTransformers with
        | None => decode_error i " not found"
        | Some tf =>
            match narrow_strings a with
            | Some args => Inside (Ok {| Transformer := tf; Arguments := args |})
            | None => Outside false
            end
        end
  | _, _ => Inside (Err (Error "decodeAppliedTransformerList: transformer id or args malformed"))
  end.

(** [p.forEach] with a body that pushes to [ret] or throws: the first
    exception ends the loop and nothing is returned. *)
Fixpoint decode_records (p : list JSON) : Modelled (list PSTransformerWithArguments) :=
  match p with
  | [] => Inside (Ok [])
  | t :: p' =>
      match decode_record t with
      | Inside (Err e) => Inside (Err e)
      | Outside true => Outside true
      | Inside (Ok x) =>
          match decode_records p' with
          | Inside (Ok ret) => Inside (Ok (x :: ret))
          | Inside (Err e) => Inside (Err e)
          | Outside b => Outside b
          end
      | Outside false =>
          match decode_records p' with
          | Inside (Ok _) => Outside false
          | Inside (Err e) => Inside (Err e)
          | Outside b => Outside b
          end
      end
  end.

(** [decodeATL], Transform.ts. The host gives the [SyntaxError] a message
    of its own; the model writes one for it. *)
Definition decodeATL (t : string) : Modelled (list PSTransformerWithArguments) :=
  match JSON_parse t with
  | None => Inside (Err (SyntaxError "JSON.parse: the text is not valid JSON"))
  | Some (JArray p) => decode_records p
  | Some _ => Inside (Err (Error "decodeAppliedTransformerList: parsed value is not array"))
  end.

(** * Definitions of the statements

    The readings of the specification and the notions in which the
    properties below are stated. *)

(** The order of two values by their keys, and the values of one key, for
    a key function and a strict order of the keys. *)
Definition key_le {K : Type} (ltK : K -> K -> bool) (key : Value -> K)
  (x y : Value) : Prop :=
  ltK (key y) (key x) = false.

Definition same_key {K : Type} (ltK : K -> K -> bool) (key : Value -> K)
  (k : K) (y : Value) : bool :=
  negb (ltK (key y) k) && negb (ltK k (key y)).

(** The reading of the specification: the function is applied at every
    leaf string, an array is rebuilt from the results for its elements in
    order, and a value that is neither is refused. *)
Fixpoint map_leaves (f : Value -> M Value) (v : Value) : M Value :=
  match v with
  | VStr s => f (VStr s)
  | VArr l => r <- array_map (map_leaves f) l ;; ret (VArr r)
  | VUndefined => throw (Error "applyTransformer: v is not a string nor array")
  end.

(** The leaves of a value from left to right, and the value in which every
    leaf is replaced by its image. *)
Fixpoint leaves (v : Value) : list string :=
  match v with
  | VStr s => [s]
  | VArr l => flat_map leaves l
  | VUndefined => []
  end.

Fixpoint replace_leaves (f : string -> Value) (v : Value) : Value :=
  match v with
  | VStr s => f s
  | VArr l => VArr (map (replace_leaves f) l)
  | VUndefined => VUndefined
  end.

(** A value made of strings and arrays only. *)
Fixpoint defined (v : Value) : bool :=
  match v with
  | VStr _ => true
  | VArr l => forallb defined l
  | VUndefined => false
  end.

(** The reading of the specification of the chain: a left fold from the
    initial value in which a step that raises leaves the value as it was. *)
Fixpoint fold_skipping_failures (ts : list PSTransformerWithArguments) (v : Value) : Value :=
  match ts with
  | [] => v
  | t :: ts' =>
      match outcome (applyTransformer v t) with
      | Ok v' => fold_skipping_failures ts' v'
      | Err _ => fold_skipping_failures ts' v
      end
  end.

(** The steps that raise in that fold, each with its exception. *)
Fixpoint failures (ts : list PSTransformerWithArguments) (v : Value)
  : list (PSTransformerWithArguments * JSError) :=
  match ts with
  | [] => []
  | t :: ts' =>
      match outcome (applyTransformer v t) with
      | Ok v' => failures ts' v'
      | Err e => (t, e) :: failures ts' v
      end
  end.

(** The messages of the alerts of a trace, in order. *)
Definition alerts (tr : list Event) : list string :=
  flat_map (fun ev => match ev with Alert m => [m] | Invoke _ _ _ => [] end) tr.

(** The numbers that [parseInt] returns: a finite one is below 2^1024 in
    magnitude. On them the order of Numbers is the order of the integers
    given by [rank]. *)
Definition in_range (n : Number) : Prop :=
  match n with
  | Int z => (Z.abs z < Z.shiftl 1 1024)%Z
  | _ => True
  end.

Definition rank (n : Number) : Z :=
  match n with
  | NaN | MinusZero => 0%Z
  | Int z => z
  | PlusInfinity => Z.shiftl 1 1024
  | MinusInfinity => (- Z.shiftl 1 1024)%Z
  end.

(** The number that [sort] reads in an element, and its test that all
    elements are numbers. *)
Definition number_of (v : Value) : Number := parseInt (toString v).

Definition isAllInt (v : list Value) : bool :=
  forallb (fun x => negb (isNaN (number_of x))) v.

Definition same_number (a b : Number) : bool :=
  negb (number_ltb a b) && negb (number_ltb b a).

Definition number_le (a b : Value) : Prop :=
  number_ltb (number_of b) (number_of a) = false.

Definition text_le (a b : Value) : Prop :=
  String.ltb (toString b) (toString a) = false.

(** The argument of [slice_array] without spaces and line breaks. *)
Definition normalized_text (indexes : string) : string :=
  remove_line_breaks (replaceAll " " "" indexes).

(** The reading of the specification: the pattern for a raw text has the
    wildcard term for every occurrence of the token, found from left to
    right, and a term that matches the character itself for every other
    character. [skip] counts the characters of a token still to pass. *)
Fixpoint wildcard_pattern (w : Term) (skip : nat) (raw : string) : RegExp :=
  match raw with
  | EmptyString => []
  | String c r =>
      match skip with
      | S k => wildcard_pattern w k r
      | O => if prefix "%w%" raw then w :: wildcard_pattern w 2 r
             else Char c :: wildcard_pattern w 0 r
      end
  end.

(** The source text of the pattern that the code builds. *)
Fixpoint pattern_source (text : string) (skip : nat) (raw : string) : string :=
  match raw with
  | EmptyString => EmptyString
  | String c r =>
      match skip with
      | S k => pattern_source text k r
      | O => if prefix "%w%" raw then text ++ pattern_source text 2 r
             else if is_syntax_char c then String "\" (String c (pattern_source text 0 r))
             else String c (pattern_source text 0 r)
      end
  end.

(** *** What a pattern without capturing groups matches

    [matches p s n]: the pattern [p] matches the first [n] characters of
    [s]. A character matches itself; the wildcard matches any run of
    characters. *)
Inductive matches : RegExp -> string -> nat -> Prop :=
| matches_end s : matches [] s 0
| matches_char c p s n :
    matches p s n -> matches (Char c :: p) (String c s) (S n)
| matches_wild_stop p s n :
    matches p s n -> matches (LazyAny :: p) s n
| matches_wild_more p c s n :
    matches (LazyAny :: p) s n -> matches (LazyAny :: p) (String c s) (S n).

Definition lazy_only (p : RegExp) : bool :=
  forallb (fun t => match t with GreedyGroup => false | _ => true end) p.

Definition is_JArray (j : JSON) : bool :=
  match j with JArray _ => true | _ => false end.

(** A record that [decodeATL] refuses: its [i] is missing; or its [a] is
    not an array; or an element of [a] is not a string; or its [i] is the
    ID of no transformer of the catalog. *)
Definition malformed_record (t : JSON) : Prop :=
  property t "i" = None
  \/ (forall a, property t "a" <> Some (JArray a))
  \/ (exists a, property t "a" = Some (JArray a) /\ Exists (fun x => is_JString x = false) a)
  \/ (exists i, property t "i" = Some i
                /\ forall pst, In pst PSTransformers -> i <> JString (ID pst)).

(** The invocation that a well-formed record denotes. *)
Definition decodes_to (t : JSON) (x : PSTransformerWithArguments) : Prop :=
  In (Transformer x) PSTransformers
  /\ property t "i" = Some (JString (ID (Transformer x)))
  /\ property t "a" = Some (JArray (map JString (Arguments x))).

(** A record with an argument that holds a code unit above 255. *)
Definition is_JWideString (j : JSON) : bool :=
  match j with JWideString _ => true | _ => false end.

Definition wide_argument (t : JSON) : Prop :=
  exists a, property t "a" = Some (JArray a)
            /\ Exists (fun x => is_JWideString x = true) a.

(** The elements of an array of strings as they are printed, with the
    closing bracket and what follows. *)
Fixpoint printed_elements (l : list string) (rest : string) : string :=
  match l with
  | [] => "]" ++ rest
  | [x] => quote x ++ "]" ++ rest
  | x :: xs => quote x ++ "," ++ printed_elements xs rest
  end.

(** The record that [encodeATL] builds for an invocation. *)
Definition record_of (t : PSTransformerWithArguments) : JSON :=
  JObject [ ("i", JString (ID (Transformer t)));
            ("a", JArray (map JString (Arguments t))) ].

Definition printed_record (t : PSTransformerWithArguments) (rest : string) : string :=
  "{" ++ quote "i" ++ ":" ++ quote (ID (Transformer t)) ++ ","
      ++ quote "a" ++ ":" ++ JSON_stringify (JArray (map JString (Arguments t)))
      ++ "}" ++ rest.

Fixpoint printed_records (l : list PSTransformerWithArguments) (rest : string) : string :=
  match l with
  | [] => "]" ++ rest
  | [t] => printed_record t ("]" ++ rest)
  | t :: ts => printed_record t ("," ++ printed_records ts rest)
  end.

(** The fuel that the records need, and the room that their text gives. *)
Fixpoint weight (l : list PSTransformerWithArguments) : nat :=
  match l with
  | [] => 0
  | t :: ts => length (Arguments t) + 6 + weight ts
  end.

(** ** Notions for the further properties *)

(** What the [Func] of a transformer of the given Target is meant to
    receive: a string, or an array whose first element is a string. *)
Definition well_targeted (target : Shape) (v : Value) : bool :=
  match target, v with
  | Tstring, VStr _ => true
  | Tarray, VArr (VStr _ :: _) => true
  | _, _ => false
  end.

(** ['string'] for a string and ['array'] for an array. *)
Definition has_shape (s : Shape) (v : Value) : bool :=
  match s, v with
  | Tstring, VStr _ => true
  | Tarray, VArr _ => true
  | _, _ => false
  end.

(** A value on which an array transformer finds only rows: an array that
    starts with a string (a row), or an array of such values. *)
Fixpoint grouped (v : Value) : bool :=
  match v with
  | VArr l =>
      match l with
      | VStr _ :: _ => true
      | _ => forallb grouped l
      end
  | _ => false
  end.

(** The rows of a value from left to right, and the value in which every
    row is replaced by its image. *)
Fixpoint rows (v : Value) : list (list Value) :=
  match v with
  | VArr l =>
      match l with
      | VStr _ :: _ => [l]
      | _ => flat_map rows l
      end
  | _ => []
  end.

Fixpoint replace_rows (f : list Value -> Value) (v : Value) : Value :=
  match v with
  | VArr l =>
      match l with
      | VStr _ :: _ => f l
      | _ => VArr (map (replace_rows f) l)
      end
  | _ => v
  end.

(** The two exceptions that [applyTransformer] itself raises. *)
Definition not_string_nor_array : JSError :=
  Error "applyTransformer: v is not a string nor array".

Definition array_transformer_on_string : JSError :=
  Error "applyTransformer: a targeted array transformer cannot be applied on string".

(** A pattern of characters and capturing groups only, the number of its
    groups, and the text it denotes when each group stands for a capture. *)
Definition greedy_only (p : RegExp) : bool :=
  forallb (fun t => match t with LazyAny => false | _ => true end) p.

Fixpoint group_count (p : RegExp) : nat :=
  match p with
  | [] => 0
  | GreedyGroup :: p' => S (group_count p')
  | _ :: p' => group_count p'
  end.

Fixpoint instantiate (p : RegExp) (captures : list string) : string :=
  match p with
  | [] => EmptyString
  | Char c :: p' => String c (instantiate p' captures)
  | LazyAny :: p' => instantiate p' captures
  | GreedyGroup :: p' =>
      match captures with
      | cap :: rest => cap ++ instantiate p' rest
      | [] => instantiate p' []
      end
  end.

(** What the token keeps of an invocation: the ID and the arguments. *)
Definition wire_form (t : PSTransformerWithArguments) : string * list string :=
  (ID (Transformer t), Arguments t).

(** An ID that the catalog knows. *)
Definition known_ID (id : string) : Prop :=
  exists pst, In pst PSTransformers /\ ID pst = id.

(** ** The page, continued: editing the chain

    [state.AppliedTransformers] is the list of the applied transformers. *)

(** [addTransformer(t, args)]: [push]. *)
Definition addTransformer (t : PSTransformer) (args : list string)
  (AppliedTransformers : list PSTransformerWithArguments)
  : list PSTransformerWithArguments :=
  (AppliedTransformers ++ [ {| Transformer := t; Arguments := args |} ])%list.

(** [l[i] = x] for a position of the list. *)
Fixpoint list_set {A} (i : nat) (x : A) (l : list A) : list A :=
  match l, i with
  | [], _ => []
  | _ :: l', O => x :: l'
  | y :: l', S i' => y :: list_set i' x l'
  end.

(** [updateTransformer(appliedIndex, args)]: the assignment to the property
    of [AppliedTransformers[appliedIndex]] raises when there is no such
    element. [appliedIndex] is the index that the list of the page passes,
    a natural number. *)
Definition updateTransformer (appliedIndex : nat) (args : list string)
  (AppliedTransformers : list PSTransformerWithArguments)
  : result (list PSTransformerWithArguments) :=
  match nth_error AppliedTransformers appliedIndex with
  | None => Err (TypeError "Cannot set properties of undefined (setting 'Arguments')")
  | Some x =>
      Ok (list_set appliedIndex
            {| Transformer := Transformer x; Arguments := args |} AppliedTransformers)
  end.

(** [l.filter((x, i) => p(x, i))], [i] being the index of [x] in [l]. *)
Fixpoint filter_indexed {A} (p : A -> nat -> bool) (i : nat) (l : list A) : list A :=
  match l with
  | [] => []
  | x :: l' =>
      if p x i then x :: filter_indexed p (S i) l' else filter_indexed p (S i) l'
  end.

(** [deleteTransformer(appliedIndex)] *)
Definition deleteTransformer (appliedIndex : nat)
  (AppliedTransformers : list PSTransformerWithArguments)
  : list PSTransformerWithArguments :=
  filter_indexed (fun _ i => negb (i =? appliedIndex)%nat) 0 AppliedTransformers.

(** ** The page, continued: the statistics

    [inputStats] and [outputStats] of PowerStrings.vue. The [encoding]
    field, which a library computes, is left out. *)

Definition CR : ascii := "013"%char.
Definition LF : ascii := "010"%char.
Definition LF_text : string := String LF EmptyString.
Definition CRLF_text : string := String CR (String LF EmptyString).

(** The matches of the global pattern for a CR LF pair or a LF, from left
    to right: at each position the pair is tried first. *)
Fixpoint line_break_matches (s : string) : list string :=
  match s with
  | EmptyString => []
  | String c s' =>
      let otherwise :=
        if Ascii.eqb c LF then LF_text :: line_break_matches s'
        else line_break_matches s' in
      match s' with
      | String d s'' =>
          if (Ascii.eqb c CR && Ascii.eqb d LF)%bool
          then CRLF_text :: line_break_matches s''
          else otherwise
      | EmptyString => otherwise
      end
  end.

(** [s.match(pattern)] with the global flag: [None] is [null], returned
    when there is no match. *)
Definition match_line_breaks (s : string) : option (list string) :=
  match line_break_matches s with
  | [] => None
  | controls => Some controls
  end.

(** The detection of the line break control, written out in both
    statistics. *)
Definition detect_line_break_control (s : string) : string :=
  match match_line_breaks s with
  | None => ""
  | Some controls =>
      let lfLen := length (filter (fun c => String.eqb c LF_text) controls) in
      let crlfLen := length controls - lfLen in
      if (crlfLen <=? lfLen)%nat then "LF" else "CRLF"
  end.

Record InputStats : Type := {
  lineBreakControl : string;
  charCount : nat;
  linesCount : nat
}.

Definition inputStats (InputValue : string) : InputStats :=
  {| lineBreakControl := detect_line_break_control InputValue;
     charCount := String.length InputValue;
     linesCount := length (split_string LF_text InputValue) |}.

(** [reduceFunc] of [outputStats]; [reduce] from 0 is a left fold. *)
Fixpoint reduceFunc (count : nat) (cur : Value) : nat :=
  match cur with
  | VArr l => count + fold_left reduceFunc l 0
  | _ => count + 1
  end.

Definition elementsCount (output : Value) : nat :=
  match output with
  | VArr l => length l
  | _ => 0
  end.

Definition elementsTotalCount (output : Value) : nat :=
  match output with
  | VArr l => fold_left reduceFunc l 0
  | _ => 0
  end.

(** The number of line feeds of a text, and of those that follow a
    carriage return. *)
Fixpoint count_LF (s : string) : nat :=
  match s with
  | EmptyString => 0
  | String c s' => (if Ascii.eqb c LF then 1 else 0) + count_LF s'
  end.

Definition starts_with_LF (s : string) : bool :=
  match s with
  | String d _ => Ascii.eqb d LF
  | EmptyString => false
  end.

Fixpoint count_CRLF (s : string) : nat :=
  match s with
  | EmptyString => 0
  | String c s' =>
      (if (Ascii.eqb c CR && starts_with_LF s')%bool then 1 else 0) + count_CRLF s'
  end.

(** The number of values in an array that are not arrays, at any depth. *)
Fixpoint non_arrays (v : Value) : nat :=
  match v with
  | VArr l => list_sum (map non_arrays l)
  | _ => 1
  end.

(** ** The page, continued: the formatted output

    [JSON.stringify(value, null, space)] on the values that a chain
    produces. [SerializeJSONProperty] prints a string quoted, an
    [undefined] element as [null] and an array through
    [SerializeJSONArray]: the elements one per line behind the current
    indentation, or without any white space when [gap] is empty. *)

Fixpoint spaces (n : nat) : string :=
  match n with
  | O => EmptyString
  | S n' => String " " (spaces n')
  end.

Fixpoint SerializeJSONProperty (gap indent : string) (v : Value) : string :=
  match v with
  | VStr s => quote s
  | VUndefined => "null"
  | VArr l =>
      let stepback := indent in
      let indent := indent ++ gap in
      let partial := map (SerializeJSONProperty gap indent) l in
      match partial with
      | [] => "[]"
      | _ =>
          if (String.length gap =? 0)%nat
          then "[" ++ join_strings "," partial ++ "]"
          else
            let separator := "," ++ LF_text ++ indent in
            "[" ++ LF_text ++ indent ++ join_strings separator partial
                ++ LF_text ++ stepback ++ "]"
      end
  end.

Definition JSON_stringify_indented (v : Value) (space : nat) : string :=
  SerializeJSONProperty (spaces (Nat.min 10 space)) EmptyString v.

(** [outputValueFormated], PowerStrings.vue. *)
Definition outputValueFormated (output : Value) : Value :=
  match output with
  | VArr _ => VStr (JSON_stringify_indented output 4)
  | _ => output
  end.

(** The JSON value that a value denotes. *)
Fixpoint JSON_of_value (v : Value) : JSON :=
  match v with
  | VStr s => JString s
  | VArr l => JArray (map JSON_of_value l)
  | VUndefined => JNull
  end.

(** Fuel that suffices to read the text of a value. *)
Fixpoint reading_fuel (v : Value) : nat :=
  match v with
  | VArr l => S (list_sum (map (fun x => S (reading_fuel x)) l))
  | _ => 1
  end.

(** The fields of [outputStats] that are read off the formatted output.
    The method calls raise when the output is not a text. *)
Definition not_a_text (property : string) : JSError :=
  TypeError ("Cannot read properties of undefined (reading '" ++ property ++ "')").

Definition outputStats_charCount (output : Value) : result nat :=
  match outputValueFormated output with
  | VStr text => Ok (String.length text)
  | _ => Err (not_a_text "length")
  end.

Definition outputStats_linesCount (output : Value) : result nat :=
  match outputValueFormated output with
  | VStr text => Ok (length (split_string LF_text text))
  | _ => Err (not_a_text "split")
  end.

Definition outputStats_lineBreakControl (output : Value) : string :=
  match output with
  | VStr s => detect_line_break_control s
  | _ => ""
  end.

(** The lines that a value takes when it is printed with indentation: one
    for a string, an absent element or an empty array, and for another
    array the lines of its elements between the lines of its brackets. *)
Fixpoint display_lines (v : Value) : nat :=
  match v with
  | VArr l =>
      match l with
      | [] => 1
      | _ => 2 + list_sum (map display_lines l)
      end
  | _ => 1
  end.

(** A text of white space only. *)
Fixpoint white (s : string) : bool :=
  match s with
  | EmptyString => true
  | String c s' => is_white_space c && white s'
  end.

(** The capital letters among the code units below 256: A to Z, and the
    letters from 192 to 222 (the multiplication sign 215 is not one). A
    text without a capital letter. *)
Definition is_capital (c : ascii) : bool :=
  let n := code c in
  (((65 <=? n) && (n <=? 90)) || ((192 <=? n) && (n <=? 222) && negb (n =? 215)))%nat.

Fixpoint no_capital (s : string) : bool :=
  match s with
  | EmptyString => true
  | String c s' => negb (is_capital c) && no_capital s'
  end.

(** The condition under which the page lists a transformer of the catalog
    for adding (the [v-if] of the list of transformers, PowerStrings.vue),
    [outputValue] being the current output. *)
Definition listed (t : PSTransformer) (outputValue : Value) : bool :=
  Shape_eqb (Target t) Tstring || (Shape_eqb (Target t) Tarray && is_Array outputValue).

(** * Properties *)

(** ** The recursive applier *)

(** Induction on a value with the hypothesis for every element of an
    array. *)
Lemma Value_nested_ind (P : Value -> Prop) :
  (forall s, P (VStr s)) ->
  (forall l, Forall P l -> P (VArr l)) ->
  P VUndefined ->
  forall v, P v.
Proof.
  intros Hs Ha Hu.
  fix IH 1.
  intros [s | l |].
  - apply Hs.
  - apply Ha. induction l as [| x l IHl]; constructor; [apply IH | exact IHl].
  - exact Hu.
Qed.

Lemma array_map_ext {A B} (f g : A -> M B) (l : list A) :
  Forall (fun x => f x = g x) l -> array_map f l = array_map g l.
Proof.
  induction 1 as [| x l Hx _ IH]; simpl; [reflexivity |].
  rewrite Hx, IH. reflexivity.
Qed.

(** The three cases of [applyTransformer]. *)
Lemma applyTransformer_undefined t :
  applyTransformer VUndefined t
  = throw (Error "applyTransformer: v is not a string nor array").
Proof. reflexivity. Qed.

Lemma applyTransformer_string s t :
  applyTransformer (VStr s) t
  = match Target (Transformer t) with
    | Tarray =>
        throw (Error "applyTransformer: a targeted array transformer cannot be applied on string")
    | Tstring => invoke (VStr s) t
    end.
Proof. simpl. destruct (Target (Transformer t)); reflexivity. Qed.

Lemma applyTransformer_array l t :
  applyTransformer (VArr l) t
  = match Target (Transformer t) with
    | Tstring => r <- array_map (fun vm => applyTransformer vm t) l ;; ret (VArr r)
    | Tarray =>
        if (0 <? length l)%nat && is_string (nth 0 l VUndefined)
        then invoke (VArr l) t
        else r <- array_map (fun vm => applyTransformer vm t) l ;; ret (VArr r)
    end.
Proof.
  simpl.
  match goal with
  | |- context [bind (?F l) _] =>
      assert (E : forall k, F k = array_map (fun vm => applyTransformer vm t) k)
  end.
  { induction k as [| x k IH]; simpl; [reflexivity | rewrite IH; reflexivity]. }
  rewrite E. reflexivity.
Qed.

Lemma array_map_total {A B} (f : A -> M B) (g : A -> B) (tr : A -> list Event) (l : list A) :
  Forall (fun x => f x = (tr x, Ok (g x))) l ->
  array_map f l = (flat_map tr l, Ok (map g l)).
Proof.
  induction 1 as [| x l Hx _ IH]; simpl; [reflexivity |].
  rewrite Hx, IH. unfold bind, ret. simpl. rewrite app_nil_r. reflexivity.
Qed.

(** C8. For a transformer whose Target is 'string': on an array,
    [applyTransformer] is the map of [applyTransformer] over the elements;
    at any depth it is the application of [Func] at every leaf; and when
    [Func] returns on every string, [Func] is invoked once per leaf, from
    left to right, and the result is the value with each leaf replaced by
    its image, the arrays being as they were. *)
Theorem applyTransformer_string_target_distributes :
  forall t : PSTransformerWithArguments,
    Target (Transformer t) = Tstring ->
    (forall l, applyTransformer (VArr l) t
               = (r <- array_map (fun vm => applyTransformer vm t) l ;; ret (VArr r)))
    /\ (forall v, applyTransformer v t = map_leaves (fun leaf => invoke leaf t) v)
    /\ (forall f : string -> Value,
           (forall s, Func (Transformer t) (VStr s) (Arguments t) = Ok (f s)) ->
           forall v, defined v = true ->
             applyTransformer v t
             = (map (fun s => Invoke (ID (Transformer t)) (VStr s) (Arguments t)) (leaves v),
                Ok (replace_leaves f v))).
Proof.
  intros t Ht.
  assert (H1 : forall l, applyTransformer (VArr l) t
               = (r <- array_map (fun vm => applyTransformer vm t) l ;; ret (VArr r))).
  { intros l. rewrite applyTransformer_array, Ht. reflexivity. }
  assert (H2 : forall v, applyTransformer v t = map_leaves (fun leaf => invoke leaf t) v).
  { induction v as [s | l IH |] using Value_nested_ind.
    - rewrite applyTransformer_string, Ht. reflexivity.
    - rewrite H1. simpl. rewrite (array_map_ext _ _ _ IH). reflexivity.
    - reflexivity. }
  split; [exact H1 | split; [exact H2 |]].
  intros f Hf.
  induction v as [s | l IH |] using Value_nested_ind; intros Hd.
  - rewrite applyTransformer_string, Ht. unfold invoke, emit, lift, bind.
    rewrite Hf. reflexivity.
  - rewrite H1. simpl in Hd. rewrite forallb_forall in Hd.
    rewrite (array_map_total _ (replace_leaves f)
               (fun v => map (fun s => Invoke (ID (Transformer t)) (VStr s) (Arguments t))
                             (leaves v))).
    + unfold bind, ret. simpl. rewrite app_nil_r. f_equal.
      induction l as [| x l IHl]; simpl; [reflexivity |].
      rewrite map_app. f_equal. apply IHl.
      * inversion IH; assumption.
      * intros y Hy. apply Hd. right. exact Hy.
    + rewrite Forall_forall in *. intros x Hx. apply IH; [exact Hx | apply Hd; exact Hx].
  - discriminate.
Qed.

Lemma applyTransformer_string_target_distributes_witness :
  Target (Transformer (applied upper_case_transformer [])) = Tstring
  /\ applyTransformer (VArr [strings ["a"; "b"]; strings ["c"]])
                      (applied upper_case_transformer [])
     = ([Invoke "upper_case" (VStr "a") []; Invoke "upper_case" (VStr "b") [];
         Invoke "upper_case" (VStr "c") []],
        Ok (VArr [strings ["A"; "B"]; strings ["C"]])).
Proof.
  split; [reflexivity |].
  exact (proj2 (proj2 (applyTransformer_string_target_distributes
                         (applied upper_case_transformer []) eq_refl))
           (fun s => VStr (toUpperCase s)) (fun s => eq_refl)
           (VArr [strings ["a"; "b"]; strings ["c"]]) eq_refl).
Defined.

(** C9. A transformer whose Target is 'array', applied to the empty array,
    gives the empty array and its [Func] is not invoked: the trace is empty
    whatever [Func] is. For [join], whose declared Return is 'string', the
    result on the empty array is therefore an array and not a string. *)
Theorem applyTransformer_array_target_on_empty_array :
  (forall t : PSTransformerWithArguments,
      Target (Transformer t) = Tarray ->
      applyTransformer (VArr []) t = ([], Ok (VArr [])))
  /\ (forall args,
         Return join_transformer = Tstring
         /\ applyTransformer (VArr []) (applied join_transformer args) = ([], Ok (VArr []))
         /\ join_Func (VArr []) args = Ok (VStr "")).
Proof.
  split.
  - intros t Ht. rewrite applyTransformer_array, Ht. reflexivity.
  - intros args. repeat split.
Qed.

Lemma applyTransformer_array_target_on_empty_array_witness :
  Target (Transformer (applied sort_transformer [])) = Tarray
  /\ applyTransformer (VArr []) (applied sort_transformer []) = ([], Ok (VArr [])).
Proof.
  split; [reflexivity |].
  exact (proj1 applyTransformer_array_target_on_empty_array
           (applied sort_transformer []) eq_refl).
Defined.

(** ** The chain evaluator *)

(** C10. With the empty string as input, [outputValue] is the empty string
    for every chain, and nothing is invoked and nothing is reported: the
    trace is empty. The chain is not run even when its first step would
    turn the empty string into something else, as [split] does. *)
Theorem outputValue_empty_input :
  (forall ts, outputValue "" ts = ([], Ok (VStr "")))
  /\ outcome (applyTransformer (VStr "") (applied split_transformer [","]))
     = Ok (strings [""])
  /\ outputValue "" [applied split_transformer [","]] = ([], Ok (VStr "")).
Proof. repeat split. Qed.

Lemma alerts_app tr tr' : alerts (tr ++ tr') = (alerts tr ++ alerts tr')%list.
Proof. apply flat_map_app. Qed.

Lemma array_map_no_alert {A B} (f : A -> M B) (l : list A) :
  Forall (fun x => alerts (trace (f x)) = []) l ->
  alerts (trace (array_map f l)) = [].
Proof.
  induction 1 as [| x l Hx _ IH]; simpl; [reflexivity |].
  destruct (f x) as [tr [y | e]]; simpl in *; [| exact Hx].
  destruct (array_map f l) as [tr' [ys | e]]; simpl in *;
    rewrite ?app_nil_r, alerts_app, Hx, IH; reflexivity.
Qed.

Lemma applyTransformer_no_alert t v : alerts (trace (applyTransformer v t)) = [].
Proof.
  assert (Hinv : forall w, alerts (trace (invoke w t)) = []).
  { intros w. unfold invoke, emit, lift, bind.
    destruct (Func (Transformer t) w (Arguments t)); reflexivity. }
  induction v as [s | l IH |] using Value_nested_ind.
  - rewrite applyTransformer_string. destruct (Target (Transformer t)); [apply Hinv | reflexivity].
  - assert (Hmap : alerts (trace (r <- array_map (fun vm => applyTransformer vm t) l ;;
                                  ret (VArr r))) = []).
    { pose proof (array_map_no_alert (fun vm => applyTransformer vm t) l IH) as Hm.
      destruct (array_map (fun vm => applyTransformer vm t) l) as [tr [r | e]];
        simpl in *; rewrite ?app_nil_r; exact Hm. }
    rewrite applyTransformer_array.
    destruct (Target (Transformer t)); [exact Hmap |].
    destruct ((0 <? length l)%nat && is_string (nth 0 l VUndefined)); [apply Hinv | exact Hmap].
  - reflexivity.
Qed.

(** One step of the chain: the new value when [applyTransformer] returns;
    the old value and one alert when it raises. *)
Lemma outputValue_step_spec v t :
  outputValue_step v t
  = match applyTransformer v t with
    | (tr, Ok v') => (tr, Ok v')
    | (tr, Err e) => ((tr ++ [Alert (alert_message t e)])%list, Ok v)
    end.
Proof.
  unfold outputValue_step, try_catch.
  destruct (applyTransformer v t) as [tr [v' | e]]; reflexivity.
Qed.

Lemma forEach_step_fold ts :
  forall v,
    outcome (forEach_step ts v) = Ok (fold_skipping_failures ts v)
    /\ alerts (trace (forEach_step ts v))
       = map (fun te => alert_message (fst te) (snd te)) (failures ts v).
Proof.
  induction ts as [| t ts IH]; intros v; simpl; [split; reflexivity |].
  rewrite outputValue_step_spec.
  pose proof (applyTransformer_no_alert t v) as Hna.
  destruct (applyTransformer v t) as [tr [v' | e]]; simpl in *.
  - destruct (IH v') as [Ho Ha].
    destruct (forEach_step ts v') as [tr' r]; simpl in *.
    rewrite alerts_app, Hna. split; assumption.
  - destruct (IH v) as [Ho Ha].
    destruct (forEach_step ts v) as [tr' r]; simpl in *.
    rewrite !alerts_app, Hna. simpl. split; [assumption | f_equal; assumption].
Qed.

Lemma fold_skipping_failures_app pre post v :
  fold_skipping_failures (pre ++ post) v
  = fold_skipping_failures post (fold_skipping_failures pre v).
Proof.
  revert v. induction pre as [| t pre IH]; intros v; simpl; [reflexivity |].
  destruct (outcome (applyTransformer v t)); apply IH.
Qed.

Lemma failures_app pre post v :
  failures (pre ++ post) v
  = (failures pre v ++ failures post (fold_skipping_failures pre v))%list.
Proof.
  revert v. induction pre as [| t pre IH]; intros v; simpl; [reflexivity |].
  destruct (outcome (applyTransformer v t)); simpl; rewrite IH; reflexivity.
Qed.

Lemma outputValue_nonempty InputValue ts :
  InputValue <> "" -> outputValue InputValue ts = forEach_step ts (VStr InputValue).
Proof.
  intros H. unfold outputValue. destruct InputValue; [contradiction | reflexivity].
Qed.

(** C3, as the code has it. For a non-empty input, [outputValue] is the
    left fold over the chain in which a step that raises is skipped: its
    exception is caught, one alert that names the transformer is raised for
    it, and the next step receives the value from before the step. The
    output is therefore the output of the chain without the failing
    invocation. *)
Theorem outputValue_fold_skips_failures :
  forall (InputValue : string) (ts : list PSTransformerWithArguments),
    InputValue <> "" ->
    outcome (outputValue InputValue ts)
    = Ok (fold_skipping_failures ts (VStr InputValue))
    /\ alerts (trace (outputValue InputValue ts))
       = map (fun te => "Failed to apply transformer " ++ Name (Transformer (fst te))
                        ++ ". Maybe it previous transformer is bugged - try to remove it."
                        ++ newline ++ newline ++ error_toString (snd te))
             (failures ts (VStr InputValue))
    /\ (forall pre t post e,
           ts = (pre ++ t :: post)%list ->
           outcome (applyTransformer (fold_skipping_failures pre (VStr InputValue)) t) = Err e ->
           outcome (outputValue InputValue ts) = outcome (outputValue InputValue (pre ++ post))
           /\ In (alert_message t e) (alerts (trace (outputValue InputValue ts)))).
Proof.
  intros InputValue ts Hne.
  rewrite (outputValue_nonempty _ ts Hne).
  destruct (forEach_step_fold ts (VStr InputValue)) as [Ho Ha].
  split; [exact Ho | split; [exact Ha |]].
  intros pre t post e -> Hf.
  rewrite (outputValue_nonempty _ (pre ++ post) Hne).
  split.
  - rewrite Ho. rewrite (proj1 (forEach_step_fold (pre ++ post) (VStr InputValue))).
    rewrite !fold_skipping_failures_app. simpl. rewrite Hf. reflexivity.
  - rewrite Ha, failures_app. simpl. rewrite Hf.
    change (alert_message t e)
      with ((fun te => alert_message (fst te) (snd te)) (t, e)).
    apply in_map. apply in_or_app. right. left. reflexivity.
Qed.

(** Step 2 of 3 raises: [join] cannot be applied to a string. The output
    is that of [trim] followed by [upper_case], and the alert names Join. *)
Lemma outputValue_fold_skips_failures_witness :
  " ab " <> ""
  /\ outcome (outputValue " ab " [applied trim_transformer []; applied join_transformer [","];
                                  applied upper_case_transformer []])
     = Ok (VStr "AB")
  /\ outcome (outputValue " ab " [applied trim_transformer []; applied join_transformer [","];
                                  applied upper_case_transformer []])
     = outcome (outputValue " ab " [applied trim_transformer []; applied upper_case_transformer []])
  /\ alerts (trace (outputValue " ab " [applied trim_transformer []; applied join_transformer [","];
                                        applied upper_case_transformer []]))
     = ["Failed to apply transformer Join. Maybe it previous transformer is bugged - try to remove it."
        ++ newline ++ newline
        ++ "Error: applyTransformer: a targeted array transformer cannot be applied on string"].
Proof.
  assert (Hne : " ab " <> "") by discriminate.
  pose proof (outputValue_fold_skips_failures " ab "
                [applied trim_transformer []; applied join_transformer [","];
                 applied upper_case_transformer []] Hne) as [Ho [Ha Hs]].
  split; [exact Hne |].
  split; [exact Ho |].
  split; [| exact Ha].
  exact (proj1 (Hs [applied trim_transformer []] (applied join_transformer [","])
                   [applied upper_case_transformer []] _ eq_refl eq_refl)).
Defined.

(** The claim C3 as the specification states it, for every initial value,
    fails on the empty input: the fold of [split] over the empty string is
    the array of one empty string, and [outputValue] is the empty string. *)
Lemma outputValue_is_not_the_fold_on_empty_input :
  outcome (outputValue "" [applied split_transformer [","]])
  <> Ok (fold_skipping_failures [applied split_transformer [","]] (VStr "")).
Proof. discriminate. Qed.

(** ** Sorting *)

Section StableSort.
(** A comparator that, on the values of a domain [P], compares keys of a
    strict total order. *)
Context {K : Type} (ltK : K -> K -> bool).
Hypothesis ltK_irrefl : forall a, ltK a a = false.
Hypothesis ltK_trans : forall a b c, ltK a b = true -> ltK b c = true -> ltK a c = true.
Hypothesis ltK_total : forall a b, ltK a b = false -> ltK b a = false -> a = b.

Variable cmp : Value -> Value -> Z.
Variable key : Value -> K.
Variable P : Value -> Prop.
Hypothesis cmp_key : forall x y, P x -> P y -> (0 <? cmp x y)%Z = ltK (key y) (key x).

Local Abbreviation kle := (key_le ltK key).
Local Abbreviation ksame := (same_key ltK key).

Lemma insert_sorted_perm x l : Permutation (insert_sorted cmp x l) (x :: l).
Proof.
  induction l as [| y l IH]; simpl; [apply Permutation_refl |].
  destruct (0 <? cmp x y)%Z; [| apply Permutation_refl].
  eapply perm_trans; [apply perm_skip, IH | apply perm_swap].
Qed.

Lemma stable_sort_perm l : Permutation (stable_sort cmp l) l.
Proof.
  induction l as [| x l IH]; simpl; [constructor |].
  eapply perm_trans; [apply insert_sorted_perm | apply perm_skip, IH].
Qed.

Lemma key_le_trans x y z : kle x y -> kle y z -> kle x z.
Proof.
  unfold key_le. intros Hxy Hyz.
  destruct (ltK (key z) (key x)) eqn:E; [| reflexivity].
  destruct (ltK (key y) (key z)) eqn:E1.
  - rewrite <- Hxy. symmetry. eapply ltK_trans; eassumption.
  - rewrite (ltK_total _ _ Hyz E1) in E. congruence.
Qed.

Lemma key_lt_le x y : ltK (key y) (key x) = true -> kle y x.
Proof.
  unfold key_le. intros H.
  destruct (ltK (key x) (key y)) eqn:E; [| reflexivity].
  rewrite <- (ltK_irrefl (key x)). symmetry. eapply ltK_trans; eassumption.
Qed.

Lemma insert_sorted_sorted x l :
  P x -> Forall P l ->
  StronglySorted kle l -> StronglySorted kle (insert_sorted cmp x l).
Proof.
  intros Px Pl Hs. induction Hs as [| y l Hs IH Hy]; simpl.
  - repeat constructor.
  - inversion Pl as [| ? ? Py Pl']; subst.
    rewrite (cmp_key x y Px Py).
    destruct (ltK (key y) (key x)) eqn:E.
    + constructor; [apply IH, Pl' |].
      eapply Permutation_Forall; [symmetry; apply insert_sorted_perm |].
      constructor; [apply key_lt_le, E | exact Hy].
    + constructor; [constructor; assumption |].
      constructor; [exact E |].
      eapply Forall_impl; [| exact Hy]. intros z Hz. eapply key_le_trans; eassumption.
Qed.

Lemma stable_sort_sorted l : Forall P l -> StronglySorted kle (stable_sort cmp l).
Proof.
  induction 1 as [| x l Px Pl IH]; simpl; [constructor |].
  apply insert_sorted_sorted; [exact Px | | exact IH].
  eapply Permutation_Forall; [symmetry; apply stable_sort_perm | exact Pl].
Qed.

Lemma insert_sorted_same_key k x l :
  P x -> Forall P l ->
  filter (ksame k) (insert_sorted cmp x l) = filter (ksame k) (x :: l).
Proof.
  intros Px Pl. induction Pl as [| y l Py Pl IH]; [reflexivity |].
  simpl insert_sorted. rewrite (cmp_key x y Px Py).
  destruct (ltK (key y) (key x)) eqn:E; [| reflexivity].
  change (filter (ksame k) (y :: insert_sorted cmp x l))
    with (if ksame k y then y :: filter (ksame k) (insert_sorted cmp x l)
          else filter (ksame k) (insert_sorted cmp x l)).
  rewrite IH. simpl.
  destruct (ksame k x) eqn:Ex; [| reflexivity].
  assert (Ey : ksame k y = false).
  { unfold same_key in *. apply andb_true_iff in Ex. destruct Ex as [E1 E2].
    apply negb_true_iff in E1, E2.
    rewrite (ltK_total _ _ E1 E2) in E. rewrite E. reflexivity. }
  rewrite Ey. reflexivity.
Qed.

(** Stability: the elements of one key come out in the order in which
    they went in. *)
Lemma stable_sort_stable k l :
  Forall P l -> filter (ksame k) (stable_sort cmp l) = filter (ksame k) l.
Proof.
  induction 1 as [| x l Px Pl IH]; [reflexivity |].
  simpl stable_sort. rewrite insert_sorted_same_key.
  - simpl. rewrite IH. reflexivity.
  - exact Px.
  - eapply Permutation_Forall; [symmetry; apply stable_sort_perm | exact Pl].
Qed.
End StableSort.

(** The order of strings by code units. *)
Lemma string_compare_refl s : String.compare s s = Eq.
Proof.
  induction s as [| c s IH]; simpl; [reflexivity |].
  unfold Ascii.compare. rewrite N.compare_refl. exact IH.
Qed.

Lemma string_compare_trans a :
  forall b c, String.compare a b = Lt -> String.compare b c = Lt -> String.compare a c = Lt.
Proof.
  induction a as [| x a IH]; intros [| y b] [| z c]; simpl; try congruence.
  destruct (Ascii.compare x y) eqn:Exy; try discriminate;
    destruct (Ascii.compare y z) eqn:Eyz; try discriminate; intros Hab Hbc.
  - apply Ascii.compare_eq_iff in Exy, Eyz. subst.
    unfold Ascii.compare. rewrite N.compare_refl. eapply IH; eassumption.
  - apply Ascii.compare_eq_iff in Exy. subst. rewrite Eyz. reflexivity.
  - apply Ascii.compare_eq_iff in Eyz. subst. rewrite Exy. reflexivity.
  - unfold Ascii.compare in *. rewrite N.compare_lt_iff in Exy, Eyz.
    assert (E : (N_of_ascii x ?= N_of_ascii z)%N = Lt) by (apply N.compare_lt_iff; lia).
    rewrite E. reflexivity.
Qed.

Lemma string_ltb_irrefl s : String.ltb s s = false.
Proof. unfold String.ltb. rewrite string_compare_refl. reflexivity. Qed.

Lemma string_ltb_trans a b c :
  String.ltb a b = true -> String.ltb b c = true -> String.ltb a c = true.
Proof.
  unfold String.ltb. intros Hab Hbc.
  destruct (String.compare a b) eqn:E1; try discriminate.
  destruct (String.compare b c) eqn:E2; try discriminate.
  rewrite (string_compare_trans _ _ _ E1 E2). reflexivity.
Qed.

Lemma string_ltb_total a b : String.ltb a b = false -> String.ltb b a = false -> a = b.
Proof.
  unfold String.ltb. rewrite (String.compare_antisym b a).
  destruct (String.compare a b) eqn:E; simpl; try discriminate.
  intros _ _. apply String.compare_eq_iff, E.
Qed.

Lemma compare_default_key x y :
  (0 <? compare_default x y)%Z = String.ltb (toString y) (toString x).
Proof.
  unfold compare_default.
  destruct (String.ltb (toString x) (toString y)) eqn:E1;
    destruct (String.ltb (toString y) (toString x)) eqn:E2; try reflexivity.
  pose proof (string_ltb_trans _ _ _ E1 E2) as H.
  rewrite string_ltb_irrefl in H. discriminate.
Qed.

Lemma round_to_53_bits_nonneg n : (0 <= n -> 0 <= round_to_53_bits n)%Z.
Proof.
  intros Hn. unfold round_to_53_bits.
  destruct (Z.log2 n + 1 <=? 53)%Z; [exact Hn |].
  apply Z.shiftl_nonneg.
  assert (0 <= Z.shiftr n (Z.log2 n + 1 - 53))%Z by (apply Z.shiftr_nonneg; exact Hn).
  destruct (_ || _); lia.
Qed.

Lemma number_of_Z_in_range z : in_range (number_of_Z z).
Proof.
  unfold number_of_Z.
  pose proof (round_to_53_bits_nonneg (Z.abs z) (Z.abs_nonneg z)) as Hr.
  destruct (Z.shiftl 1 1024 <=? round_to_53_bits (Z.abs z))%Z eqn:E.
  - destruct (z <? 0)%Z; exact I.
  - apply Z.leb_gt in E. unfold in_range.
    generalize dependent (Z.shiftl 1 1024). intros B E.
    destruct (z <? 0)%Z; lia.
Qed.

Lemma parseInt_in_range s : in_range (parseInt s).
Proof.
  unfold parseInt.
  destruct (match trimStart s with
            | String "-" r => (true, r)
            | String "+" r => (false, r)
            | _ => (false, trimStart s)
            end) as [negative body].
  destruct (negb (starts_with_digit body)); [exact I |].
  destruct (digits_value 0 body =? 0)%Z.
  - destruct negative; [exact I | simpl; reflexivity].
  - apply number_of_Z_in_range.
Qed.

Lemma number_ltb_rank a b :
  in_range a -> in_range b -> isNaN a = false -> isNaN b = false ->
  number_ltb a b = (rank a <? rank b)%Z.
Proof.
  assert (H0 : (0 < Z.shiftl 1 1024)%Z) by reflexivity.
  unfold in_range, rank.
  generalize dependent (Z.shiftl 1 1024). intros B H0.
  destruct a, b; cbn [number_ltb isNaN]; intros Ha Hb Na Nb;
    try discriminate; try reflexivity;
    symmetry;
    try (apply Z.ltb_lt; lia); try (apply Z.ltb_ge; lia).
Qed.

Lemma sort_body_run v :
  sort_body 0 [v]
  = (1%nat, [v; sort_elements (if isAllInt v then compare_numeric else compare_default) v]).
Proof.
  unfold sort_body, cloneDeep, every, array_sort, st_bind, st_ret, read, write, alloc.
  unfold isAllInt, number_of. simpl.
  destruct (forallb (fun x => negb (isNaN (parseInt (toString x)))) v); reflexivity.
Qed.

Lemma compare_numeric_key x y :
  isNaN (number_of x) = false -> isNaN (number_of y) = false ->
  (0 <? compare_numeric x y)%Z = (rank (number_of y) <? rank (number_of x))%Z.
Proof.
  intros Hx Hy. unfold compare_numeric. fold (number_of x) (number_of y).
  rewrite !number_ltb_rank by (try apply parseInt_in_range; assumption).
  destruct (rank (number_of x) <? rank (number_of y))%Z eqn:E1;
    destruct (rank (number_of y) <? rank (number_of x))%Z eqn:E2; try reflexivity.
  apply Z.ltb_lt in E1, E2. lia.
Qed.

Lemma Z_ltb_total a b : (a <? b)%Z = false -> (b <? a)%Z = false -> a = b.
Proof. intros H1 H2. apply Z.ltb_ge in H1, H2. lia. Qed.

Lemma Z_ltb_trans a b c : (a <? b)%Z = true -> (b <? c)%Z = true -> (a <? c)%Z = true.
Proof. intros H1 H2. apply Z.ltb_lt in H1, H2. apply Z.ltb_lt. lia. Qed.

Lemma isAllInt_Forall v :
  isAllInt v = true <-> Forall (fun x => isNaN (number_of x) = false) v.
Proof.
  unfold isAllInt. rewrite forallb_forall, Forall_forall.
  split; intros H x Hx; specialize (H x Hx); destruct (isNaN (number_of x)); auto; discriminate.
Qed.

Lemma numbers_are_defined v :
  Forall (fun x => isNaN (number_of x) = false) v ->
  filter (fun x => negb (is_undefined x)) v = v /\ filter is_undefined v = [].
Proof.
  induction 1 as [| x v Hx _ [IH1 IH2]]; simpl; [split; reflexivity |].
  destruct x; simpl in *; try discriminate; rewrite IH1, IH2; split; reflexivity.
Qed.

Lemma StronglySorted_on {A} (P : A -> Prop) (R R' : A -> A -> Prop) l :
  (forall x y, P x -> P y -> R x y -> R' x y) ->
  Forall P l -> StronglySorted R l -> StronglySorted R' l.
Proof.
  intros HR HP Hs. induction Hs as [| x l Hs IH Hx]; [constructor |].
  inversion HP as [| ? ? Px Pl]; subst.
  constructor; [apply IH, Pl |].
  rewrite Forall_forall in *. intros y Hy. apply HR; auto.
Qed.

Lemma filter_partition_perm {A} (p : A -> bool) (l : list A) :
  Permutation (filter (fun x => negb (p x)) l ++ filter p l) l.
Proof.
  induction l as [| x l IH]; simpl; [constructor |].
  destruct (p x); simpl.
  - eapply perm_trans; [symmetry; apply Permutation_middle | apply perm_skip, IH].
  - apply perm_skip, IH.
Qed.

Lemma sort_elements_perm cmp v : Permutation (sort_elements cmp v) v.
Proof.
  unfold sort_elements.
  eapply perm_trans; [| apply (filter_partition_perm is_undefined)].
  apply Permutation_app_tail, stable_sort_perm.
Qed.

(** C6. [sort] leaves the array it receives as it is and returns a new
    array, a permutation of it. When every element reads as a number, the
    new array is in ascending order of these numbers and the elements of
    one number are in their original order. Otherwise the elements other
    than [undefined] come first, in the order of their texts by code units,
    and the [undefined] ones last. *)
Theorem sort_Func_sorts_a_copy :
  (forall v : list Value,
      let result := run_on_array sort_body v in
      sort_body 0 [v] = (1%nat, [v; result])
      /\ (forall args, sort_Func (VArr v) args = Ok (VArr result))
      /\ Permutation result v
      /\ (isAllInt v = true ->
          StronglySorted number_le result
          /\ forall a, In a v ->
               filter (fun x => same_number (number_of x) (number_of a)) result
               = filter (fun x => same_number (number_of x) (number_of a)) v)
      /\ (isAllInt v = false ->
          exists sorted,
            result = (sorted ++ filter is_undefined v)%list
            /\ Permutation sorted (filter (fun x => negb (is_undefined x)) v)
            /\ StronglySorted text_le sorted))
  /\ sort_Func (strings ["10"; "2"; "1"]) [] = Ok (strings ["1"; "2"; "10"])
  /\ sort_Func (strings ["b"; "a"; "10"]) [] = Ok (strings ["10"; "a"; "b"]).
Proof.
  split; [| split; reflexivity].
  intros v result.
  assert (Hres : result = sort_elements (if isAllInt v then compare_numeric else compare_default) v).
  { unfold result, run_on_array. rewrite sort_body_run. reflexivity. }
  split; [rewrite sort_body_run, Hres; reflexivity |].
  split; [intros args; reflexivity |].
  split; [rewrite Hres; apply sort_elements_perm |].
  split; intros Hall; rewrite Hall in Hres.
  - apply isAllInt_Forall in Hall.
    destruct (numbers_are_defined v Hall) as [Hd Hu].
    assert (Hs : result = stable_sort compare_numeric v).
    { rewrite Hres. unfold sort_elements. rewrite Hd, Hu, app_nil_r. reflexivity. }
    pose proof (stable_sort_perm compare_numeric v) as Hperm.
    assert (Hall' : Forall (fun x => isNaN (number_of x) = false) (stable_sort compare_numeric v)).
    { eapply Permutation_Forall; [symmetry; exact Hperm | exact Hall]. }
    rewrite Hs. split.
    + apply (StronglySorted_on (fun x => isNaN (number_of x) = false)
               (key_le Z.ltb (fun x => rank (number_of x)))); [| exact Hall' |].
      * intros x y Hx Hy. unfold key_le, number_le.
        rewrite (number_ltb_rank (number_of y) (number_of x))
          by (try apply parseInt_in_range; assumption).
        auto.
      * apply (stable_sort_sorted Z.ltb Z.ltb_irrefl Z_ltb_trans Z_ltb_total
                 compare_numeric (fun x => rank (number_of x))
                 (fun x => isNaN (number_of x) = false)); [| exact Hall].
        intros x y Hx Hy. apply compare_numeric_key; assumption.
    + intros a Ha.
      assert (Pa : isNaN (number_of a) = false).
      { rewrite Forall_forall in Hall. apply Hall, Ha. }
      assert (Hconv : forall l, Forall (fun x => isNaN (number_of x) = false) l ->
                filter (fun x => same_number (number_of x) (number_of a)) l
                = filter (same_key Z.ltb (fun x => rank (number_of x)) (rank (number_of a))) l).
      { intros l Hl. apply filter_ext_in. intros x Hx.
        rewrite Forall_forall in Hl. specialize (Hl x Hx).
        unfold same_number, same_key.
        rewrite !number_ltb_rank by (try apply parseInt_in_range; assumption).
        reflexivity. }
      rewrite (Hconv _ Hall'), (Hconv _ Hall).
      apply (stable_sort_stable Z.ltb Z_ltb_total compare_numeric
               (fun x => rank (number_of x)) (fun x => isNaN (number_of x) = false)); [| exact Hall].
      intros x y Hx Hy. apply compare_numeric_key; assumption.
  - exists (stable_sort compare_default (filter (fun x => negb (is_undefined x)) v)).
    split; [exact Hres |].
    split; [apply stable_sort_perm |].
    apply (stable_sort_sorted String.ltb string_ltb_irrefl string_ltb_trans string_ltb_total
             compare_default toString (fun _ => True)).
    + intros x y _ _. apply compare_default_key.
    + apply Forall_forall. intros; exact I.
Qed.

Lemma sort_Func_sorts_a_copy_witness :
  isAllInt (map VStr ["10"; "2"; "1"]) = true
  /\ StronglySorted number_le (run_on_array sort_body (map VStr ["10"; "2"; "1"]))
  /\ sort_body 0 [map VStr ["10"; "2"; "1"]]
     = (1%nat, [map VStr ["10"; "2"; "1"]; map VStr ["1"; "2"; "10"]]).
Proof.
  pose proof (proj1 sort_Func_sorts_a_copy (map VStr ["10"; "2"; "1"])) as [Hrun [_ [_ [Hnum _]]]].
  split; [reflexivity |].
  split; [exact (proj1 (Hnum eq_refl)) | exact Hrun].
Defined.

(** ** Index selection: [slice_array] *)

Lemma relative_index_le n len : relative_index n len <= len.
Proof. destruct n as [| | z | |]; simpl; try lia. destruct (Z.ltb_spec z 0); lia. Qed.

(** [slice] is the half-open interval between the clamped bounds. *)
Lemma array_slice_spec {A} (l : list A) (s e : Number) :
  let k := relative_index s (length l) in
  let final := relative_index e (length l) in
  length (array_slice l s e) = final - k
  /\ forall i, i < final - k -> nth_error (array_slice l s e) i = nth_error l (k + i).
Proof.
  intros k final. unfold array_slice. fold k final.
  pose proof (relative_index_le s (length l)) as Hk.
  pose proof (relative_index_le e (length l)) as Hf.
  fold k in Hk. fold final in Hf.
  split.
  - rewrite length_firstn, length_skipn. lia.
  - intros i Hi. rewrite nth_error_firstn, nth_error_skipn.
    destruct (Nat.ltb_spec i (final - k)); [reflexivity | lia].
Qed.

Lemma slice_array_Func_run v indexes :
  slice_array_Func (VArr v) [indexes]
  = Ok (VArr (nth (fst (slice_array_body indexes 0 [v]))
                  (snd (slice_array_body indexes 0 [v])) [])).
Proof.
  unfold slice_array_Func, run_on_array. simpl.
  destruct (slice_array_body indexes 0 [v]); reflexivity.
Qed.

(** C7. [slice_array] never raises on an array and a text. When the
    normalized text contains a dash and the dash splits it into exactly two
    parts, it returns a new array, the slice of [v] between the two parsed
    bounds: the elements at the positions from the clamped start up to, and
    not including, the clamped end. When the parts are not two, it returns
    [v] itself. *)
Theorem slice_array_range_mode :
  (forall (v : list Value) (indexes : string),
      (exists r, slice_array_Func (VArr v) [indexes] = Ok (VArr r))
      /\ (includes "-" (normalized_text indexes) = true ->
          match split_string "-" (normalized_text indexes) with
          | [a; b] =>
              let k := relative_index (parseInt a) (length v) in
              let final := relative_index (parseInt b) (length v) in
              slice_array_body indexes 0 [v]
              = (1%nat, [v; array_slice v (parseInt a) (parseInt b)])
              /\ slice_array_Func (VArr v) [indexes]
                 = Ok (VArr (array_slice v (parseInt a) (parseInt b)))
              /\ length (array_slice v (parseInt a) (parseInt b)) = final - k
              /\ (forall i, i < final - k ->
                    nth_error (array_slice v (parseInt a) (parseInt b)) i
                    = nth_error v (k + i))
          | _ =>
              slice_array_body indexes 0 [v] = (0%nat, [v])
              /\ slice_array_Func (VArr v) [indexes] = Ok (VArr v)
          end))
  /\ (forall v, slice_array_Func (VArr v) [""] = Ok (VArr v))
  /\ (forall v, slice_array_Func (VArr v) ["abc"] = Ok (VArr v))
  /\ (forall v, slice_array_Func (VArr v) ["1-2-3"] = Ok (VArr v))
  /\ slice_array_Func (strings ["a"; "b"; "c"; "d"]) ["0-2"] = Ok (strings ["a"; "b"]).
Proof.
  split; [| repeat split].
  intros v indexes. split.
  - rewrite slice_array_Func_run. eexists. reflexivity.
  - intros Hdash. rewrite slice_array_Func_run.
    unfold slice_array_body. fold (normalized_text indexes). rewrite Hdash.
    destruct (split_string "-" (normalized_text indexes)) as [| a [| b [| c l]]];
      try (split; reflexivity).
    simpl. pose proof (array_slice_spec v (parseInt a) (parseInt b)) as [Hl Hn].
    repeat split; assumption.
Qed.

Lemma slice_array_range_mode_witness :
  includes "-" (normalized_text "1 - 3") = true
  /\ slice_array_body "1 - 3" 0 [map VStr ["a"; "b"; "c"; "d"]]
     = (1%nat, [map VStr ["a"; "b"; "c"; "d"]; map VStr ["b"; "c"]]).
Proof.
  split; [reflexivity |].
  exact (proj1 (proj2 (proj1 slice_array_range_mode (map VStr ["a"; "b"; "c"; "d"]) "1 - 3")
                  eq_refl)).
Defined.

Lemma get_at_in_range (v : list Value) (i : nat) (x : Value) :
  nth_error v i = Some x -> get_at v (Int (Z.of_nat i)) = x.
Proof.
  intros H. unfold get_at.
  destruct (Z.leb_spec 0 (Z.of_nat i)); [| lia].
  rewrite Nat2Z.id. apply nth_error_nth, H.
Qed.

Lemma get_at_out_of_range (v : list Value) (z : Z) :
  (z < 0 \/ Z.of_nat (length v) <= z)%Z -> get_at v (Int z) = VUndefined.
Proof.
  intros H. unfold get_at.
  destruct (Z.leb_spec 0 z); [| reflexivity].
  apply nth_overflow. lia.
Qed.

(** C1, as the code has it. Without a dash in the normalized text,
    [slice_array] copies the array and calls [pullAt] on the copy, and it
    returns what [pullAt] returns: the pulled elements, one for each listed
    index in the order of the list, [undefined] for an index that is not a
    position of the array. The elements that remain are in the copy, which
    is dropped. The array received is never changed. With a single index
    that does not read as a number, the array received is returned. *)
Theorem slice_array_list_mode_returns_pulled :
  (forall (v : list Value) (indexes : string),
      includes "-" (normalized_text indexes) = false ->
      (includes "," (normalized_text indexes) = true ->
       let idx := map parseInt (split_string "," (normalized_text indexes)) in
       slice_array_body indexes 0 [v]
       = (2%nat, [v; remove_positions (pulled_position idx) 0 v; map (get_at v) idx])
       /\ slice_array_Func (VArr v) [indexes] = Ok (VArr (map (get_at v) idx)))
      /\ (includes "," (normalized_text indexes) = false ->
          let idx := parseInt (normalized_text indexes) in
          if isNaN idx then
            slice_array_body indexes 0 [v] = (0%nat, [v])
            /\ slice_array_Func (VArr v) [indexes] = Ok (VArr v)
          else
            slice_array_body indexes 0 [v]
            = (2%nat, [v; remove_positions (pulled_position [idx]) 0 v; [get_at v idx]])
            /\ slice_array_Func (VArr v) [indexes] = Ok (VArr [get_at v idx])))
  /\ (forall (v : list Value) (i : nat) (x : Value),
         nth_error v i = Some x -> get_at v (Int (Z.of_nat i)) = x)
  /\ (forall (v : list Value) (z : Z),
         (z < 0 \/ Z.of_nat (length v) <= z)%Z -> get_at v (Int z) = VUndefined)
  /\ slice_array_body "1,3" 0 [map VStr ["a"; "b"; "c"; "d"]]
     = (2%nat, [map VStr ["a"; "b"; "c"; "d"]; map VStr ["a"; "c"]; map VStr ["b"; "d"]])
  /\ slice_array_Func (strings ["a"; "b"; "c"; "d"]) ["1,3"] = Ok (strings ["b"; "d"])
  /\ slice_array_Func (strings ["a"; "b"; "c"; "d"]) ["2"] = Ok (strings ["c"]).
Proof.
  split; [| split; [exact get_at_in_range | split; [exact get_at_out_of_range | repeat split]]].
  intros v indexes Hdash. split; intros Hcomma.
  - intros idx. rewrite slice_array_Func_run.
    unfold slice_array_body. fold (normalized_text indexes). rewrite Hdash, Hcomma.
    split; reflexivity.
  - intros idx. rewrite slice_array_Func_run.
    unfold slice_array_body. fold (normalized_text indexes). rewrite Hdash, Hcomma.
    fold idx. destruct (isNaN idx); split; reflexivity.
Qed.

Lemma slice_array_list_mode_returns_pulled_witness :
  includes "-" (normalized_text "0, 2,9") = false
  /\ includes "," (normalized_text "0, 2,9") = true
  /\ slice_array_Func (VArr (map VStr ["a"; "b"; "c"; "d"])) ["0, 2,9"]
     = Ok (VArr [VStr "a"; VStr "c"; VUndefined]).
Proof.
  split; [reflexivity | split; [reflexivity |]].
  exact (proj2 (proj1 (proj1 slice_array_list_mode_returns_pulled
                         (map VStr ["a"; "b"; "c"; "d"]) "0, 2,9" eq_refl) eq_refl)).
Defined.

(** The claim C1 as the specification states it fails on its own example:
    for "1,3" on a, b, c, d the result is not the remaining a, c. *)
Lemma slice_array_does_not_return_the_remaining_elements :
  slice_array_Func (strings ["a"; "b"; "c"; "d"]) ["1,3"] <> Ok (strings ["a"; "c"]).
Proof. discriminate. Qed.

(** ** Wildcard patterns *)

Lemma substring_full s : substring 0 (String.length s) s = s.
Proof. induction s as [| c s IH]; simpl; [reflexivity | rewrite IH; reflexivity]. Qed.

Lemma drop_app p x : drop (String.length p) (p ++ x) = x.
Proof.
  unfold drop. induction p as [| c p IH]; simpl.
  - rewrite Nat.sub_0_r. apply substring_full.
  - exact IH.
Qed.

Lemma prefix_app p x : prefix p (p ++ x) = true.
Proof.
  induction p as [| c p IH]; simpl; [destruct x; reflexivity |].
  destruct (ascii_dec c c); [exact IH | contradiction].
Qed.

Lemma prefix_split p s : prefix p s = true -> exists r, s = p ++ r.
Proof.
  revert s. induction p as [| c p IH]; intros s.
  - exists s. reflexivity.
  - destruct s as [| d s]; simpl; [discriminate |].
    destruct (ascii_dec c d); [| discriminate]. subst. intros H.
    destruct (IH s H) as [r ->]. exists r. reflexivity.
Qed.

Lemma prefix_head_neq a p b s : a <> b -> prefix (String a p) (String b s) = false.
Proof. intros H. simpl. destruct (ascii_dec a b); [contradiction | reflexivity]. Qed.

Lemma length_append a b : String.length (a ++ b) = String.length a + String.length b.
Proof. induction a as [| c a IH]; simpl; [reflexivity | rewrite IH; reflexivity]. Qed.

(** Escaping does not create or destroy an occurrence of a text without
    syntax characters at the front. *)
Lemma prefix_escape p :
  (forall c, In c (list_ascii_of_string p) -> is_syntax_char c = false) ->
  forall s, prefix p (escape_regex_chars s) = prefix p s.
Proof.
  induction p as [| a p IH]; intros Hp s.
  - destruct s as [| c s]; simpl; [reflexivity |]. destruct (is_syntax_char c); reflexivity.
  - assert (Ha : is_syntax_char a = false) by (apply Hp; left; reflexivity).
    destruct s as [| c s]; [reflexivity |].
    simpl escape_regex_chars. destruct (is_syntax_char c) eqn:Ec.
    + rewrite (prefix_head_neq a p "\"%char) by (intros E; subst; discriminate).
      rewrite (prefix_head_neq a p c) by (intros E; subst; congruence).
      reflexivity.
    + simpl. destruct (ascii_dec a c); [| reflexivity].
      apply IH. intros d Hd. apply Hp. right. exact Hd.
Qed.

Lemma token_has_no_syntax_char :
  forall c, In c (list_ascii_of_string "%w%") -> is_syntax_char c = false.
Proof. intros c [<- | [<- | [<- | []]]]; reflexivity. Qed.

Lemma syntax_char_not_percent c s : is_syntax_char c = true -> prefix "%w%" (String c s) = false.
Proof. intros H. apply prefix_head_neq. intros <-. discriminate. Qed.

Lemma replaceAll_from_match fuel search template before s :
  prefix search s = true -> String.length search <> 0 ->
  replaceAll_from (S fuel) search template before s
  = substitution search before (drop (String.length search) s) [] template
    ++ replaceAll_from fuel search template (before ++ search) (drop (String.length search) s).
Proof.
  intros Hp Hl. cbn [replaceAll_from]. rewrite Hp.
  destruct (String.length search); [contradiction | reflexivity].
Qed.

Lemma replaceAll_from_pass fuel search template before c s :
  prefix search (String c s) = false ->
  replaceAll_from (S fuel) search template before (String c s)
  = String c (replaceAll_from fuel search template (before ++ String c "") s).
Proof. intros Hp. cbn [replaceAll_from]. rewrite Hp. reflexivity. Qed.

Lemma wildcard_token w r :
  wildcard_pattern w 0 ("%w%" ++ r) = w :: wildcard_pattern w 0 r.
Proof.
  change ("%w%" ++ r) with (String "%" (String "w" (String "%" r))).
  cbn [wildcard_pattern].
  change (String "%" (String "w" (String "%" r))) with ("%w%" ++ r).
  rewrite prefix_app. destruct r; reflexivity.
Qed.

Lemma pattern_source_token text r :
  pattern_source text 0 ("%w%" ++ r) = text ++ pattern_source text 0 r.
Proof.
  change ("%w%" ++ r) with (String "%" (String "w" (String "%" r))).
  cbn [pattern_source].
  change (String "%" (String "w" (String "%" r))) with ("%w%" ++ r).
  rewrite prefix_app. destruct r; reflexivity.
Qed.

(** The text after escaping and after the replacement of the tokens. The
    replacement text is given by its substitution, which must not depend
    on the context of the match. *)
Lemma replaceAll_escaped text :
  (forall before after, substitution "%w%" before after [] text = text) ->
  forall n raw, String.length raw <= n ->
  forall fuel before,
    String.length (escape_regex_chars raw) <= fuel ->
    replaceAll_from fuel "%w%" text before (escape_regex_chars raw)
    = pattern_source text 0 raw.
Proof.
  intros Hsub. induction n as [| n IH]; intros raw Hn fuel before Hf.
  - destruct raw; [| simpl in Hn; lia]. destruct fuel; reflexivity.
  - destruct (prefix "%w%" raw) eqn:Ep.
    + destruct (prefix_split _ _ Ep) as [r ->].
      rewrite pattern_source_token.
      change (escape_regex_chars ("%w%" ++ r)) with ("%w%" ++ escape_regex_chars r) in *.
      rewrite length_append in Hf, Hn.
      destruct fuel as [| fuel]; [simpl in Hf; lia |].
      rewrite replaceAll_from_match; [| apply prefix_app | discriminate].
      rewrite drop_app, Hsub. f_equal.
      apply IH; simpl in *; lia.
    + destruct raw as [| c r]; [destruct fuel; reflexivity |].
      assert (Ep' : prefix "%w%" (escape_regex_chars (String c r)) = false).
      { rewrite (prefix_escape _ token_has_no_syntax_char). exact Ep. }
      cbn [pattern_source]. rewrite Ep.
      cbn [escape_regex_chars] in *.
      destruct (is_syntax_char c) eqn:Ec.
      * destruct fuel as [| [| fuel]]; try (simpl in Hf; lia).
        rewrite (replaceAll_from_pass _ _ _ _ _ _ Ep').
        rewrite (replaceAll_from_pass _ _ _ _ _ _ (syntax_char_not_percent c _ Ec)).
        do 2 f_equal. apply IH; simpl in *; lia.
      * destruct fuel as [| fuel]; [simpl in Hf; lia |].
        rewrite (replaceAll_from_pass _ _ _ _ _ _ Ep').
        f_equal. apply IH; simpl in *; lia.
Qed.

Lemma parse_pattern_lazy fuel x :
  parse_pattern (S fuel) (lazy_text ++ x) = option_map (cons LazyAny) (parse_pattern fuel x).
Proof.
  cbn [parse_pattern]. rewrite prefix_app.
  change 5 with (String.length lazy_text). rewrite drop_app. reflexivity.
Qed.

Lemma parse_pattern_greedy fuel x :
  parse_pattern (S fuel) (greedy_text ++ x)
  = option_map (cons GreedyGroup) (parse_pattern fuel x).
Proof.
  cbn [parse_pattern].
  assert (E : prefix lazy_text (greedy_text ++ x) = false) by reflexivity.
  rewrite E, prefix_app.
  change 6 with (String.length greedy_text). rewrite drop_app. reflexivity.
Qed.

Lemma parse_pattern_escaped fuel c x :
  is_syntax_char c = true ->
  parse_pattern (S fuel) (String "\" (String c x))
  = option_map (cons (Char c)) (parse_pattern fuel x).
Proof.
  intros Hc. cbn [parse_pattern].
  assert (E1 : prefix lazy_text (String "\" (String c x)) = false) by reflexivity.
  assert (E2 : prefix greedy_text (String "\" (String c x)) = false) by reflexivity.
  rewrite E1, E2. simpl Ascii.eqb. cbv iota. rewrite Hc. reflexivity.
Qed.

Lemma parse_pattern_plain fuel c x :
  is_syntax_char c = false ->
  parse_pattern (S fuel) (String c x)
  = option_map (cons (Char c)) (parse_pattern fuel x).
Proof.
  intros Hc. cbn [parse_pattern].
  assert (E1 : prefix lazy_text (String c x) = false).
  { apply (prefix_head_neq "[" _ c). intros E; subst; discriminate. }
  rewrite E1.
  assert (E2 : prefix greedy_text (String c x) = false).
  { apply (prefix_head_neq "(" _ c). intros E; subst; discriminate. }
  rewrite E2.
  destruct (Ascii.eqb_spec c "\") as [-> | _]; [discriminate |].
  rewrite Hc. reflexivity.
Qed.

(** The pattern that [new RegExp] reads in the source text built for a raw
    text is the pattern of the specification. *)
Lemma parse_pattern_source text w :
  String.length text <> 0 ->
  (forall fuel x, parse_pattern (S fuel) (text ++ x)
                  = option_map (cons w) (parse_pattern fuel x)) ->
  forall n raw, String.length raw <= n ->
  forall fuel,
    String.length (pattern_source text 0 raw) <= fuel ->
    parse_pattern fuel (pattern_source text 0 raw) = Some (wildcard_pattern w 0 raw).
Proof.
  intros Hlen Htext. induction n as [| n IH]; intros raw Hn fuel Hf.
  - destruct raw; [| simpl in Hn; lia]. destruct fuel; reflexivity.
  - destruct (prefix "%w%" raw) eqn:Ep.
    + destruct (prefix_split _ _ Ep) as [r ->].
      rewrite pattern_source_token, wildcard_token in *.
      rewrite length_append in Hf, Hn.
      destruct fuel as [| fuel]; [lia |].
      rewrite Htext, IH; [reflexivity | simpl in Hn; lia | lia].
    + destruct raw as [| c r]; [destruct fuel; reflexivity |].
      cbn [pattern_source wildcard_pattern] in *. rewrite Ep in *.
      destruct (is_syntax_char c) eqn:Ec.
      * destruct fuel as [| fuel]; [simpl in Hf; lia |].
        rewrite (parse_pattern_escaped _ _ _ Ec), IH; [reflexivity | | ]; simpl in *; lia.
      * destruct fuel as [| fuel]; [simpl in Hf; lia |].
        rewrite (parse_pattern_plain _ _ _ Ec), IH; [reflexivity | | ]; simpl in *; lia.
Qed.

Lemma new_RegExp_of_wildcards text w raw :
  String.length text <> 0 ->
  (forall before after, substitution "%w%" before after [] text = text) ->
  (forall fuel x, parse_pattern (S fuel) (text ++ x)
                  = option_map (cons w) (parse_pattern fuel x)) ->
  new_RegExp (replaceAll "%w%" text (escape_regex_chars raw)) = Some (wildcard_pattern w 0 raw).
Proof.
  intros Hlen Hsub Htext. unfold new_RegExp, replaceAll.
  rewrite (replaceAll_escaped text Hsub (String.length raw) raw (le_n _)) by lia.
  apply (parse_pattern_source text w Hlen Htext (String.length raw) raw (le_n _)), le_n.
Qed.

Lemma split_pattern_compiles sep :
  new_RegExp (replaceAll "%w%" lazy_text (escape_regex_chars sep))
  = Some (wildcard_pattern LazyAny 0 sep).
Proof.
  apply new_RegExp_of_wildcards; [discriminate | reflexivity | apply parse_pattern_lazy].
Qed.

Lemma replace_pattern_compiles pattern :
  new_RegExp (replaceAll "%w%" greedy_text (escape_regex_chars pattern))
  = Some (wildcard_pattern GreedyGroup 0 pattern).
Proof.
  apply new_RegExp_of_wildcards; [discriminate | reflexivity | apply parse_pattern_greedy].
Qed.

Lemma match_here_lazy p s :
  match_here (LazyAny :: p) s
  = match match_here p s with
    | Some r => Some r
    | None =>
        match s with
        | String _ s' =>
            option_map (fun r => (fst r, S (snd r))) (match_here (LazyAny :: p) s')
        | EmptyString => None
        end
    end.
Proof. destruct s; reflexivity. Qed.

Lemma wildcard_pattern_lazy_only raw :
  forall skip, lazy_only (wildcard_pattern LazyAny skip raw) = true.
Proof.
  induction raw as [| c r IH]; intros skip; [reflexivity |].
  cbn [wildcard_pattern]. destruct skip; [| apply IH].
  destruct (prefix "%w%" (String c r)); simpl; apply IH.
Qed.

(** The matcher finds only matches, and without a group it captures
    nothing. *)
Lemma match_here_sound p :
  lazy_only p = true ->
  forall s caps n, match_here p s = Some (caps, n) -> caps = [] /\ matches p s n.
Proof.
  induction p as [| t p IH]; intros Hp s caps n H.
  - inversion H; subst. split; [reflexivity | constructor].
  - destruct t; simpl in Hp; try discriminate.
    + destruct s as [| d s]; simpl in H; [discriminate |].
      destruct (Ascii.eqb_spec c d) as [-> | _]; [| discriminate].
      destruct (match_here p s) as [[caps' n'] |] eqn:E; [| discriminate].
      inversion H; subst. destruct (IH Hp _ _ _ E) as [-> Hm].
      split; [reflexivity | constructor; exact Hm].
    + revert caps n H. induction s as [| d s IHs]; intros caps n H;
        rewrite match_here_lazy in H;
        destruct (match_here p _) as [[caps' n'] |] eqn:E.
      * inversion H; subst. destruct (IH Hp _ _ _ E) as [-> Hm].
        split; [reflexivity | apply matches_wild_stop, Hm].
      * discriminate.
      * inversion H; subst. destruct (IH Hp _ _ _ E) as [-> Hm].
        split; [reflexivity | apply matches_wild_stop, Hm].
      * destruct (match_here (LazyAny :: p) s) as [[caps' n'] |]; [| discriminate].
        inversion H; subst. destruct (IHs _ _ eq_refl) as [-> Hm].
        split; [reflexivity | apply matches_wild_more, Hm].
Qed.

(** Where there is a match the matcher finds one. *)
Lemma match_here_complete p s n : matches p s n -> match_here p s <> None.
Proof.
  induction 1 as [s | c p s n _ IH | p s n _ IH | p c s n _ IH].
  - discriminate.
  - simpl. rewrite Ascii.eqb_refl. destruct (match_here p s); [discriminate | contradiction].
  - rewrite match_here_lazy. destruct (match_here p s); [discriminate | contradiction].
  - rewrite match_here_lazy. destruct (match_here p (String c s)); [discriminate |].
    destruct (match_here (LazyAny :: p) s); [discriminate | contradiction].
Qed.

Lemma matches_wild_char b q s m :
  matches (LazyAny :: Char b :: q) s m -> matches (LazyAny :: q) s m.
Proof.
  remember (LazyAny :: Char b :: q) as p eqn:Ep.
  induction 1 as [s | c p s n _ _ | p s n H _ | p c s n _ IH]; try discriminate.
  - inversion Ep; subst. inversion H; subst.
    apply matches_wild_more, matches_wild_stop. assumption.
  - inversion Ep; subst. apply matches_wild_more, IH. reflexivity.
Qed.

Lemma matches_wild_wild q s m :
  matches (LazyAny :: LazyAny :: q) s m -> matches (LazyAny :: q) s m.
Proof.
  remember (LazyAny :: LazyAny :: q) as p eqn:Ep.
  induction 1 as [s | c p s n _ _ | p s n H _ | p c s n _ IH]; try discriminate.
  - inversion Ep; subst. exact H.
  - inversion Ep; subst. apply matches_wild_more, IH. reflexivity.
Qed.

Lemma matches_wild_shift q u :
  forall t m, matches (LazyAny :: q) t m ->
              matches (LazyAny :: q) (u ++ t) (String.length u + m).
Proof.
  induction u as [| c u IH]; intros t m H; simpl; [exact H |].
  apply matches_wild_more, IH, H.
Qed.

(** The match that the matcher finds for a pattern of characters and lazy
    wildcards ends no later than any match of the pattern, even one that
    starts further in the string after a wildcard. *)
Lemma match_here_earliest p :
  lazy_only p = true ->
  forall u t caps n,
    match_here p (u ++ t) = Some (caps, n) ->
    forall m, matches (LazyAny :: p) t m -> n <= String.length u + m.
Proof.
  induction p as [| x p IH]; intros Hp u t caps n H m Hm.
  - inversion H; subst. lia.
  - destruct x; simpl in Hp; try discriminate.
    + (* a character *)
      destruct u as [| d u].
      * simpl in H. destruct t as [| d t]; [discriminate |]. simpl in H.
        destruct (Ascii.eqb_spec c d) as [-> | _]; [| discriminate].
        destruct (match_here p t) as [[caps' n'] |] eqn:E; [| discriminate].
        inversion H; subst. simpl.
        inversion Hm as [| | ? ? ? Hs | ? ? ? ? Hmore]; subst.
        -- inversion Hs as [| ? ? ? ? Hq | |]; subst.
           pose proof (IH Hp EmptyString t _ _ E _ (matches_wild_stop _ _ _ Hq)).
           simpl in *. lia.
        -- pose proof (IH Hp EmptyString t _ _ E _ (matches_wild_char _ _ _ _ Hmore)).
           simpl in *. lia.
      * simpl in H.
        destruct (Ascii.eqb_spec c d) as [-> | _]; [| discriminate].
        destruct (match_here p (u ++ t)) as [[caps' n'] |] eqn:E; [| discriminate].
        inversion H; subst.
        pose proof (IH Hp u t _ _ E _ (matches_wild_char _ _ _ _ Hm)). simpl. lia.
    + (* a wildcard *)
      pose proof (matches_wild_shift p u t m (matches_wild_wild _ _ _ Hm)) as Hs.
      clear Hm. revert caps n H Hs.
      generalize (String.length u + m). generalize (u ++ t). clear u t m.
      induction s as [| d s IHs]; intros k caps n H Hk;
        rewrite match_here_lazy in H;
        destruct (match_here p _) as [[caps' n'] |] eqn:E.
      * inversion H; subst.
        pose proof (IH Hp EmptyString _ _ _ E _ Hk). simpl in *. lia.
      * discriminate.
      * inversion H; subst.
        pose proof (IH Hp EmptyString _ _ _ E _ Hk). simpl in *. lia.
      * destruct (match_here (LazyAny :: p) s) as [[caps' n'] |] eqn:E'; [| discriminate].
        inversion H; subst. simpl.
        inversion Hk as [| | ? ? ? Hstop | ? ? ? ? Hmore]; subst.
        -- exfalso. exact (match_here_complete _ _ _ Hstop E).
        -- pose proof (IHs _ _ _ eq_refl Hmore). lia.
Qed.

Lemma match_here_shortest p s caps n :
  lazy_only p = true ->
  match_here p s = Some (caps, n) ->
  forall m, matches p s m -> n <= m.
Proof.
  intros Hp H m Hm.
  exact (match_here_earliest p Hp EmptyString s caps n H m (matches_wild_stop _ _ _ Hm)).
Qed.

(** C2, as the code has it. A separator that contains the token is
    compiled to the pattern in which every other character, a syntax
    character included, matches itself and every token is a lazy wildcard
    outside any group: a match captures nothing and is the shortest that
    the pattern has at its position. On the example both occurrences are
    split off, the second being the whole of "ayb". *)
Theorem split_wildcard_is_lazy :
  (forall sep v : string,
      includes "%w%" sep = true ->
      let R := wildcard_pattern LazyAny 0 sep in
      new_RegExp (replaceAll "%w%" lazy_text (escape_regex_chars sep)) = Some R
      /\ split_Func (VStr v) [sep] = Ok (strings (split_regexp R v))
      /\ (forall s caps n,
             match_here R s = Some (caps, n) ->
             caps = [] /\ matches R s n /\ forall m, matches R s m -> n <= m)
      /\ (forall s m, matches R s m -> exists n, match_here R s = Some ([], n)))
  /\ wildcard_pattern LazyAny 0 "a%w%b" = [Char "a"; LazyAny; Char "b"]
  /\ wildcard_pattern LazyAny 0 "a.%w%" = [Char "a"; Char "."; LazyAny]
  /\ split_Func (VStr "axxxb-ayb") ["a%w%b"] = Ok (strings [""; "-"; ""]).
Proof.
  split; [| repeat split].
  intros sep v Hinc R.
  pose proof (wildcard_pattern_lazy_only sep 0) as Hlazy. fold R in Hlazy.
  split; [apply split_pattern_compiles |].
  split.
  - unfold split_Func. simpl arg. cbv iota. rewrite Hinc.
    rewrite split_pattern_compiles. reflexivity.
  - split.
    + intros s caps n H. destruct (match_here_sound R Hlazy s caps n H) as [-> Hm].
      split; [reflexivity | split; [exact Hm |]].
      apply (match_here_shortest R s [] n Hlazy H).
    + intros s m Hm. pose proof (match_here_complete R s m Hm) as Hc.
      destruct (match_here R s) as [[caps n] |] eqn:E; [| contradiction].
      destruct (match_here_sound R Hlazy s caps n E) as [-> _].
      exists n. reflexivity.
Qed.

Lemma split_wildcard_is_lazy_witness :
  includes "%w%" "a%w%b" = true
  /\ split_Func (VStr "a1b2a3b") ["a%w%b"]
     = Ok (strings (split_regexp (wildcard_pattern LazyAny 0 "a%w%b") "a1b2a3b")).
Proof.
  split; [reflexivity |].
  exact (proj1 (proj2 (proj1 split_wildcard_is_lazy "a%w%b" "a1b2a3b" eq_refl))).
Defined.

(** The claim C2 as the specification states it fails on its example: the
    last piece is empty, not "yb". *)
Lemma split_wildcard_example_is_not_as_claimed :
  split_Func (VStr "axxxb-ayb") ["a%w%b"] <> Ok (strings [""; "-"; "yb"]).
Proof. discriminate. Qed.

(** ** The codec *)

Lemma ID_is_true i pst : ID_is i pst = true <-> i = JString (ID pst).
Proof.
  destruct i; simpl; try (split; [discriminate | intros E; discriminate]).
  rewrite String.eqb_eq. split; [intros -> | intros E; inversion E]; reflexivity.
Qed.

Lemma find_in_catalog tf :
  In tf PSTransformers -> find (ID_is (JString (ID tf))) PSTransformers = Some tf.
Proof.
  intros H. repeat (destruct H as [<- | H]; [reflexivity |]). contradiction.
Qed.

Lemma narrow_strings_spec a :
  forall args, narrow_strings a = Some args <-> a = map JString args.
Proof.
  induction a as [| x a IH]; intros args.
  - destruct args; simpl; split; intros H; try reflexivity; discriminate.
  - destruct x as [| b | n | s | l | m | w | m]; simpl;
      try (split; [discriminate | destruct args; discriminate]).
    destruct args as [| y args].
    + split; [| discriminate]. destruct (narrow_strings a); discriminate.
    + specialize (IH args). destruct (narrow_strings a) as [l |].
      * split.
        -- intros H. inversion H; subst. simpl. f_equal. apply IH. reflexivity.
        -- intros H. inversion H as [[Hs Ha]]. subst a.
           destruct IH as [_ IH]. specialize (IH eq_refl). inversion IH. reflexivity.
      * split; [discriminate |].
        intros H. inversion H as [[Hs Ha]]. subst a.
        destruct IH as [_ IH]. specialize (IH eq_refl). discriminate.
Qed.

Lemma all_strings_map (args : list string) : forallb is_JString (map JString args) = true.
Proof. induction args as [| x args IH]; simpl; auto. Qed.

Lemma narrow_strings_none a :
  forallb is_JString a = true -> narrow_strings a = None ->
  Exists (fun x => is_JWideString x = true) a.
Proof.
  induction a as [| x a IH]; simpl; [discriminate |].
  intros H. apply andb_true_iff in H. destruct H as [Hx Ha].
  destruct x; try discriminate.
  - destruct (narrow_strings a); [discriminate |]. intros _. right. apply IH; auto.
  - intros _. left. reflexivity.
Qed.

Lemma not_all_strings a :
  forallb is_JString a = false <-> Exists (fun x => is_JString x = false) a.
Proof.
  induction a as [| x a IH]; simpl.
  - split; [discriminate | intros H; inversion H].
  - rewrite andb_false_iff, IH. split.
    + intros [H | H]; [left | right]; assumption.
    + intros H. inversion H; subst; [left | right]; assumption.
Qed.

(** An exception of the record body is raised in every case, whatever can
    be said of its message. *)
Lemma decode_error_raises {A} i what : raises (@decode_error A i what) = true.
Proof.
  unfold decode_error. destruct (converts i); [| reflexivity].
  destruct (template_text i); reflexivity.
Qed.

Lemma decode_record_spec t :
  match decode_record t with
  | Inside (Ok x) => decodes_to t x /\ ~ malformed_record t
  | Inside (Err _) => malformed_record t
  | Outside true => malformed_record t
  | Outside false => ~ malformed_record t /\ wide_argument t
  end.
Proof.
  assert (Hraise : forall (m : Modelled PSTransformerWithArguments),
             raises m = true -> malformed_record t ->
             match m with
             | Inside (Ok x) => decodes_to t x /\ ~ malformed_record t
             | Inside (Err _) => malformed_record t
             | Outside true => malformed_record t
             | Outside false => ~ malformed_record t /\ wide_argument t
             end).
  { intros [[x | e] | [|]] Hr Hm; try discriminate; exact Hm. }
  unfold decode_record.
  destruct (property t "i") as [i |] eqn:Ei; [| left; exact Ei].
  destruct (property t "a") as [a |] eqn:Ea;
    [| right; left; intros a E; rewrite Ea in E; discriminate].
  destruct a as [| | | | a | | |];
    try (right; left; intros a' E; rewrite Ea in E; discriminate).
  destruct (forallb is_JString a) eqn:Es; cbn [negb].
  - destruct (find (ID_is i) PSTransformers) as [tf |] eqn:Ef.
    + apply find_some in Ef. destruct Ef as [Hin Hid]. apply ID_is_true in Hid. subst i.
      assert (Hwell : ~ malformed_record t).
      { intros [H | [H | [[a' [E H]] | [i [E H]]]]].
        - rewrite Ei in H. discriminate.
        - exact (H a Ea).
        - rewrite Ea in E. inversion E; subst a'. apply not_all_strings in H. congruence.
        - rewrite Ei in E. inversion E; subst i. exact (H tf Hin eq_refl). }
      destruct (narrow_strings a) as [args |] eqn:En.
      * apply narrow_strings_spec in En. subst a.
        split; [| exact Hwell].
        split; [exact Hin | split; [exact Ei | exact Ea]].
      * split; [exact Hwell |]. exists a. split; [exact Ea |].
        apply narrow_strings_none; assumption.
    + apply Hraise; [apply decode_error_raises |].
      right; right; right. exists i. split; [exact Ei |].
      intros pst Hin E. pose proof (find_none _ _ Ef pst Hin) as Hn.
      apply ID_is_true in E. congruence.
  - apply Hraise; [apply decode_error_raises |].
    right; right; left. exists a. split; [exact Ea |]. apply not_all_strings, Es.
Qed.

Lemma decode_records_spec p :
  match decode_records p with
  | Inside (Ok ts) => Forall2 decodes_to p ts /\ ~ Exists malformed_record p
  | Inside (Err _) => Exists malformed_record p
  | Outside true => Exists malformed_record p
  | Outside false => ~ Exists malformed_record p /\ Exists wide_argument p
  end.
Proof.
  induction p as [| t p IH]; cbn [decode_records].
  - split; [constructor | intros H; inversion H].
  - pose proof (decode_record_spec t) as Ht.
    destruct (decode_record t) as [[x | e] | [|]]; try (left; exact Ht).
    + destruct Ht as [Hd Hn].
      destruct (decode_records p) as [[ts | e] | [|]]; try (right; exact IH).
      * destruct IH as [Hds Hns]. split; [constructor; assumption |].
        intros H. inversion H; subst; contradiction.
      * destruct IH as [Hns Hw]. split; [| right; exact Hw].
        intros H. inversion H; subst; contradiction.
    + destruct Ht as [Hn Hw].
      destruct (decode_records p) as [[ts | e] | [|]]; try (right; exact IH).
      * destruct IH as [_ Hns]. split; [| left; exact Hw].
        intros H. inversion H; subst; contradiction.
      * destruct IH as [Hns _]. split; [| left; exact Hw].
        intros H. inversion H; subst; contradiction.
Qed.

(** A record that denotes an invocation is decoded to it. *)
Lemma decode_record_complete t x : decodes_to t x -> decode_record t = Inside (Ok x).
Proof.
  intros [Hin [Hi Ha]]. unfold decode_record. rewrite Hi, Ha.
  rewrite all_strings_map. cbn [negb]. rewrite (find_in_catalog _ Hin).
  rewrite (proj2 (narrow_strings_spec _ (Arguments x)) eq_refl).
  destruct x; reflexivity.
Qed.

Lemma decode_records_complete p ts :
  Forall2 decodes_to p ts -> decode_records p = Inside (Ok ts).
Proof.
  induction 1 as [| t x p ts Hx _ IH]; [reflexivity |].
  cbn [decode_records]. rewrite (decode_record_complete t x Hx), IH. reflexivity.
Qed.

(** C5. [decodeATL] raises exactly when the token is not JSON, or the
    value it denotes is not an array, or one of the records of the array is
    malformed: a [SyntaxError] in the first case, the [Error] of the top
    level in the second. When it raises nothing is returned. Otherwise it
    returns one invocation for each record, in order: the transformer of
    the catalog whose ID is the [i] of the record, with the strings of its
    [a]. The model gives this pipeline exactly when every argument is
    inside its alphabet, and tells that one is not otherwise. *)
Theorem decodeATL_strict :
  forall token : string,
    (raises (decodeATL token) = true
     <-> (JSON_parse token = None
          \/ (exists j, JSON_parse token = Some j /\ is_JArray j = false)
          \/ (exists p, JSON_parse token = Some (JArray p) /\ Exists malformed_record p)))
    /\ (forall ts, decodeATL token = Inside (Ok ts)
                   <-> exists p, JSON_parse token = Some (JArray p) /\ Forall2 decodes_to p ts)
    /\ (decodeATL token = Outside false
        <-> exists p, JSON_parse token = Some (JArray p)
                      /\ ~ Exists malformed_record p /\ Exists wide_argument p)
    /\ (JSON_parse token = None ->
        exists msg, decodeATL token = Inside (Err (SyntaxError msg)))
    /\ (forall j, JSON_parse token = Some j -> is_JArray j = false ->
        decodeATL token
        = Inside (Err (Error "decodeAppliedTransformerList: parsed value is not array"))).
Proof.
  intros token. unfold decodeATL.
  destruct (JSON_parse token) as [j |] eqn:Ep.
  2:{ split; [| split; [| split; [| split]]].
      - split; [intros _; left; reflexivity | reflexivity].
      - intros ts. split; [discriminate | intros [p [E _]]; discriminate].
      - split; [discriminate | intros [p [E _]]; discriminate].
      - intros _. eexists. reflexivity.
      - intros j E. discriminate. }
  assert (Hother : is_JArray j = false ->
            forall r : Modelled (list PSTransformerWithArguments),
              r = Inside (Err (Error "decodeAppliedTransformerList: parsed value is not array")) ->
              (raises r = true
               <-> (Some j = None
                    \/ (exists j', Some j = Some j' /\ is_JArray j' = false)
                    \/ (exists p, Some j = Some (JArray p) /\ Exists malformed_record p)))
              /\ (forall ts, r = Inside (Ok ts)
                             <-> exists p, Some j = Some (JArray p) /\ Forall2 decodes_to p ts)
              /\ (r = Outside false
                  <-> exists p, Some j = Some (JArray p)
                                /\ ~ Exists malformed_record p /\ Exists wide_argument p)
              /\ (Some j = None -> exists msg, r = Inside (Err (SyntaxError msg)))
              /\ (forall j', Some j = Some j' -> is_JArray j' = false ->
                  r = Inside (Err (Error "decodeAppliedTransformerList: parsed value is not array")))).
  { intros Hj r ->. split; [| split; [| split; [| split]]].
    - split; [| reflexivity].
      intros _. right; left. exists j. split; [reflexivity | exact Hj].
    - intros ts. split; [discriminate |].
      intros [p [E _]]. inversion E; subst j. discriminate.
    - split; [discriminate |].
      intros [p [E _]]. inversion E; subst j. discriminate.
    - discriminate.
    - reflexivity. }
  destruct j as [| b | n | s | p | m | w | m]; try (apply Hother; reflexivity).
  clear Hother.
  pose proof (decode_records_spec p) as Hp.
  assert (Hnot : forall j', Some (JArray p) = Some j' -> is_JArray j' = false -> False).
  { intros j' E Hj'. inversion E; subst j'. discriminate. }
  split; [| split; [| split; [| split]]].
  - destruct (decode_records p) as [[ts | e] | [|]]; cbn [raises].
    + destruct Hp as [_ Hn]. split; [discriminate |].
      intros [H | [[j [E H]] | [p' [E H]]]]; try discriminate.
      * exfalso. exact (Hnot j E H).
      * inversion E; subst p'. contradiction.
    + split; [| reflexivity]. intros _. right; right. exists p. split; [reflexivity | exact Hp].
    + split; [| reflexivity]. intros _. right; right. exists p. split; [reflexivity | exact Hp].
    + destruct Hp as [Hn _]. split; [discriminate |].
      intros [H | [[j [E H]] | [p' [E H]]]]; try discriminate.
      * exfalso. exact (Hnot j E H).
      * inversion E; subst p'. contradiction.
  - intros ts. split.
    + intros E. rewrite E in Hp. exists p. split; [reflexivity | exact (proj1 Hp)].
    + intros [p' [E Hd]]. inversion E; subst p'. apply decode_records_complete, Hd.
  - split.
    + intros E. rewrite E in Hp. exists p. split; [reflexivity | exact Hp].
    + intros [p' [E [Hn Hw]]]. inversion E; subst p'.
      destruct (decode_records p) as [[ts | e] | [|]]; try contradiction; [| reflexivity].
      exfalso. destruct Hp as [Hd _]. clear - Hd Hw.
      induction Hd as [| t x p ts [_ [_ Ha]] _ IH]; inversion Hw as [? ? Hx | ? ? Hx]; subst.
      * destruct Hx as [a [Ea Hx]]. rewrite Ea in Ha. inversion Ha; subst a.
        clear - Hx. induction (Arguments x) as [| y l IHl]; inversion Hx; subst;
          [discriminate | auto].
      * exact (IH Hx).
  - discriminate.
  - intros j' E Hj'. exfalso. exact (Hnot j' E Hj').
Qed.

Lemma decodeATL_strict_witness :
  raises (decodeATL ("[{" ++ quote "i" ++ ":" ++ quote "trim" ++ "}]")) = true
  /\ decodeATL ("[{" ++ quote "i" ++ ":" ++ quote "trim" ++ ","
                ++ quote "a" ++ ":[]," ++ quote "x" ++ ":" ++ quote_mark ++ "\u0100"
                ++ quote_mark ++ "}]")
     = Inside (Ok [applied trim_transformer []]).
Proof.
  split.
  - apply (proj2 (proj1 (decodeATL_strict ("[{" ++ quote "i" ++ ":" ++ quote "trim" ++ "}]")))).
    right; right. eexists. split; [reflexivity |].
    left. right; left. intros a. discriminate.
  - apply (proj2 (proj1 (proj2 (decodeATL_strict _)) [applied trim_transformer []])).
    eexists. split; [reflexivity |].
    constructor; [| constructor].
    split; [simpl; tauto | split; reflexivity].
Defined.

(** *** Round trip *)

Lemma append_assoc (a b c : string) : (a ++ b) ++ c = a ++ (b ++ c).
Proof. induction a as [| x a IH]; simpl; [reflexivity | rewrite IH; reflexivity]. Qed.

(** A quoted code unit is read back as the code unit. *)
Lemma parse_quoted_code_unit (c : ascii) (x : string) :
  parse_string_body (quote_code_unit c ++ x)
  = match parse_string_body x with
    | Some (t, r) => Some (cons_char c t, r)
    | None => None
    end.
Proof.
  destruct c as [[] [] [] [] [] [] [] []]; reflexivity.
Qed.

Lemma parse_quoted_body (s : string) (rest : string) :
  parse_string_body (quote_body s ++ quote_mark ++ rest) = Some (Narrow s, rest).
Proof.
  induction s as [| c s IH]; [reflexivity |].
  cbn [quote_body]. rewrite append_assoc, parse_quoted_code_unit, IH. reflexivity.
Qed.

Lemma quote_unfold s rest :
  quote s ++ rest = String quote_char (quote_body s ++ quote_mark ++ rest).
Proof. unfold quote, quote_mark. simpl. rewrite append_assoc. reflexivity. Qed.

Lemma parse_value_string fuel s rest :
  parse_value (S fuel) (quote s ++ rest) = Some (JString s, rest).
Proof.
  rewrite quote_unfold. unfold quote_char. cbn [parse_value skip_ws].
  change (is_json_space "034") with false. cbv iota.
  change (Ascii.eqb "034" "[") with false.
  change (Ascii.eqb "034" "{") with false.
  change (Ascii.eqb "034" "034") with true. cbv iota.
  rewrite parse_quoted_body. reflexivity.
Qed.

Lemma join_quoted_elements l rest :
  join_strings "," (map (fun s => JSON_stringify (JString s)) l) ++ "]" ++ rest
  = printed_elements l rest.
Proof.
  induction l as [| x [| y l] IH]; try reflexivity.
  change (join_strings "," (map (fun s => JSON_stringify (JString s)) (x :: y :: l)))
    with (quote x ++ "," ++ join_strings "," (map (fun s => JSON_stringify (JString s)) (y :: l))).
  rewrite !append_assoc. rewrite IH. reflexivity.
Qed.

Lemma parse_value_string_fuel fuel s rest :
  0 < fuel -> parse_value fuel (quote s ++ rest) = Some (JString s, rest).
Proof. intros H. destruct fuel; [lia | apply parse_value_string]. Qed.

Lemma parse_elements_strings l :
  l <> [] ->
  forall fuel rest,
    length l < fuel ->
    parse_elements fuel (printed_elements l rest) = Some (map JString l, rest).
Proof.
  induction l as [| x [| y l] IH]; intros Hne fuel rest Hf; [contradiction | |].
  - destruct fuel as [| fuel]; [simpl in Hf; lia |].
    cbn [parse_elements printed_elements].
    rewrite parse_value_string_fuel by (simpl in Hf; lia). reflexivity.
  - destruct fuel as [| fuel]; [simpl in Hf; lia |].
    cbn [parse_elements]. change (printed_elements (x :: y :: l) rest)
      with (quote x ++ "," ++ printed_elements (y :: l) rest).
    rewrite parse_value_string_fuel by (simpl in Hf; lia).
    change (skip_ws ("," ++ printed_elements (y :: l) rest))
      with (String "," (printed_elements (y :: l) rest)).
    cbv iota.
    rewrite (IH ltac:(discriminate) fuel rest) by (simpl in *; lia).
    reflexivity.
Qed.

Lemma parse_value_strings fuel l rest :
  length l < fuel ->
  parse_value (S fuel) (JSON_stringify (JArray (map JString l)) ++ rest)
  = Some (JArray (map JString l), rest).
Proof.
  intros Hf. cbn [JSON_stringify]. rewrite map_map.
  change (("[" ++ join_strings "," (map (fun s => JSON_stringify (JString s)) l) ++ "]") ++ rest)
    with (String "[" ((join_strings "," (map (fun s => JSON_stringify (JString s)) l) ++ "]") ++ rest)).
  rewrite append_assoc, join_quoted_elements.
  cbn [parse_value skip_ws].
  change (is_json_space "[") with false. cbv iota.
  change (Ascii.eqb "[" "[") with true. cbv iota.
  destruct l as [| x l]; [reflexivity |].
  assert (E : skip_ws (printed_elements (x :: l) rest)
              = String quote_char (quote_body x ++ quote_mark
                                   ++ match l with
                                      | [] => "]" ++ rest
                                      | _ => "," ++ printed_elements l rest
                                      end)).
  { destruct l; cbn [printed_elements]; rewrite quote_unfold; reflexivity. }
  rewrite E. unfold quote_char at 1. cbv iota.
  rewrite parse_elements_strings; [reflexivity | discriminate | exact Hf].
Qed.

Lemma stringify_record t rest :
  JSON_stringify (record_of t) ++ rest = printed_record t rest.
Proof.
  unfold record_of, printed_record. cbn [JSON_stringify map join_strings fst snd].
  rewrite !append_assoc. reflexivity.
Qed.

Lemma parse_members_quoted fuel key x :
  parse_members (S fuel) (quote key ++ ":" ++ x)
  = match parse_value fuel x with
    | None => None
    | Some (v, r3) =>
        match skip_ws r3 with
        | String "," r4 =>
            match parse_members fuel r4 with
            | Some (m, r5) => Some ((Narrow key, v) :: m, r5)
            | None => None
            end
        | String "}" r4 => Some ([(Narrow key, v)], r4)
        | _ => None
        end
    end.
Proof.
  rewrite quote_unfold. unfold quote_char. cbn [parse_members skip_ws].
  change (is_json_space "034") with false. cbv iota.
  change (Ascii.eqb "034" "034") with true. cbv iota.
  rewrite parse_quoted_body.
  change (skip_ws (":" ++ x)) with (String ":" x). reflexivity.
Qed.

Lemma parse_value_object fuel key x :
  parse_value (S fuel) (String "{" (quote key ++ x))
  = match parse_members fuel (quote key ++ x) with
    | Some (m, r') => Some (JSON_of_members m, r')
    | None => None
    end.
Proof.
  rewrite quote_unfold. unfold quote_char. cbn [parse_value skip_ws].
  change (is_json_space "{") with false. cbv iota.
  change (Ascii.eqb "{" "[") with false.
  change (Ascii.eqb "{" "{") with true.
  change (is_json_space "034") with false. cbv iota.
  reflexivity.
Qed.

Lemma parse_value_record fuel t rest :
  length (Arguments t) + 3 < fuel ->
  parse_value (S fuel) (printed_record t rest) = Some (record_of t, rest).
Proof.
  intros Hf. destruct fuel as [| [| [| fuel]]]; try lia.
  unfold printed_record.
  change ("{" ++ quote "i" ++ ":" ++ quote (ID (Transformer t)) ++ ","
          ++ quote "a" ++ ":" ++ JSON_stringify (JArray (map JString (Arguments t)))
          ++ "}" ++ rest)
    with (String "{" (quote "i" ++ ":" ++ quote (ID (Transformer t)) ++ ","
          ++ quote "a" ++ ":" ++ JSON_stringify (JArray (map JString (Arguments t)))
          ++ "}" ++ rest)).
  rewrite parse_value_object, parse_members_quoted, parse_value_string.
  change (skip_ws ("," ++ quote "a" ++ ":"
                   ++ JSON_stringify (JArray (map JString (Arguments t))) ++ "}" ++ rest))
    with (String "," (quote "a" ++ ":"
                   ++ JSON_stringify (JArray (map JString (Arguments t))) ++ "}" ++ rest)).
  cbv iota.
  rewrite parse_members_quoted, parse_value_strings by lia.
  reflexivity.
Qed.

Lemma join_records l rest :
  join_strings "," (map JSON_stringify (map record_of l)) ++ "]" ++ rest
  = printed_records l rest.
Proof.
  induction l as [| t [| u l] IH]; [reflexivity | |].
  - cbn [map join_strings printed_records]. apply stringify_record.
  - change (join_strings "," (map JSON_stringify (map record_of (t :: u :: l))))
      with (JSON_stringify (record_of t) ++ ","
            ++ join_strings "," (map JSON_stringify (map record_of (u :: l)))).
    rewrite !append_assoc, IH, stringify_record. reflexivity.
Qed.

Lemma length_join_quoted l :
  length l <= String.length (join_strings "," (map (fun s => JSON_stringify (JString s)) l)).
Proof.
  induction l as [| x [| y l] IH]; [simpl; lia | |].
  - cbn [map join_strings JSON_stringify]. unfold quote.
    rewrite !length_append. simpl. lia.
  - change (join_strings "," (map (fun s => JSON_stringify (JString s)) (x :: y :: l)))
      with (quote x ++ "," ++ join_strings "," (map (fun s => JSON_stringify (JString s)) (y :: l))).
    rewrite !length_append. simpl in *. lia.
Qed.

Lemma length_printed_record t rest :
  length (Arguments t) + 6 + String.length rest <= String.length (printed_record t rest).
Proof.
  unfold printed_record. cbn [JSON_stringify]. rewrite map_map.
  rewrite !length_append.
  pose proof (length_join_quoted (Arguments t)) as H.
  remember (String.length (join_strings ","
              (map (fun s => JSON_stringify (JString s)) (Arguments t)))) as J.
  simpl. lia.
Qed.

Lemma weight_printed_records l rest :
  weight l <= String.length (printed_records l rest).
Proof.
  induction l as [| t [| u l] IH]; [simpl; lia | |].
  - cbn [printed_records weight].
    pose proof (length_printed_record t ("]" ++ rest)). lia.
  - change (printed_records (t :: u :: l) rest)
      with (printed_record t ("," ++ printed_records (u :: l) rest)).
    pose proof (length_printed_record t ("," ++ printed_records (u :: l) rest)) as H.
    rewrite length_append in H. cbn [weight] in *. lia.
Qed.

Lemma parse_value_record_fuel fuel t rest :
  length (Arguments t) + 4 < fuel ->
  parse_value fuel (printed_record t rest) = Some (record_of t, rest).
Proof. intros H. destruct fuel; [lia |]. apply parse_value_record. lia. Qed.

Lemma parse_elements_records l :
  l <> [] ->
  forall fuel rest,
    weight l <= fuel ->
    parse_elements fuel (printed_records l rest) = Some (map record_of l, rest).
Proof.
  induction l as [| t [| u l] IH]; intros Hne fuel rest Hf; [contradiction | |].
  - destruct fuel as [| fuel]; [simpl in Hf; lia |].
    cbn [parse_elements printed_records].
    rewrite parse_value_record_fuel by (simpl in Hf; lia). reflexivity.
  - destruct fuel as [| fuel]; [simpl in Hf; lia |].
    cbn [parse_elements].
    change (printed_records (t :: u :: l) rest)
      with (printed_record t ("," ++ printed_records (u :: l) rest)).
    rewrite parse_value_record_fuel by (simpl in Hf; lia).
    change (skip_ws ("," ++ printed_records (u :: l) rest))
      with (String "," (printed_records (u :: l) rest)).
    cbv iota.
    rewrite (IH ltac:(discriminate) fuel rest) by (cbn [weight] in *; lia).
    reflexivity.
Qed.

Lemma JSON_parse_records l :
  JSON_parse (JSON_stringify (JArray (map record_of l))) = Some (JArray (map record_of l)).
Proof.
  unfold JSON_parse.
  assert (E : JSON_stringify (JArray (map record_of l)) = String "[" (printed_records l "")).
  { cbn [JSON_stringify]. rewrite <- join_records. reflexivity. }
  rewrite E.
  pose proof (weight_printed_records l "") as Hw.
  remember (2 * String.length (String "[" (printed_records l "")) + 2) as fuel eqn:Ef.
  destruct fuel as [| fuel]; [lia |].
  cbn [parse_value skip_ws].
  change (is_json_space "[") with false. cbv iota.
  change (Ascii.eqb "[" "[") with true. cbv iota.
  destruct l as [| t l]; [reflexivity |].
  assert (Es : exists x, skip_ws (printed_records (t :: l) "") = String "{" x).
  { destruct l; eexists; reflexivity. }
  destruct Es as [x ->]. cbv iota.
  rewrite parse_elements_records; [reflexivity | discriminate |].
  cbn [String.length] in Ef. lia.
Qed.

Lemma decode_records_of l :
  Forall (fun t => In (Transformer t) PSTransformers) l ->
  decode_records (map record_of l) = Inside (Ok l).
Proof.
  intros H. apply decode_records_complete.
  induction H as [| t l Ht _ IH]; [constructor |].
  cbn [map]. constructor; [| exact IH].
  split; [exact Ht | split; reflexivity].
Qed.

(** C4. Decoding the token of a pipeline whose transformers are those of
    the catalog succeeds and gives the pipeline back. *)
Theorem decodeATL_encodeATL :
  forall p : list PSTransformerWithArguments,
    Forall (fun t => In (Transformer t) PSTransformers) p ->
    decodeATL (encodeATL p) = Inside (Ok p).
Proof.
  intros p Hp. unfold decodeATL, encodeATL.
  change (map (fun t => JObject [("i", JString (ID (Transformer t)));
                                 ("a", JArray (map JString (Arguments t)))]) p)
    with (map record_of p).
  rewrite JSON_parse_records. apply decode_records_of, Hp.
Qed.

Lemma decodeATL_encodeATL_witness :
  decodeATL (encodeATL [applied split_transformer [","];
                        applied replace_transformer ["a\" ++ newline ++ quote_mark; "$1"];
                        applied trim_transformer []])
  = Inside (Ok [applied split_transformer [","];
                applied replace_transformer ["a\" ++ newline ++ quote_mark; "$1"];
                applied trim_transformer []]).
Proof.
  apply decodeATL_encodeATL.
  repeat constructor; simpl; tauto.
Defined.

(** * Further properties of the code *)

(** ** The recursive applier, continued *)

Lemma trace_bind {A B} (m : M A) (f : A -> M B) ev :
  In ev (trace (bind m f)) ->
  In ev (trace m) \/ exists a, outcome m = Ok a /\ In ev (trace (f a)).
Proof.
  destruct m as [tr [a | e]]; simpl; [| auto].
  destruct (f a) as [tr' r] eqn:E. simpl. intros H.
  apply in_app_or in H. destruct H as [H | H]; [left; exact H |].
  right. exists a. rewrite E. split; [reflexivity | exact H].
Qed.

Lemma trace_array_map {A B} (f : A -> M B) (l : list A) ev :
  In ev (trace (array_map f l)) -> exists x, In x l /\ In ev (trace (f x)).
Proof.
  induction l as [| x l IH]; simpl; [contradiction |].
  intros H. apply trace_bind in H. destruct H as [H | [y [_ H]]].
  - exists x. split; [left; reflexivity | exact H].
  - apply trace_bind in H. destruct H as [H | [ys [_ H]]]; [| contradiction].
    destruct (IH H) as [z [Hz Hev]]. exists z. split; [right; exact Hz | exact Hev].
Qed.

Lemma trace_invoke w t ev :
  In ev (trace (invoke w t)) -> ev = Invoke (ID (Transformer t)) w (Arguments t).
Proof.
  unfold invoke, emit, lift, bind.
  destruct (Func (Transformer t) w (Arguments t)); simpl; intros [H | []]; symmetry; exact H.
Qed.

Lemma trace_map_then_ret (m : M (list Value)) ev :
  In ev (trace (r <- m ;; ret (VArr r))) -> In ev (trace m).
Proof.
  intros H. apply trace_bind in H. destruct H as [H | [a [_ H]]]; [exact H | contradiction].
Qed.

(** Every invocation of [Func] that [applyTransformer] makes is on a value
    of the shape of the Target, with the arguments of the invocation. *)
Lemma applyTransformer_invokes_well t v :
  forall ev, In ev (trace (applyTransformer v t)) ->
    exists w, ev = Invoke (ID (Transformer t)) w (Arguments t)
              /\ well_targeted (Target (Transformer t)) w = true.
Proof.
  induction v as [s | l IH |] using Value_nested_ind; intros ev Hev.
  - rewrite applyTransformer_string in Hev.
    destruct (Target (Transformer t)) eqn:Et; [| contradiction].
    exists (VStr s). split; [apply trace_invoke, Hev | reflexivity].
  - assert (Hmap : In ev (trace (r <- array_map (fun vm => applyTransformer vm t) l ;;
                                   ret (VArr r))) ->
                   exists w, ev = Invoke (ID (Transformer t)) w (Arguments t)
                             /\ well_targeted (Target (Transformer t)) w = true).
    { intros H. apply trace_map_then_ret, trace_array_map in H.
      destruct H as [x [Hx H]]. rewrite Forall_forall in IH. exact (IH x Hx ev H). }
    rewrite applyTransformer_array in Hev.
    destruct (Target (Transformer t)) eqn:Et; [exact (Hmap Hev) |].
    destruct l as [| [s | l' |] l]; simpl in Hev; try exact (Hmap Hev).
    exists (VArr (VStr s :: l)). split; [apply trace_invoke, Hev | reflexivity].
  - contradiction.
Qed.

(** X1. Whatever the value, [applyTransformer] calls the [Func] of a
    transformer only on values of the shape of its Target: a string for
    'string', an array whose first element is a string for 'array'; and
    always with the ID and the arguments of the invocation. *)
Theorem applyTransformer_calls_Func_on_its_Target_only :
  forall (t : PSTransformerWithArguments) (v w : Value) (id : string) (args : list string),
    In (Invoke id w args) (trace (applyTransformer v t)) ->
    id = ID (Transformer t)
    /\ args = Arguments t
    /\ well_targeted (Target (Transformer t)) w = true.
Proof.
  intros t v w id args H.
  destruct (applyTransformer_invokes_well t v _ H) as [w' [E Hw]].
  inversion E; subst. repeat split. exact Hw.
Qed.

Lemma applyTransformer_calls_Func_on_its_Target_only_witness :
  In (Invoke "reverse" (strings ["c"; "d"]) [])
     (trace (applyTransformer (VArr [strings ["a"; "b"]; strings ["c"; "d"]])
                              (applied reverse_transformer [])))
  /\ well_targeted Tarray (strings ["c"; "d"]) = true.
Proof.
  assert (H : In (Invoke "reverse" (strings ["c"; "d"]) [])
                 (trace (applyTransformer (VArr [strings ["a"; "b"]; strings ["c"; "d"]])
                                          (applied reverse_transformer [])))).
  { right. left. reflexivity. }
  split; [exact H |].
  exact (proj2 (proj2 (applyTransformer_calls_Func_on_its_Target_only _ _ _ _ _ H))).
Defined.

Lemma invoke_total t w r :
  Func (Transformer t) w (Arguments t) = Ok r ->
  invoke w t = ([Invoke (ID (Transformer t)) w (Arguments t)], Ok r).
Proof. intros H. unfold invoke, emit, lift, bind. rewrite H. reflexivity. Qed.

Lemma map_then_ret_total (l : list Value) (g : Value -> Value) (tr : Value -> list Event)
  (f : Value -> M Value) :
  Forall (fun x => f x = (tr x, Ok (g x))) l ->
  (r <- array_map f l ;; ret (VArr r)) = (flat_map tr l, Ok (VArr (map g l))).
Proof.
  intros H. rewrite (array_map_total f g tr l H).
  unfold bind, ret. simpl. rewrite app_nil_r. reflexivity.
Qed.

(** X2. A transformer whose Target is 'array' acts on rows. On a value
    made of rows grouped in arrays to any depth, [Func] is invoked once on
    each row, from left to right, and the result is the value with each row
    replaced by its image, the grouping being as it was. *)
Theorem applyTransformer_array_target_acts_on_rows :
  forall (t : PSTransformerWithArguments) (f : list Value -> Value) (v : Value),
    Target (Transformer t) = Tarray ->
    (forall row, Func (Transformer t) (VArr row) (Arguments t) = Ok (f row)) ->
    grouped v = true ->
    applyTransformer v t
    = (map (fun row => Invoke (ID (Transformer t)) (VArr row) (Arguments t)) (rows v),
       Ok (replace_rows f v)).
Proof.
  intros t f v Ht Hf.
  induction v as [s | l IH |] using Value_nested_ind; intros Hg; try discriminate.
  rewrite applyTransformer_array, Ht.
  assert (Hmap : forallb grouped l = true ->
            (r <- array_map (fun vm => applyTransformer vm t) l ;; ret (VArr r))
            = (map (fun row => Invoke (ID (Transformer t)) (VArr row) (Arguments t))
                   (flat_map rows l),
               Ok (VArr (map (replace_rows f) l)))).
  { intros Hall. rewrite forallb_forall in Hall.
    rewrite (map_then_ret_total l (replace_rows f)
               (fun v => map (fun row => Invoke (ID (Transformer t)) (VArr row) (Arguments t))
                             (rows v))).
    - f_equal. clear. induction l as [| x l IHl]; simpl; [reflexivity |].
      rewrite map_app, IHl. reflexivity.
    - rewrite Forall_forall in *. intros x Hx. apply IH; [exact Hx | apply Hall, Hx]. }
  destruct l as [| [s | l' |] l]; simpl in Hg |- *.
  - exact (Hmap eq_refl).
  - apply invoke_total, Hf.
  - exact (Hmap Hg).
  - discriminate.
Qed.

Lemma applyTransformer_array_target_acts_on_rows_witness :
  applyTransformer (VArr [VArr [strings ["a"; "b"]; strings ["c"]]; VArr []])
                   (applied join_transformer ["-"])
  = ([Invoke "join" (strings ["a"; "b"]) ["-"]; Invoke "join" (strings ["c"]) ["-"]],
     Ok (VArr [strings ["a-b"; "c"]; VArr []])).
Proof.
  exact (applyTransformer_array_target_acts_on_rows
           (applied join_transformer ["-"])
           (fun row => VStr (array_join row (Some "-")))
           (VArr [VArr [strings ["a"; "b"]; strings ["c"]]; VArr []])
           eq_refl (fun row => eq_refl) eq_refl).
Defined.

Lemma outcome_bind_err {A B} (m : M A) (f : A -> M B) e :
  outcome (bind m f) = Err e ->
  outcome m = Err e \/ exists a, outcome m = Ok a /\ outcome (f a) = Err e.
Proof.
  destruct m as [tr [a | e']];
    [| intros H; left; unfold bind, outcome in *; simpl in *; inversion H; reflexivity].
  unfold bind, outcome. destruct (f a) as [tr' r] eqn:E. simpl. intros H.
  right. exists a. rewrite E. split; [reflexivity | exact H].
Qed.

Lemma outcome_array_map_err {A B} (f : A -> M B) (l : list A) e :
  outcome (array_map f l) = Err e -> exists x, In x l /\ outcome (f x) = Err e.
Proof.
  induction l as [| x l IH]; simpl; [discriminate |].
  intros H. apply outcome_bind_err in H. destruct H as [H | [y [_ H]]].
  - exists x. split; [left; reflexivity | exact H].
  - apply outcome_bind_err in H. destruct H as [H | [ys [_ H]]]; [| discriminate].
    destruct (IH H) as [z [Hz Hez]]. exists z. split; [right; exact Hz | exact Hez].
Qed.

Lemma outcome_invoke w t : outcome (invoke w t) = Func (Transformer t) w (Arguments t).
Proof.
  unfold invoke, emit, lift, bind.
  destruct (Func (Transformer t) w (Arguments t)); reflexivity.
Qed.

Lemma innermost_test (l : list Value) :
  (0 <? length l)%nat && is_string (nth 0 l VUndefined)
  = match l with VStr _ :: _ => true | _ => false end.
Proof. destruct l as [| [s | l' |] l]; reflexivity. Qed.

(** An exception of [applyTransformer] is one of its own two, or it was
    raised by [Func] on a value of the shape of the Target. *)
Lemma applyTransformer_error_origin t v e :
  outcome (applyTransformer v t) = Err e ->
  e = not_string_nor_array
  \/ e = array_transformer_on_string
  \/ exists w, well_targeted (Target (Transformer t)) w = true
               /\ Func (Transformer t) w (Arguments t) = Err e.
Proof.
  induction v as [s | l IH |] using Value_nested_ind; intros He.
  - rewrite applyTransformer_string in He.
    destruct (Target (Transformer t)) eqn:Et.
    + right; right. exists (VStr s). rewrite outcome_invoke in He. split; [reflexivity | exact He].
    + right; left. inversion He. reflexivity.
  - assert (Hmap : outcome (r <- array_map (fun vm => applyTransformer vm t) l ;;
                            ret (VArr r)) = Err e ->
                   e = not_string_nor_array
                   \/ e = array_transformer_on_string
                   \/ exists w, well_targeted (Target (Transformer t)) w = true
                                /\ Func (Transformer t) w (Arguments t) = Err e).
    { intros H. apply outcome_bind_err in H. destruct H as [H | [r [_ H]]]; [| discriminate].
      apply outcome_array_map_err in H. destruct H as [x [Hx H]].
      rewrite Forall_forall in IH. exact (IH x Hx H). }
    rewrite applyTransformer_array, innermost_test in He.
    destruct (Target (Transformer t)) eqn:Et; [exact (Hmap He) |].
    destruct l as [| [s | l' |] l]; try exact (Hmap He).
    right; right. exists (VArr (VStr s :: l)). rewrite outcome_invoke in He.
    split; [reflexivity | exact He].
  - left. inversion He. reflexivity.
Qed.

(** ** The catalog *)

Lemma well_targeted_has_shape s v : well_targeted s v = true -> has_shape s v = true.
Proof. destruct s, v as [x | [| [y | l' |] l] |]; simpl; auto. Qed.

Lemma catalog_Func_returns pst v args :
  In pst PSTransformers ->
  has_shape (Target pst) v = true ->
  length (Args pst) <= length args ->
  exists r, Func pst v args = Ok r /\ has_shape (Return pst) r = true.
Proof.
  intros Hin Hv Hargs.
  repeat (destruct Hin as [<- | Hin]); try contradiction;
    destruct v as [s | l |]; try discriminate; cbn [Func Args length] in *.
  - (* split *)
    destruct args as [| sep args]; [simpl in Hargs; lia |].
    change (Func split_transformer) with split_Func.
    unfold split_Func. cbn [arg nth_error].
    destruct (includes "%w%" sep).
    + rewrite split_pattern_compiles. eexists. split; reflexivity.
    + eexists. split; reflexivity.
  - (* replace *)
    destruct args as [| pattern args]; [simpl in Hargs; lia |].
    change (Func replace_transformer) with replace_Func.
    unfold replace_Func. cbn [arg nth_error].
    destruct (includes "%w%" pattern).
    + rewrite replace_pattern_compiles. eexists. split; reflexivity.
    + eexists. split; reflexivity.
  - eexists. split; reflexivity.
  - eexists. split; reflexivity.
  - eexists. split; reflexivity.
  - eexists. split; reflexivity.
  - (* slice_array *)
    destruct args as [| indexes args]; [simpl in Hargs; lia |].
    eexists. split; reflexivity.
  - eexists. split; reflexivity.
  - eexists. split; reflexivity.
  - eexists. split; reflexivity.
Qed.

(** X3. Given a value of the shape of its Target and at least as many
    arguments as it declares, the [Func] of every transformer of the
    catalog returns, and what it returns has the shape of its declared
    Return. In particular no separator or pattern text makes [split] or
    [replace] raise: the escaped text is always a pattern. *)
Theorem catalog_Func_returns_its_declared_shape :
  forall (pst : PSTransformer) (v : Value) (args : list string),
    In pst PSTransformers ->
    has_shape (Target pst) v = true ->
    length (Args pst) <= length args ->
    exists r, Func pst v args = Ok r /\ has_shape (Return pst) r = true.
Proof. exact catalog_Func_returns. Qed.

Lemma catalog_Func_returns_its_declared_shape_witness :
  exists r, Func replace_transformer (VStr "f(x) + g(y)") ["(%w%)"; "[$1]"] = Ok r
            /\ has_shape Tstring r = true.
Proof.
  apply (catalog_Func_returns_its_declared_shape
           replace_transformer (VStr "f(x) + g(y)") ["(%w%)"; "[$1]"]).
  - simpl. tauto.
  - reflexivity.
  - simpl. lia.
Defined.

(** X4. With a transformer of the catalog and at least as many arguments
    as it declares, the only exceptions that [applyTransformer] can raise
    are its own two: the value, or a value inside it, is neither a string
    nor an array, or a string meets a transformer whose Target is
    'array'. *)
Theorem applyTransformer_catalog_errors :
  forall (pst : PSTransformer) (args : list string) (v : Value) (e : JSError),
    In pst PSTransformers ->
    length (Args pst) <= length args ->
    outcome (applyTransformer v (applied pst args)) = Err e ->
    e = not_string_nor_array \/ e = array_transformer_on_string.
Proof.
  intros pst args v e Hin Hargs He.
  destruct (applyTransformer_error_origin _ _ _ He) as [H | [H | [w [Hw Hf]]]];
    [left; exact H | right; exact H |].
  cbn [applied Transformer Arguments] in Hw, Hf.
  destruct (catalog_Func_returns pst w args Hin (well_targeted_has_shape _ _ Hw) Hargs)
    as [r [Hr _]].
  congruence.
Qed.

Lemma applyTransformer_catalog_errors_witness :
  outcome (applyTransformer (VArr [strings ["a"]; VStr "b"]) (applied sort_transformer []))
  = Err array_transformer_on_string
  /\ (array_transformer_on_string = not_string_nor_array
      \/ array_transformer_on_string = array_transformer_on_string).
Proof.
  split; [reflexivity |].
  exact (applyTransformer_catalog_errors sort_transformer []
           (VArr [strings ["a"]; VStr "b"]) array_transformer_on_string
           (or_intror (or_intror (or_intror (or_intror (or_intror (or_intror
              (or_intror (or_intror (or_introl eq_refl)))))))))
           (le_n 0) eq_refl).
Defined.

(** ** [split] and [join] *)

Lemma take_cons n c s : take (S n) (String c s) = String c (take n s).
Proof. reflexivity. Qed.

Lemma drop_cons n c s : drop (S n) (String c s) = drop n s.
Proof. reflexivity. Qed.

Lemma take_0 s : take 0 s = "".
Proof. destruct s; reflexivity. Qed.

Lemma drop_0 s : drop 0 s = s.
Proof. unfold drop. rewrite Nat.sub_0_r. apply substring_full. Qed.

(** The first occurrence cuts the string in three. *)
Lemma indexOf_cut sep s j :
  indexOf sep s = Some j ->
  s = take j s ++ sep ++ drop (j + String.length sep) s.
Proof.
  revert j. induction s as [| c s IH]; intros j; cbn [indexOf].
  - destruct (prefix sep "") eqn:Ep; [| discriminate].
    intros H. inversion H; subst. destruct sep; [reflexivity | discriminate].
  - destruct (prefix sep (String c s)) eqn:Ep.
    + intros H. inversion H; subst.
      destruct (prefix_split _ _ Ep) as [r Hr].
      rewrite Hr. cbn [Nat.add]. rewrite drop_app, take_0. reflexivity.
    + destruct (indexOf sep s) as [j' |]; [| discriminate].
      intros H. inversion H; subst.
      rewrite take_cons. cbn [Nat.add]. rewrite drop_cons. simpl.
      f_equal. apply IH. reflexivity.
Qed.

Lemma join_strings_cons sep x l :
  l <> [] -> join_strings sep (x :: l) = x ++ sep ++ join_strings sep l.
Proof. destruct l; [contradiction | reflexivity]. Qed.

Lemma split_string_from_nonempty fuel sep s : split_string_from fuel sep s <> [].
Proof. destruct fuel; simpl; [discriminate |]. destruct (indexOf sep s); discriminate. Qed.

Lemma join_split_from fuel sep :
  forall s, join_strings sep (split_string_from fuel sep s) = s.
Proof.
  induction fuel as [| fuel IH]; intros s; [reflexivity |].
  cbn [split_string_from]. destruct (indexOf sep s) as [j |] eqn:E; [| reflexivity].
  rewrite join_strings_cons by apply split_string_from_nonempty.
  rewrite IH. symmetry. apply indexOf_cut, E.
Qed.

Lemma join_code_units s : join_strings "" (code_units s) = s.
Proof.
  induction s as [| c [| d s] IH]; try reflexivity.
  change (code_units (String c (String d s)))
    with (String c "" :: code_units (String d s)).
  rewrite join_strings_cons by discriminate. rewrite IH. reflexivity.
Qed.

Lemma join_split_string sep s : join_strings sep (split_string sep s) = s.
Proof.
  unfold split_string. destruct (String.length sep =? 0)%nat eqn:E.
  - apply Nat.eqb_eq in E. destruct sep; [| discriminate]. apply join_code_units.
  - apply join_split_from.
Qed.

Lemma array_join_strings l sep : array_join (map VStr l) (Some sep) = join_strings sep l.
Proof. unfold array_join. rewrite map_map. simpl. rewrite map_id. reflexivity. Qed.

Lemma split_string_head sep s :
  s <> "" -> exists x l, split_string sep s = x :: l.
Proof.
  intros Hs. unfold split_string. destruct (String.length sep =? 0)%nat.
  - destruct s as [| c s]; [contradiction |]. simpl. eauto.
  - pose proof (split_string_from_nonempty (String.length s) sep s) as H.
    destruct (split_string_from (String.length s) sep s) as [| x l]; [contradiction | eauto].
Qed.

Lemma forEach_step_ok t ts v tr v' :
  applyTransformer v t = (tr, Ok v') ->
  forEach_step (t :: ts) v
  = ((tr ++ trace (forEach_step ts v'))%list, outcome (forEach_step ts v')).
Proof.
  intros H. cbn [forEach_step]. rewrite outputValue_step_spec, H.
  unfold bind. destruct (forEach_step ts v'); reflexivity.
Qed.

(** X5. Joining what [split] gives, with the same literal separator,
    gives the string back: as functions, and as a chain of the two
    transformers on a non-empty input, in which nothing is reported. *)
Theorem join_after_split :
  forall (v sep : string),
    includes "%w%" sep = false ->
    (exists pieces,
        split_Func (VStr v) [sep] = Ok (strings pieces)
        /\ join_Func (strings pieces) [sep] = Ok (VStr v))
    /\ (v <> "" ->
        outcome (outputValue v [applied split_transformer [sep];
                                applied join_transformer [sep]]) = Ok (VStr v)
        /\ alerts (trace (outputValue v [applied split_transformer [sep];
                                         applied join_transformer [sep]])) = []).
Proof.
  intros v sep Hw.
  assert (Hsplit : split_Func (VStr v) [sep] = Ok (strings (split_string sep v))).
  { unfold split_Func. cbn [arg nth_error]. rewrite Hw. reflexivity. }
  assert (Hjoin : join_Func (strings (split_string sep v)) [sep] = Ok (VStr v)).
  { unfold join_Func, strings. cbn [arg nth_error].
    rewrite array_join_strings, join_split_string. reflexivity. }
  split; [exists (split_string sep v); split; assumption |].
  intros Hv. rewrite (outputValue_nonempty v _ Hv).
  destruct (split_string_head sep v Hv) as [x [l Hx]].
  assert (H1 : applyTransformer (VStr v) (applied split_transformer [sep])
               = ([Invoke "split" (VStr v) [sep]], Ok (strings (split_string sep v)))).
  { rewrite applyTransformer_string.
    apply (invoke_total (applied split_transformer [sep]) (VStr v) _ Hsplit). }
  assert (H2 : applyTransformer (strings (split_string sep v)) (applied join_transformer [sep])
               = ([Invoke "join" (strings (split_string sep v)) [sep]], Ok (VStr v))).
  { assert (Ht : match map VStr (split_string sep v) with
                   | VStr _ :: _ => true
                   | _ => false
                   end = true) by (rewrite Hx; reflexivity).
    unfold strings at 1. rewrite applyTransformer_array, innermost_test, Ht.
    cbn [applied Transformer Target join_transformer].
    apply (invoke_total (applied join_transformer [sep]) (strings (split_string sep v)) _ Hjoin). }
  rewrite (forEach_step_ok _ _ _ _ _ H1), (forEach_step_ok _ _ _ _ _ H2).
  split; reflexivity.
Qed.

Lemma join_after_split_witness :
  includes "%w%" ", " = false
  /\ "a, b, , c" <> ""
  /\ outcome (outputValue "a, b, , c" [applied split_transformer [", "];
                                      applied join_transformer [", "]])
     = Ok (VStr "a, b, , c").
Proof.
  assert (Hne : "a, b, , c" <> "") by discriminate.
  split; [reflexivity | split; [exact Hne |]].
  exact (proj1 (proj2 (join_after_split "a, b, , c" ", " eq_refl) Hne)).
Defined.

(** ** [replace] *)

Lemma wildcard_pattern_greedy_only raw :
  forall skip, greedy_only (wildcard_pattern GreedyGroup skip raw) = true.
Proof.
  induction raw as [| c r IH]; intros skip; [reflexivity |].
  cbn [wildcard_pattern]. destruct skip; [| apply IH].
  destruct (prefix "%w%" (String c r)); simpl; apply IH.
Qed.

Lemma take_add k n s :
  k <= String.length s -> take (k + n) s = take k s ++ take n (drop k s).
Proof.
  revert s. induction k as [| k IH]; intros s Hk.
  - rewrite take_0, drop_0. reflexivity.
  - destruct s as [| c s]; [simpl in Hk; lia |].
    cbn [Nat.add]. rewrite !take_cons, drop_cons, IH by (simpl in Hk; lia). reflexivity.
Qed.

(** The greedy group gives to the rest of the pattern what is left after
    the [k] characters it keeps. *)
Lemma match_here_group p s cap caps n :
  match_here (GreedyGroup :: p) s = Some (cap :: caps, n) ->
  exists k n', k <= String.length s /\ cap = take k s /\ n = k + n'
               /\ match_here p (drop k s) = Some (caps, n').
Proof.
  cbn [match_here].
  set (greedy := fix greedy (s : string) : option (nat * (list string * nat)) :=
                   let stop := option_map (fun r => (O, r)) (match_here p s) in
                   match s with
                   | String _ s' =>
                       match greedy s' with
                       | Some (k, r) => Some (S k, r)
                       | None => stop
                       end
                   | EmptyString => stop
                   end).
  assert (Hg : forall s k r, greedy s = Some (k, r) ->
                 k <= String.length s /\ match_here p (drop k s) = Some r).
  { clear. induction s as [| c s IH]; intros k r H; cbn in H.
    - destruct (match_here p "") as [r' |] eqn:E'; [| discriminate].
      simpl in H. inversion H; subst. rewrite drop_0. split; [lia | exact E'].
    - destruct (greedy s) as [[k' r'] |] eqn:E.
      + inversion H; subst. destruct (IH _ _ eq_refl) as [Hk Hm].
        rewrite drop_cons. split; [simpl; lia | exact Hm].
      + destruct (match_here p (String c s)) as [r' |] eqn:E'; [| discriminate].
        simpl in H. inversion H; subst. rewrite drop_0. split; [lia | exact E']. }
  destruct (greedy s) as [[k [caps' n']] |] eqn:E; [| discriminate].
  intros H. inversion H; subst. destruct (Hg _ _ _ E) as [Hk Hm].
  exists k, n'. repeat split; assumption.
Qed.

Lemma match_here_group_captures p s caps n :
  match_here (GreedyGroup :: p) s = Some (caps, n) -> exists cap caps', caps = cap :: caps'.
Proof.
  cbn [match_here].
  match goal with |- context [match ?g s with _ => _ end] => destruct (g s) as [[k [c' n']] |] end;
    [| discriminate].
  intros H. inversion H. eauto.
Qed.

(** The text matched is the pattern with its captures in the place of the
    groups, and there is one capture for each group. *)
Lemma match_here_instantiates p :
  greedy_only p = true ->
  forall s caps n,
    match_here p s = Some (caps, n) ->
    n <= String.length s /\ length caps = group_count p /\ take n s = instantiate p caps.
Proof.
  induction p as [| t p IH]; intros Hp s caps n H.
  - inversion H; subst. rewrite take_0. repeat split. lia.
  - destruct t; simpl in Hp; try discriminate.
    + destruct s as [| d s]; simpl in H; [discriminate |].
      destruct (Ascii.eqb_spec c d) as [-> | _]; [| discriminate].
      destruct (match_here p s) as [[caps' n'] |] eqn:E; [| discriminate].
      inversion H; subst. destruct (IH Hp _ _ _ E) as [Hn [Hl Ht]].
      cbn [instantiate group_count]. rewrite take_cons, Ht.
      repeat split; [simpl; lia | exact Hl].
    + destruct (match_here_group_captures _ _ _ _ H) as [cap [caps' ->]].
      destruct (match_here_group _ _ _ _ _ H) as [k [n' [Hk [-> [-> Hm]]]]].
      destruct (IH Hp _ _ _ Hm) as [Hn [Hl Ht]].
      cbn [instantiate group_count length]. rewrite take_add, Ht by exact Hk.
      repeat split; [| rewrite Hl; reflexivity].
      assert (String.length (drop k s) = String.length s - k) as Hd.
      { clear - Hk. revert s Hk. induction k as [| k IHk]; intros s Hk.
        - rewrite drop_0. lia.
        - destruct s as [| c s]; [simpl in Hk; lia |]. rewrite drop_cons.
          rewrite IHk by (simpl in Hk; lia). reflexivity. }
      lia.
Qed.

(** X6. A pattern of [replace] that contains the token is compiled, for
    every text, to the pattern in which every other character matches
    itself and every token is a capturing group. A match has one capture
    for each token, in order, and the text matched is the pattern text with
    the captures in the place of the tokens: this is what $1, $2, ... of
    the replacement stand for. *)
Theorem replace_wildcard_captures :
  forall (pattern replacement v : string),
    includes "%w%" pattern = true ->
    let R := wildcard_pattern GreedyGroup 0 pattern in
    new_RegExp (replaceAll "%w%" greedy_text (escape_regex_chars pattern)) = Some R
    /\ replace_Func (VStr v) [pattern; replacement]
       = Ok (VStr (replace_regexp R replacement v))
    /\ (forall s caps n,
           match_here R s = Some (caps, n) ->
           n <= String.length s
           /\ length caps = group_count R
           /\ take n s = instantiate R caps).
Proof.
  intros pattern replacement v Hinc R.
  split; [apply replace_pattern_compiles |].
  split.
  - unfold replace_Func. cbn [arg nth_error]. rewrite Hinc, replace_pattern_compiles.
    reflexivity.
  - intros s caps n H.
    exact (match_here_instantiates R (wildcard_pattern_greedy_only pattern 0) s caps n H).
Qed.

Lemma replace_wildcard_captures_witness :
  includes "%w%" "%w%=%w%;" = true
  /\ replace_Func (VStr "k=v;x=y;") ["%w%=%w%;"; "$2:$1"]
     = Ok (VStr (replace_regexp (wildcard_pattern GreedyGroup 0 "%w%=%w%;") "$2:$1" "k=v;x=y;")).
Proof.
  split; [reflexivity |].
  exact (proj1 (proj2 (replace_wildcard_captures "%w%=%w%;" "$2:$1" "k=v;x=y;" eq_refl))).
Defined.

Lemma replaceAll_from_absent search template :
  forall s fuel before,
    includes search s = false ->
    replaceAll_from fuel search template before s = s.
Proof.
  induction s as [| c s IH]; intros fuel before H; destruct fuel as [| fuel]; try reflexivity;
    cbn [includes] in H; apply orb_false_iff in H; destruct H as [Hp Hi].
  - cbn [replaceAll_from]. rewrite Hp. reflexivity.
  - rewrite (replaceAll_from_pass _ _ _ _ _ _ Hp), IH by exact Hi. reflexivity.
Qed.

(** X7. A string in which the literal pattern does not occur is returned
    by [replace] as it is, whatever the replacement. *)
Theorem replace_without_occurrence :
  forall (v pattern replacement : string),
    includes "%w%" pattern = false ->
    includes pattern v = false ->
    replace_Func (VStr v) [pattern; replacement] = Ok (VStr v).
Proof.
  intros v pattern replacement Hw Hi.
  unfold replace_Func. cbn [arg nth_error]. rewrite Hw.
  unfold replaceAll. rewrite replaceAll_from_absent by exact Hi. reflexivity.
Qed.

Lemma replace_without_occurrence_witness :
  includes "%w%" "$&" = false
  /\ includes "$&" "price: 5$" = false
  /\ replace_Func (VStr "price: 5$") ["$&"; "x"] = Ok (VStr "price: 5$").
Proof.
  split; [reflexivity | split; [reflexivity |]].
  exact (replace_without_occurrence "price: 5$" "$&" "x" eq_refl eq_refl).
Defined.

(** ** [slice] *)

Lemma length_substring n m s :
  String.length (substring n m s) = Nat.min m (String.length s - n).
Proof.
  revert n m. induction s as [| c s IH]; intros n m.
  - destruct n, m; reflexivity.
  - destruct n as [| n].
    + destruct m as [| m]; [reflexivity |]. simpl. rewrite IH, Nat.sub_0_r. reflexivity.
    + simpl. apply IH.
Qed.

Lemma substring_zero n s : substring n 0 s = "".
Proof.
  revert n. induction s as [| c s IH]; intros [| n]; try reflexivity. simpl. apply IH.
Qed.

Lemma substring_cut n m s :
  n + m <= String.length s ->
  s = take n s ++ substring n m s ++ drop (n + m) s.
Proof.
  revert s. induction n as [| n IH]; intros s H.
  - rewrite take_0. cbn [Nat.add append].
    revert s H. induction m as [| m IHm]; intros s H.
    + rewrite drop_0. destruct s; reflexivity.
    + destruct s as [| c s]; [simpl in H; lia |].
      rewrite drop_cons. simpl substring. cbn [append]. f_equal.
      apply IHm. simpl in H. lia.
  - destruct s as [| c s]; [simpl in H; lia |].
    cbn [Nat.add]. rewrite take_cons, drop_cons. simpl substring. cbn [append]. f_equal.
    apply IH. simpl in H. lia.
Qed.

(** X8. [slice] returns the part of the string between the two clamped
    bounds, which is a part of the string at the position of the clamped
    start. When End does not read as a number, as when its field is left
    empty, the bound is 0 and the result is the empty string whatever Start
    is. *)
Theorem slice_Func_bounds :
  forall (v start end_ : string),
    let k := relative_index (parseInt start) (String.length v) in
    let final := relative_index (parseInt end_) (String.length v) in
    (exists r,
        slice_Func (VStr v) [start; end_] = Ok (VStr r)
        /\ String.length r = final - k
        /\ v = take k v ++ r ++ drop (k + String.length r) v)
    /\ (isNaN (parseInt end_) = true -> slice_Func (VStr v) [start; end_] = Ok (VStr "")).
Proof.
  intros v start end_ k final.
  pose proof (relative_index_le (parseInt start) (String.length v)) as Hk.
  pose proof (relative_index_le (parseInt end_) (String.length v)) as Hf.
  fold k in Hk. fold final in Hf.
  assert (Hlen : String.length (substring k (final - k) v) = final - k).
  { rewrite length_substring. lia. }
  split.
  - exists (substring k (final - k) v).
    split; [reflexivity | split; [exact Hlen |]].
    rewrite Hlen. apply substring_cut. lia.
  - intros Hnan. unfold slice_Func, parseInt_arg, string_slice. cbn [arg nth_error].
    destruct (parseInt end_); try discriminate.
    cbn [relative_index]. rewrite Nat.sub_0_l, substring_zero. reflexivity.
Qed.

Lemma slice_Func_bounds_witness :
  isNaN (parseInt "") = true
  /\ slice_Func (VStr "hello world") ["6"; ""] = Ok (VStr "").
Proof.
  split; [reflexivity |].
  exact (proj2 (slice_Func_bounds "hello world" "6" "") eq_refl).
Defined.

(** ** The codec, continued *)

Lemma map_JString_inj a b : map JString a = map JString b -> a = b.
Proof.
  revert b. induction a as [| x a IH]; intros [| y b] H; try discriminate; [reflexivity |].
  inversion H. f_equal. apply IH. assumption.
Qed.

Lemma records_wire_form p :
  forall q, map record_of p = map record_of q -> map wire_form p = map wire_form q.
Proof.
  induction p as [| t p IH]; intros [| u q] H; try discriminate; [reflexivity |].
  inversion H as [[Hi Ha Hr]]. apply map_JString_inj in Ha.
  cbn [map]. unfold wire_form at 1 3. rewrite Hi, Ha. f_equal. apply IH, Hr.
Qed.

Lemma encodeATL_records p :
  JSON_parse (encodeATL p) = Some (JArray (map record_of p)).
Proof. apply JSON_parse_records. Qed.

(** X9. The token of every pipeline, whatever its transformers and
    arguments, is JSON: it denotes the array of the records of the
    invocations, in order, each with the ID under [i] and the arguments
    under [a]. Two pipelines with the same token have the same IDs and
    arguments. *)
Theorem encodeATL_is_JSON :
  forall p : list PSTransformerWithArguments,
    JSON_parse (encodeATL p)
    = Some (JArray (map (fun t => JObject [ ("i", JString (ID (Transformer t)));
                                            ("a", JArray (map JString (Arguments t))) ]) p))
    /\ forall q, encodeATL p = encodeATL q -> map wire_form p = map wire_form q.
Proof.
  intros p. split; [apply encodeATL_records |].
  intros q H. apply records_wire_form.
  pose proof (encodeATL_records p) as Hp. rewrite H, encodeATL_records in Hp.
  inversion Hp. reflexivity.
Qed.

Lemma encodeATL_is_JSON_witness :
  encodeATL [applied trim_transformer []] = encodeATL [applied trim_transformer []]
  /\ map wire_form [applied trim_transformer []] = [("trim", [])].
Proof.
  split; [reflexivity |].
  exact (proj2 (encodeATL_is_JSON [applied trim_transformer []])
           [applied trim_transformer []] eq_refl).
Defined.

Lemma decodes_to_record t x :
  decodes_to (record_of t) x ->
  In (Transformer x) PSTransformers /\ wire_form x = wire_form t.
Proof.
  intros [Hin [Hi Ha]]. split; [exact Hin |].
  unfold record_of in Hi, Ha. simpl in Hi, Ha.
  inversion Hi as [Hid]. inversion Ha as [Hargs]. apply map_JString_inj in Hargs.
  unfold wire_form. rewrite Hid, Hargs. reflexivity.
Qed.

Lemma malformed_record_of t : malformed_record (record_of t) -> ~ known_ID (ID (Transformer t)).
Proof.
  intros [H | [H | [[a [Ha He]] | [i [Hi Hn]]]]] [pst [Hin Hid]].
  - discriminate.
  - exact (H _ eq_refl).
  - simpl in Ha. inversion Ha; subst a. clear Ha.
    induction (Arguments t) as [| x l IH]; inversion He; subst; [discriminate | auto].
  - simpl in Hi. inversion Hi; subst i. apply (Hn pst Hin). rewrite Hid. reflexivity.
Qed.

(** The records of a pipeline are inside the alphabet: the model tells
    what [decodeATL] does on them. *)
Lemma decode_record_of_inside t : exists r, decode_record (record_of t) = Inside r.
Proof.
  unfold decode_record, record_of. simpl property. cbv iota.
  rewrite all_strings_map. cbn [negb].
  destruct (find (ID_is (JString (ID (Transformer t)))) PSTransformers) as [tf |].
  - rewrite (proj2 (narrow_strings_spec _ (Arguments t)) eq_refl). eauto.
  - unfold decode_error. cbn [converts template_text]. eauto.
Qed.

Lemma decode_records_of_inside p : exists r, decode_records (map record_of p) = Inside r.
Proof.
  induction p as [| t p [r IH]]; [cbn [map decode_records]; eauto |].
  cbn [map decode_records]. destruct (decode_record_of_inside t) as [[x | e] ->]; [| eauto].
  rewrite IH. destruct r; eauto.
Qed.

(** X10. Decoding the token of a pipeline looks only at the IDs. When every
    ID is one of the catalog, it returns, for each invocation, the
    transformer of the catalog with that ID and the same arguments, also
    when the pipeline held another object under that ID. When some ID is
    not of the catalog, it raises. *)
Theorem decodeATL_encodeATL_by_ID :
  forall p : list PSTransformerWithArguments,
    (Forall (fun t => known_ID (ID (Transformer t))) p ->
     exists q, decodeATL (encodeATL p) = Inside (Ok q)
               /\ Forall (fun x => In (Transformer x) PSTransformers) q
               /\ map wire_form q = map wire_form p)
    /\ (Exists (fun t => ~ known_ID (ID (Transformer t))) p ->
        exists e, decodeATL (encodeATL p) = Inside (Err e)).
Proof.
  intros p. unfold decodeATL. rewrite encodeATL_records.
  pose proof (decode_records_spec (map record_of p)) as Hspec.
  destruct (decode_records_of_inside p) as [[q | e] Er]; rewrite Er in Hspec |- *.
  - destruct Hspec as [Hd Hn]. split.
    + intros _. exists q. split; [reflexivity |].
      clear Hn Er. revert q Hd. induction p as [| t p IH]; intros q Hd;
        inversion Hd as [| r x rs q' Hx Hq']; subst.
      * split; [constructor | reflexivity].
      * destruct (decodes_to_record _ _ Hx) as [Hin Hw].
        destruct (IH _ Hq') as [Hall Hmap].
        split; [constructor; assumption |]. cbn [map]. rewrite Hw, Hmap. reflexivity.
    + intros Hex. exfalso. apply Hn. clear - Hex.
      induction Hex as [t p Ht | t p _ IH]; cbn [map].
      * left. unfold malformed_record. right; right; right.
        exists (JString (ID (Transformer t))). split; [reflexivity |].
        intros pst Hin E. inversion E as [Hid]. apply Ht. exists pst. split; [exact Hin | auto].
      * right. exact IH.
  - split; [| intros _; exists e; reflexivity].
    intros Hall. exfalso. clear - Hall Hspec.
    induction Hall as [| t p Ht _ IH]; cbn [map] in Hspec;
      inversion Hspec as [r rs Hm | r rs Hm]; subst.
    + exact (malformed_record_of t Hm Ht).
    + exact (IH Hm).
Qed.

Lemma decodeATL_encodeATL_by_ID_witness :
  exists q,
    decodeATL (encodeATL [ {| Transformer :=
                               {| ID := "trim"; Target := Tarray; Return := Tarray;
                                  Name := "Other"; Description := ""; Icon := "";
                                  Func := reverse_Func; Args := [] |};
                             Arguments := ["x"] |} ]) = Inside (Ok q)
    /\ Forall (fun x => In (Transformer x) PSTransformers) q
    /\ map wire_form q = [("trim", ["x"])].
Proof.
  refine (proj1 (decodeATL_encodeATL_by_ID
                   [ {| Transformer :=
                          {| ID := "trim"; Target := Tarray; Return := Tarray;
                             Name := "Other"; Description := ""; Icon := "";
                             Func := reverse_Func; Args := [] |};
                        Arguments := ["x"] |} ]) _).
  constructor; [| constructor].
  exists trim_transformer. split; [simpl; tauto | reflexivity].
Defined.

Lemma decode_records_catalog p :
  forall ts, decode_records p = Inside (Ok ts) ->
             Forall (fun t => In (Transformer t) PSTransformers) ts.
Proof.
  intros ts H. pose proof (decode_records_spec p) as Hs. rewrite H in Hs.
  destruct Hs as [Hd _]. clear H.
  induction Hd as [| t x p ts [Hin _] _ IH]; [constructor | constructor; assumption].
Qed.

(** X11. A pipeline that [decodeATL] returns, with arguments inside the
    alphabet of the model, holds only transformers of the catalog, and its
    own token decodes to it again: what was loaded from a link can be
    shared again without change. The token may hold members that
    [decodeATL] does not read and texts outside the alphabet in them. *)
Theorem decoded_pipeline_is_stable :
  forall (token : string) (ts : list PSTransformerWithArguments),
    decodeATL token = Inside (Ok ts) ->
    Forall (fun t => In (Transformer t) PSTransformers) ts
    /\ decodeATL (encodeATL ts) = Inside (Ok ts).
Proof.
  intros token ts H.
  assert (Hcat : Forall (fun t => In (Transformer t) PSTransformers) ts).
  { unfold decodeATL in H.
    destruct (JSON_parse token) as [[| | | | p | | |] |]; try discriminate.
    exact (decode_records_catalog p ts H). }
  split; [exact Hcat |].
  unfold decodeATL. rewrite encodeATL_records. apply decode_records_of, Hcat.
Qed.

Lemma decoded_pipeline_is_stable_witness :
  decodeATL (" [ {" ++ quote "a" ++ ": [" ++ quote "," ++ "], " ++ quote "i" ++ " : "
             ++ quote "split" ++ ", " ++ quote_mark ++ "\u0100" ++ quote_mark
             ++ ": [" ++ quote_mark ++ "\ud83d\ude00" ++ quote_mark ++ ", 1.0]} ] ")
  = Inside (Ok [applied split_transformer [","]])
  /\ decodeATL (encodeATL [applied split_transformer [","]])
     = Inside (Ok [applied split_transformer [","]]).
Proof.
  split; [reflexivity |].
  exact (proj2 (decoded_pipeline_is_stable
                  (" [ {" ++ quote "a" ++ ": [" ++ quote "," ++ "], " ++ quote "i" ++ " : "
                   ++ quote "split" ++ ", " ++ quote_mark ++ "\u0100" ++ quote_mark
                   ++ ": [" ++ quote_mark ++ "\ud83d\ude00" ++ quote_mark ++ ", 1.0]} ] ")
                  [applied split_transformer [","]] eq_refl)).
Defined.

Lemma reverse_body_run v : reverse_body 0 [v] = (1%nat, [v; rev v]).
Proof. reflexivity. Qed.

(** X12. [reverse] leaves the array it receives as it is and returns a new
    array with the same elements in the opposite order; reversing the
    result gives the elements in their first order again. *)
Theorem reverse_Func_involutive :
  forall (v : list Value) (args args' : list string),
    reverse_body 0 [v] = (1%nat, [v; rev v])
    /\ (exists r, reverse_Func (VArr v) args = Ok (VArr r)
                  /\ length r = length v
                  /\ (forall i, i < length v ->
                        nth_error r i = nth_error v (length v - 1 - i))
                  /\ reverse_Func (VArr r) args' = Ok (VArr v)).
Proof.
  intros v args args'. split; [reflexivity |].
  exists (rev v). split; [reflexivity |].
  split; [apply length_rev |].
  split.
  - intros i Hi. rewrite nth_error_rev.
    destruct (Nat.ltb_spec i (length v)); [| lia].
    f_equal. lia.
  - unfold reverse_Func, run_on_array. rewrite reverse_body_run. simpl nth.
    rewrite rev_involutive. reflexivity.
Qed.

Lemma reverse_Func_involutive_witness :
  2 < length (map VStr ["a"; "b"; "c"])
  /\ nth_error (rev (map VStr ["a"; "b"; "c"])) 2 = Some (VStr "a").
Proof.
  split; [simpl; lia |].
  destruct (proj2 (reverse_Func_involutive (map VStr ["a"; "b"; "c"]) [] []))
    as [r [Hr [_ [Hn _]]]].
  inversion Hr; subst r.
  exact (Hn 2 ltac:(simpl; lia)).
Defined.

Section StableSortAgain.
Context {K : Type} (ltK : K -> K -> bool).
Variable cmp : Value -> Value -> Z.
Variable key : Value -> K.
Variable P : Value -> Prop.
Hypothesis cmp_key : forall x y, P x -> P y -> (0 <? cmp x y)%Z = ltK (key y) (key x).

(** Sorting a sorted array changes nothing. *)
Lemma stable_sort_of_sorted l :
  Forall P l -> StronglySorted (key_le ltK key) l -> stable_sort cmp l = l.
Proof.
  intros HP Hs. induction Hs as [| x l Hs IH Hx]; [reflexivity |].
  inversion HP as [| ? ? Px Pl]; subst.
  cbn [stable_sort fold_right]. fold (stable_sort cmp l). rewrite (IH Pl).
  destruct l as [| y l]; [reflexivity |].
  cbn [insert_sorted].
  inversion Pl as [| ? ? Py _]; subst. inversion Hx as [| ? ? Hxy _]; subst.
  rewrite (cmp_key x y Px Py). unfold key_le in Hxy. rewrite Hxy. reflexivity.
Qed.
End StableSortAgain.

Lemma filter_defined_app (s u : list Value) :
  Forall (fun x => is_undefined x = false) s ->
  Forall (fun x => is_undefined x = true) u ->
  filter (fun x => negb (is_undefined x)) (s ++ u) = s
  /\ filter is_undefined (s ++ u) = u.
Proof.
  intros Hs Hu. rewrite !filter_app.
  assert (E1 : filter (fun x => negb (is_undefined x)) s = s).
  { clear - Hs.
    induction Hs as [| x s Hx _ IH]; simpl; [reflexivity | rewrite Hx, IH; reflexivity]. }
  assert (E2 : filter is_undefined s = []).
  { clear - Hs. induction Hs as [| x s Hx _ IH]; simpl; [reflexivity | rewrite Hx, IH; reflexivity]. }
  assert (E3 : filter (fun x => negb (is_undefined x)) u = []).
  { clear - Hu. induction Hu as [| x u Hx _ IH]; simpl; [reflexivity | rewrite Hx, IH; reflexivity]. }
  assert (E4 : filter is_undefined u = u).
  { clear - Hu. induction Hu as [| x u Hx _ IH]; simpl; [reflexivity | rewrite Hx, IH; reflexivity]. }
  rewrite E1, E2, E3, E4, app_nil_r. split; reflexivity.
Qed.

Lemma Forall_filter {A} (p : A -> bool) (l : list A) : Forall (fun x => p x = true) (filter p l).
Proof. apply Forall_forall. intros x Hx. apply filter_In in Hx. apply Hx. Qed.

Lemma sort_elements_again {K} (ltK : K -> K -> bool) cmp key (P : Value -> Prop) v :
  (forall a, ltK a a = false) ->
  (forall a b c, ltK a b = true -> ltK b c = true -> ltK a c = true) ->
  (forall a b, ltK a b = false -> ltK b a = false -> a = b) ->
  (forall x y, P x -> P y -> (0 <? cmp x y)%Z = ltK (key y) (key x)) ->
  Forall P (filter (fun x => negb (is_undefined x)) v) ->
  sort_elements cmp (sort_elements cmp v) = sort_elements cmp v.
Proof.
  intros Hirr Htr Htot Hkey HP.
  set (d := filter (fun x => negb (is_undefined x)) v) in *.
  pose proof (stable_sort_perm cmp d) as Hperm.
  assert (HPs : Forall P (stable_sort cmp d)).
  { eapply Permutation_Forall; [symmetry; exact Hperm | exact HP]. }
  assert (Hdef : Forall (fun x => is_undefined x = false) (stable_sort cmp d)).
  { eapply Permutation_Forall; [symmetry; exact Hperm |].
    eapply Forall_impl; [| apply (Forall_filter (fun x => negb (is_undefined x)) v)].
    intros x Hx. apply negb_true_iff, Hx. }
  destruct (filter_defined_app _ _ Hdef (Forall_filter is_undefined v)) as [E1 E2].
  unfold sort_elements at 1. fold d.
  unfold sort_elements. fold d. rewrite E1, E2.
  rewrite (stable_sort_of_sorted ltK cmp key P Hkey _ HPs
             (stable_sort_sorted ltK Hirr Htr Htot cmp key P Hkey d HP)).
  reflexivity.
Qed.

Lemma isAllInt_perm v w : Permutation v w -> isAllInt v = isAllInt w.
Proof.
  unfold isAllInt. induction 1 as [| x l l' _ IH | x y l | l l' l'' _ IH1 _ IH2]; simpl.
  - reflexivity.
  - rewrite IH. reflexivity.
  - destruct (negb (isNaN (number_of x))), (negb (isNaN (number_of y))); reflexivity.
  - congruence.
Qed.

(** X13. Sorting what [sort] returned returns it again: [sort] changes
    nothing in an array that it has sorted. *)
Theorem sort_Func_idempotent :
  forall (v : list Value) (args args' : list string),
    exists r, sort_Func (VArr v) args = Ok (VArr r)
              /\ sort_Func (VArr r) args' = Ok (VArr r).
Proof.
  intros v args args'.
  set (cmp := if isAllInt v then compare_numeric else compare_default).
  exists (sort_elements cmp v).
  assert (Hrun : forall w a, sort_Func (VArr w) a
                 = Ok (VArr (sort_elements (if isAllInt w then compare_numeric
                                            else compare_default) w))).
  { intros w a. unfold sort_Func, run_on_array. rewrite sort_body_run. reflexivity. }
  split; [apply Hrun |].
  rewrite Hrun, (isAllInt_perm _ _ (sort_elements_perm cmp v)). fold cmp.
  do 2 f_equal. unfold cmp. destruct (isAllInt v) eqn:Hall.
  - apply isAllInt_Forall in Hall.
    apply (sort_elements_again Z.ltb compare_numeric (fun x => rank (number_of x))
             (fun x => isNaN (number_of x) = false) v
             Z.ltb_irrefl Z_ltb_trans Z_ltb_total).
    + intros x y Hx Hy. apply compare_numeric_key; assumption.
    + rewrite (proj1 (numbers_are_defined v Hall)). exact Hall.
  - apply (sort_elements_again String.ltb compare_default toString (fun _ => True) v
             string_ltb_irrefl string_ltb_trans string_ltb_total).
    + intros x y _ _. apply compare_default_key.
    + apply Forall_forall. intros; exact I.
Qed.

(** ** Editing the chain *)

Lemma filter_indexed_all {A} (l : list A) k j :
  k < j \/ j + length l <= k ->
  filter_indexed (fun _ i => negb (i =? k)%nat) j l = l.
Proof.
  revert j. induction l as [| x l IH]; intros j H; [reflexivity |].
  cbn [filter_indexed]. destruct (Nat.eqb_spec j k); [simpl in H; lia |].
  cbn [negb]. rewrite IH by (simpl in H; lia). reflexivity.
Qed.

Lemma filter_indexed_one {A} (l : list A) i j :
  i < length l ->
  filter_indexed (fun _ n => negb (n =? j + i)%nat) j l = (firstn i l ++ skipn (S i) l)%list.
Proof.
  revert i j. induction l as [| x l IH]; intros i j H; [simpl in H; lia |].
  cbn [filter_indexed]. destruct i as [| i].
  - rewrite Nat.add_0_r, Nat.eqb_refl. cbn [negb firstn skipn app].
    apply filter_indexed_all. left. lia.
  - destruct (Nat.eqb_spec j (j + S i)); [lia |]. cbn [negb firstn skipn app].
    f_equal. replace (j + S i) with (S j + i) by lia. apply IH. simpl in H. lia.
Qed.

Lemma list_set_last {A} (l : list A) x y : list_set (length l) y (l ++ [x]) = (l ++ [y])%list.
Proof. induction l as [| z l IH]; simpl; [reflexivity | rewrite IH; reflexivity]. Qed.

(** X14. Editing the chain. Deleting at a position of the chain removes
    the invocation at that position and keeps the others in order; at any
    other index it changes nothing. Deleting the invocation that was just
    added gives the chain from before, and updating it gives the chain to
    which it would have been added with the new arguments. Updating at an
    index that is not a position raises. *)
Theorem editing_the_chain :
  forall (ts : list PSTransformerWithArguments) (t : PSTransformer)
         (args args' : list string) (i : nat),
    (i < length ts ->
     deleteTransformer i ts = (firstn i ts ++ skipn (S i) ts)%list
     /\ length (deleteTransformer i ts) = length ts - 1)
    /\ (length ts <= i ->
        deleteTransformer i ts = ts
        /\ is_Ok (updateTransformer i args ts) = false)
    /\ deleteTransformer (length ts) (addTransformer t args ts) = ts
    /\ updateTransformer (length ts) args' (addTransformer t args ts)
       = Ok (addTransformer t args' ts).
Proof.
  intros ts t args args' i.
  assert (Hdel : forall l k, k < length l ->
            deleteTransformer k l = (firstn k l ++ skipn (S k) l)%list).
  { intros l k Hk. unfold deleteTransformer.
    exact (filter_indexed_one l k 0 Hk). }
  split; [| split; [| split]].
  - intros Hi. split; [apply Hdel, Hi |].
    rewrite (Hdel _ _ Hi), length_app, length_firstn, length_skipn. lia.
  - intros Hi. split.
    + unfold deleteTransformer. apply filter_indexed_all. right. lia.
    + unfold updateTransformer.
      rewrite (proj2 (nth_error_None ts i) Hi). reflexivity.
  - unfold addTransformer. rewrite Hdel by (rewrite length_app; simpl; lia).
    rewrite firstn_app, Nat.sub_diag, firstn_all. cbn [firstn].
    rewrite skipn_all2 by (rewrite length_app; simpl; lia).
    rewrite !app_nil_r. reflexivity.
  - unfold updateTransformer, addTransformer.
    rewrite nth_error_app2, Nat.sub_diag by lia. cbn [nth_error Transformer].
    rewrite list_set_last. reflexivity.
Qed.

Lemma editing_the_chain_witness :
  1 < length [applied trim_transformer []; applied split_transformer [","];
              applied join_transformer ["-"]]
  /\ deleteTransformer 1 [applied trim_transformer []; applied split_transformer [","];
                          applied join_transformer ["-"]]
     = [applied trim_transformer []; applied join_transformer ["-"]].
Proof.
  split; [simpl; lia |].
  exact (proj1 (proj1 (editing_the_chain
                         [applied trim_transformer []; applied split_transformer [","];
                          applied join_transformer ["-"]]
                         trim_transformer [] [] 1) ltac:(simpl; lia))).
Defined.

Lemma bind_assoc {A B C} (m : M A) (f : A -> M B) (g : B -> M C) :
  bind (bind m f) g = bind m (fun a => bind (f a) g).
Proof.
  destruct m as [tr [a | e]]; [| reflexivity].
  unfold bind. destruct (f a) as [tr' [b | e]]; [| reflexivity].
  destruct (g b) as [tr'' r]. rewrite app_assoc. reflexivity.
Qed.

Lemma forEach_step_app pre post v :
  forEach_step (pre ++ post) v = bind (forEach_step pre v) (forEach_step post).
Proof.
  revert v. induction pre as [| t pre IH]; intros v; cbn [app forEach_step].
  - unfold bind, ret. destruct (forEach_step post v). reflexivity.
  - rewrite bind_assoc.
    destruct (outputValue_step v t) as [tr [a | e]]; [| reflexivity].
    unfold bind at 1 3. rewrite IH. reflexivity.
Qed.

(** X15. Adding a transformer to the chain. On a non-empty input the
    chain with one more invocation gives what the new invocation gives on
    the output of the chain before: its result when it returns; when it
    throws, the output of before and one more alert. The invocations and
    the alerts of the chain before are repeated first. *)
Theorem outputValue_after_addTransformer :
  forall (InputValue : string) (ts : list PSTransformerWithArguments)
         (t : PSTransformer) (args : list string),
    InputValue <> "" ->
    exists v,
      outcome (outputValue InputValue ts) = Ok v
      /\ outputValue InputValue (addTransformer t args ts)
         = match applyTransformer v (applied t args) with
           | (tr, Ok v') => ((trace (outputValue InputValue ts) ++ tr)%list, Ok v')
           | (tr, Err e) =>
               ((trace (outputValue InputValue ts) ++ tr
                   ++ [Alert (alert_message (applied t args) e)])%list, Ok v)
           end.
Proof.
  intros InputValue ts t args Hne.
  rewrite !(outputValue_nonempty _ _ Hne). unfold addTransformer.
  rewrite forEach_step_app.
  destruct (forEach_step_fold ts (VStr InputValue)) as [Ho _].
  destruct (forEach_step ts (VStr InputValue)) as [tr r]. simpl in Ho. subst r.
  exists (fold_skipping_failures ts (VStr InputValue)). split; [reflexivity |].
  unfold bind at 1. cbn [forEach_step trace fst]. fold (applied t args).
  rewrite outputValue_step_spec.
  destruct (applyTransformer (fold_skipping_failures ts (VStr InputValue)) (applied t args))
    as [tr' [v' | e]]; unfold bind, ret; rewrite ?app_nil_r; reflexivity.
Qed.

Lemma outputValue_after_addTransformer_witness :
  "a,b" <> ""
  /\ exists v,
      outcome (outputValue "a,b" [applied split_transformer [","]]) = Ok v
      /\ outputValue "a,b"
           (addTransformer join_transformer ["-"] [applied split_transformer [","]])
         = match applyTransformer v (applied join_transformer ["-"]) with
           | (tr, Ok v') =>
               ((trace (outputValue "a,b" [applied split_transformer [","]]) ++ tr)%list,
                Ok v')
           | (tr, Err e) =>
               ((trace (outputValue "a,b" [applied split_transformer [","]]) ++ tr
                   ++ [Alert (alert_message (applied join_transformer ["-"]) e)])%list,
                Ok v)
           end.
Proof.
  split; [discriminate |].
  apply (outputValue_after_addTransformer "a,b" [applied split_transformer [","]]
           join_transformer ["-"]).
  discriminate.
Defined.

(** ** The statistics *)

Lemma line_break_matches_cons c s :
  line_break_matches (String c s)
  = if (Ascii.eqb c CR && starts_with_LF s)%bool
    then CRLF_text :: line_break_matches (drop 1 s)
    else if Ascii.eqb c LF then LF_text :: line_break_matches s
         else line_break_matches s.
Proof.
  destruct s as [| d s].
  - cbn [line_break_matches starts_with_LF]. rewrite Bool.andb_false_r. reflexivity.
  - rewrite drop_cons, drop_0. reflexivity.
Qed.

Lemma count_LF_cons c s :
  count_LF (String c s) = (if Ascii.eqb c LF then 1 else 0) + count_LF s.
Proof. reflexivity. Qed.

Lemma count_CRLF_cons c s :
  count_CRLF (String c s)
  = (if (Ascii.eqb c CR && starts_with_LF s)%bool then 1 else 0) + count_CRLF s.
Proof. reflexivity. Qed.

Lemma line_break_matches_counts n :
  forall s, String.length s <= n ->
    length (line_break_matches s) = count_LF s
    /\ length (filter (fun c => String.eqb c LF_text) (line_break_matches s))
       + count_CRLF s = count_LF s.
Proof.
  induction n as [| n IH]; intros s Hn.
  - destruct s; [split; reflexivity | simpl in Hn; lia].
  - destruct s as [| c s']; [split; reflexivity |].
    assert (Hs' : String.length s' <= n) by (simpl in Hn; lia).
    destruct (IH s' Hs') as [H1 H2].
    rewrite line_break_matches_cons, count_LF_cons, count_CRLF_cons.
    destruct (Ascii.eqb c CR && starts_with_LF s')%bool eqn:E.
    + apply andb_prop in E. destruct E as [Ec El].
      destruct s' as [| d s'']; [discriminate |]. cbn [starts_with_LF] in El.
      apply Ascii.eqb_eq in Ec. apply Ascii.eqb_eq in El. subst c d.
      rewrite drop_cons, drop_0.
      assert (Hs'' : String.length s'' <= n) by (simpl in Hs'; lia).
      destruct (IH s'' Hs'') as [G1 G2].
      rewrite (count_LF_cons LF), (count_CRLF_cons LF).
      change (Ascii.eqb CR LF) with false. change (Ascii.eqb LF LF) with true.
      change (Ascii.eqb LF CR) with false.
      cbn [andb length filter]. change (String.eqb CRLF_text LF_text) with false.
      cbv iota. split; lia.
    + destruct (Ascii.eqb c LF).
      * cbn [length filter]. change (String.eqb LF_text LF_text) with true.
        cbv iota. cbn [length]. split; lia.
      * split; [exact H1 | exact H2].
Qed.

Lemma indexOf_LF c s :
  indexOf LF_text (String c s)
  = if Ascii.eqb c LF then Some 0 else option_map S (indexOf LF_text s).
Proof.
  cbn [indexOf]. unfold LF_text at 1. cbn [prefix].
  destruct (ascii_dec LF c) as [<- | Hn].
  - change (Ascii.eqb LF LF) with true. destruct s; reflexivity.
  - destruct (Ascii.eqb_spec c LF) as [-> | _]; [contradiction | reflexivity].
Qed.

Lemma indexOf_LF_none s : indexOf LF_text s = None -> count_LF s = 0.
Proof.
  induction s as [| c s IH]; [reflexivity |].
  rewrite indexOf_LF. cbn [count_LF].
  destruct (Ascii.eqb c LF); [discriminate |].
  destruct (indexOf LF_text s); [discriminate |]. intros _. exact (IH eq_refl).
Qed.

Lemma indexOf_LF_some s :
  forall j, indexOf LF_text s = Some j ->
    count_LF s = S (count_LF (drop (j + 1) s))
    /\ String.length (drop (j + 1) s) < String.length s.
Proof.
  induction s as [| c s IH]; intros j; [discriminate |].
  rewrite indexOf_LF. cbn [count_LF].
  destruct (Ascii.eqb c LF).
  - intros H. inversion H; subst j. cbn [Nat.add]. rewrite drop_cons, drop_0.
    split; [reflexivity | simpl; lia].
  - destruct (indexOf LF_text s) as [k |]; [| discriminate].
    intros H. inversion H; subst j. cbn [Nat.add]. rewrite drop_cons.
    destruct (IH k eq_refl) as [H1 H2]. split; [exact H1 | simpl; lia].
Qed.

Lemma split_LF_length fuel :
  forall s, String.length s <= fuel ->
    length (split_string_from fuel LF_text s) = S (count_LF s).
Proof.
  induction fuel as [| fuel IH]; intros s Hf.
  - destruct s; [reflexivity | simpl in Hf; lia].
  - cbn [split_string_from]. destruct (indexOf LF_text s) as [j |] eqn:E.
    + destruct (indexOf_LF_some s j E) as [H1 H2].
      cbn [length]. change (String.length LF_text) with 1.
      rewrite IH by lia. rewrite H1. reflexivity.
    + rewrite (indexOf_LF_none s E). reflexivity.
Qed.

Lemma linesCount_spec s : length (split_string LF_text s) = S (count_LF s).
Proof.
  unfold split_string. change (String.length LF_text =? 0)%nat with false.
  cbv iota. apply split_LF_length. lia.
Qed.

Lemma detect_line_break_control_spec s :
  detect_line_break_control s
  = if (count_LF s =? 0)%nat then ""
    else if (2 * count_CRLF s <=? count_LF s)%nat then "LF" else "CRLF".
Proof.
  destruct (line_break_matches_counts (String.length s) s (Nat.le_refl _)) as [H1 H2].
  unfold detect_line_break_control, match_line_breaks.
  destruct (line_break_matches s) as [| m ms] eqn:E.
  - simpl in H1. rewrite <- H1. reflexivity.
  - assert (Hpos : count_LF s <> 0) by (rewrite <- H1; simpl; lia).
    rewrite <- E in H1, H2 |- *. cbv zeta. rewrite H1.
    destruct (Nat.eqb_spec (count_LF s) 0) as [H0 | _]; [contradiction |].
    remember (length (filter (fun c => String.eqb c LF_text) (line_break_matches s))) as lf.
    destruct (Nat.leb_spec (count_LF s - lf) lf), (Nat.leb_spec (2 * count_CRLF s) (count_LF s));
      try reflexivity; lia.
Qed.

(** X16. The statistics of the input. The number of lines is one more
    than the number of line feeds of the input, and the number of
    characters is its length. The line break control is empty when the
    input has no line feed; otherwise it is CRLF when more than half of
    the line feeds follow a carriage return, and LF when not. *)
Theorem inputStats_counts :
  forall InputValue : string,
    linesCount (inputStats InputValue) = S (count_LF InputValue)
    /\ charCount (inputStats InputValue) = String.length InputValue
    /\ lineBreakControl (inputStats InputValue)
       = (if (count_LF InputValue =? 0)%nat then ""
          else if (2 * count_CRLF InputValue <=? count_LF InputValue)%nat
               then "LF" else "CRLF")
    /\ (lineBreakControl (inputStats InputValue) = ""
        <-> linesCount (inputStats InputValue) = 1).
Proof.
  intros s. cbn [inputStats linesCount charCount lineBreakControl].
  rewrite linesCount_spec, detect_line_break_control_spec.
  repeat split; try reflexivity.
  - destruct (Nat.eqb_spec (count_LF s) 0) as [H0 | H0]; [intros _; lia |].
    destruct (2 * count_CRLF s <=? count_LF s)%nat; discriminate.
  - intros H. destruct (Nat.eqb_spec (count_LF s) 0) as [H0 | H0]; [reflexivity | lia].
Qed.

Lemma list_sum_cons a l : list_sum (a :: l) = a + list_sum l.
Proof. reflexivity. Qed.

Lemma fold_left_reduceFunc l :
  Forall (fun x => forall count, reduceFunc count x = count + non_arrays x) l ->
  forall a, fold_left reduceFunc l a = a + list_sum (map non_arrays l).
Proof.
  induction 1 as [| x l Hx _ IH]; intros a; cbn [fold_left map].
  - simpl. lia.
  - rewrite list_sum_cons, IH, Hx. lia.
Qed.

Lemma reduceFunc_spec v : forall count, reduceFunc count v = count + non_arrays v.
Proof.
  induction v as [s | l IH |] using Value_nested_ind; intros count; try reflexivity.
  cbn [reduceFunc non_arrays]. rewrite (fold_left_reduceFunc l IH). reflexivity.
Qed.

Lemma elementsTotalCount_spec l :
  elementsTotalCount (VArr l) = list_sum (map non_arrays l).
Proof.
  cbn [elementsTotalCount]. rewrite fold_left_reduceFunc; [reflexivity |].
  apply Forall_forall. intros x _. apply reduceFunc_spec.
Qed.

Lemma outcome_bind_ok {A B} (m : M A) (f : A -> M B) b :
  outcome (bind m f) = Ok b -> exists a, outcome m = Ok a /\ outcome (f a) = Ok b.
Proof.
  destruct m as [tr [a | e]]; [| discriminate].
  unfold bind, outcome. destruct (f a) as [tr' r] eqn:E. simpl. intros H.
  exists a. rewrite E. split; [reflexivity | exact H].
Qed.

Lemma outcome_array_map_ok {A B} (f : A -> M B) (l : list A) :
  forall r, outcome (array_map f l) = Ok r ->
    Forall2 (fun x y => outcome (f x) = Ok y) l r.
Proof.
  induction l as [| x l IH]; intros r; simpl.
  - intros H. inversion H. constructor.
  - intros H. apply outcome_bind_ok in H. destruct H as [y [Hy H]].
    apply outcome_bind_ok in H. destruct H as [ys [Hys H]].
    inversion H. constructor; [exact Hy | apply IH, Hys].
Qed.

Lemma string_target_keeps_the_arrays t :
  Target (Transformer t) = Tstring ->
  (forall s r, Func (Transformer t) (VStr s) (Arguments t) = Ok r -> exists s', r = VStr s') ->
  forall v v', outcome (applyTransformer v t) = Ok v' ->
    non_arrays v' = non_arrays v
    /\ elementsCount v' = elementsCount v
    /\ elementsTotalCount v' = elementsTotalCount v.
Proof.
  intros Ht Hf.
  induction v as [s | l IH |] using Value_nested_ind; intros v' H.
  - rewrite applyTransformer_string, Ht, outcome_invoke in H.
    destruct (Hf s v' H) as [s' ->]. repeat split; reflexivity.
  - rewrite applyTransformer_array, Ht in H.
    apply outcome_bind_ok in H. destruct H as [r [Hr H]]. inversion H; subst v'.
    clear H. apply outcome_array_map_ok in Hr.
    rewrite !elementsTotalCount_spec. cbn [non_arrays elementsCount].
    enough (G : list_sum (map non_arrays r) = list_sum (map non_arrays l)
                /\ length r = length l) by (destruct G as [G1 G2]; auto).
    induction Hr as [| x y l r Hxy _ IHr]; [split; reflexivity |].
    inversion IH as [| ? ? Hx Hl]; subst.
    destruct (IHr Hl) as [E1 E2]. destruct (Hx y Hxy) as [E3 _].
    cbn [map length]. rewrite !list_sum_cons. split; lia.
  - discriminate.
Qed.

(** X17. The element counts of the output. The total count of an array
    is the number of its values that are not arrays, at any depth. A
    transformer of the catalog that takes a string and returns a string,
    when it applies to a value, leaves both counts as they were. *)
Theorem element_counts :
  (forall l, elementsTotalCount (VArr l) = list_sum (map non_arrays l))
  /\ (forall (pst : PSTransformer) (args : list string) (v v' : Value),
        In pst PSTransformers ->
        Target pst = Tstring ->
        Return pst = Tstring ->
        length (Args pst) <= length args ->
        outcome (applyTransformer v (applied pst args)) = Ok v' ->
        elementsCount v' = elementsCount v
        /\ elementsTotalCount v' = elementsTotalCount v).
Proof.
  split; [exact elementsTotalCount_spec |].
  intros pst args v v' Hin Ht Hr Hargs H.
  assert (Hf : forall s r,
             Func (Transformer (applied pst args)) (VStr s) (Arguments (applied pst args)) = Ok r ->
             exists s', r = VStr s').
  { intros s r E. cbn [applied Transformer Arguments] in E.
    destruct (catalog_Func_returns pst (VStr s) args Hin) as [r' [E' Hs]];
      [rewrite Ht; reflexivity | exact Hargs |].
    rewrite E in E'. inversion E'; subst r'. rewrite Hr in Hs.
    destruct r as [s' | |]; try discriminate. exists s'. reflexivity. }
  destruct (string_target_keeps_the_arrays (applied pst args) Ht Hf v v' H) as [_ [E2 E3]].
  split; [exact E2 | exact E3].
Qed.

Lemma element_counts_witness :
  elementsCount (VArr [VStr "a"; VArr [VStr "b"; VStr "c"]]) = 2
  /\ elementsTotalCount (VArr [VStr "a"; VArr [VStr "b"; VStr "c"]]) = 3.
Proof.
  assert (H : outcome (applyTransformer (VArr [VStr " a"; VArr [VStr "b "; VStr "c"]])
                         (applied trim_transformer []))
              = Ok (VArr [VStr "a"; VArr [VStr "b"; VStr "c"]])) by reflexivity.
  destruct (proj2 element_counts trim_transformer [] _ _
              ltac:(simpl; tauto) eq_refl eq_refl ltac:(simpl; lia) H) as [E1 E2].
  rewrite E1, E2. split; reflexivity.
Defined.

(** ** The formatted output *)

Lemma skip_ws_spaces k x : skip_ws (spaces k ++ x) = skip_ws x.
Proof. induction k as [| k IH]; [reflexivity | exact IH]. Qed.

Lemma skip_ws_line k x : skip_ws (LF_text ++ spaces k ++ x) = skip_ws x.
Proof. exact (skip_ws_spaces k x). Qed.

Lemma spaces_add a b : spaces a ++ spaces b = spaces (a + b).
Proof. induction a as [| a IH]; [reflexivity | simpl; rewrite IH; reflexivity]. Qed.

Lemma parse_value_skip fuel s s' :
  skip_ws s = skip_ws s' -> parse_value fuel s = parse_value fuel s'.
Proof. intros H. destruct fuel; [reflexivity |]. cbn [parse_value]. rewrite H. reflexivity. Qed.

Lemma parse_elements_skip fuel s s' :
  skip_ws s = skip_ws s' -> parse_elements fuel s = parse_elements fuel s'.
Proof.
  intros H. destruct fuel; [reflexivity |]. cbn [parse_elements].
  rewrite (parse_value_skip fuel s s' H). reflexivity.
Qed.

Lemma parse_value_array fuel r c x :
  skip_ws r = String c x -> c <> "]"%char ->
  parse_value (S fuel) (String "[" r)
  = match parse_elements fuel r with
    | Some (l, r') => Some (JArray l, r')
    | None => None
    end.
Proof.
  intros H Hc. cbn [parse_value skip_ws].
  change (is_json_space "[") with false. cbv iota.
  change (Ascii.eqb "[" "[") with true. cbv iota. rewrite H.
  destruct c as [[] [] [] [] [] [] [] []]; try reflexivity.
  exfalso. apply Hc. reflexivity.
Qed.

Lemma parse_value_empty_array fuel rest :
  parse_value (S fuel) ("[]" ++ rest) = Some (JArray [], rest).
Proof. reflexivity. Qed.

Lemma parse_value_null fuel rest :
  parse_value (S fuel) ("null" ++ rest) = Some (JNull, rest).
Proof.
  assert (Hp : prefix "null" (String "n" ("ull" ++ rest)) = true) by (destruct rest; reflexivity).
  assert (Hd : drop 4 (String "n" ("ull" ++ rest)) = rest) by (apply (drop_app "null")).
  change ("null" ++ rest) with (String "n" ("ull" ++ rest)).
  cbn [parse_value skip_ws].
  change (is_json_space "n") with false. cbv iota.
  change (Ascii.eqb "n" "[") with false.
  change (Ascii.eqb "n" "{") with false.
  change (Ascii.eqb "n" quote_char) with false. cbv iota.
  change (prefix "true" (String "n" ("ull" ++ rest))) with false.
  change (prefix "false" (String "n" ("ull" ++ rest))) with false. cbv iota.
  rewrite Hp, Hd. reflexivity.
Qed.

Lemma serialized_head gap indent v rest :
  exists c x,
    SerializeJSONProperty gap indent v ++ rest = String c x
    /\ is_json_space c = false /\ c <> "]"%char.
Proof.
  destruct v as [s | l |].
  - cbn [SerializeJSONProperty]. rewrite quote_unfold.
    eexists; eexists. split; [reflexivity | split; [reflexivity | discriminate]].
  - cbn [SerializeJSONProperty].
    destruct (map (SerializeJSONProperty gap (indent ++ gap)) l);
      [| destruct (String.length gap =? 0)%nat];
      eexists; eexists; (split; [reflexivity | split; [reflexivity | discriminate]]).
  - eexists; eexists. split; [reflexivity | split; [reflexivity | discriminate]].
Qed.

Lemma skip_ws_serialized gap indent v rest :
  exists c x,
    skip_ws (SerializeJSONProperty gap indent v ++ rest) = String c x /\ c <> "]"%char.
Proof.
  destruct (serialized_head gap indent v rest) as [c [x [E [Hs Hc]]]].
  exists c, x. rewrite E. cbn [skip_ws]. rewrite Hs. split; [reflexivity | exact Hc].
Qed.

Lemma join_strings_head sep x l tail :
  exists y, join_strings sep (x :: l) ++ tail = x ++ y.
Proof.
  destruct l as [| z l].
  - exists tail. reflexivity.
  - rewrite join_strings_cons by discriminate. rewrite append_assoc. eauto.
Qed.

Lemma serialize_array g k x l rest :
  SerializeJSONProperty (spaces (S g)) (spaces k) (VArr (x :: l)) ++ rest
  = String "["
      (LF_text ++ spaces (k + S g)
         ++ (join_strings ("," ++ LF_text ++ spaces (k + S g))
               (map (SerializeJSONProperty (spaces (S g)) (spaces (k + S g))) (x :: l))
             ++ LF_text ++ spaces k ++ "]" ++ rest)).
Proof.
  cbn [SerializeJSONProperty map]. rewrite spaces_add.
  change (String.length (spaces (S g)) =? 0)%nat with false. cbv iota.
  rewrite !append_assoc. reflexivity.
Qed.

Lemma parse_serialized_elements gap k k' l :
  l <> [] ->
  Forall (fun v => forall k fuel rest,
            reading_fuel v <= fuel ->
            parse_value fuel (SerializeJSONProperty gap (spaces k) v ++ rest)
            = Some (JSON_of_value v, rest)) l ->
  forall fuel rest,
    list_sum (map (fun x => S (reading_fuel x)) l) <= fuel ->
    parse_elements fuel
      (join_strings ("," ++ LF_text ++ spaces k)
         (map (SerializeJSONProperty gap (spaces k)) l)
       ++ LF_text ++ spaces k' ++ "]" ++ rest)
    = Some (map JSON_of_value l, rest).
Proof.
  induction l as [| x [| y l] IH]; intros Hne HP fuel rest Hf; [contradiction | |].
  - destruct fuel as [| fuel]; [simpl in Hf; lia |].
    inversion HP as [| ? ? Hx _]; subst.
    cbn [map join_strings parse_elements].
    rewrite Hx by (simpl in Hf; lia).
    rewrite skip_ws_line. reflexivity.
  - destruct fuel as [| fuel]; [simpl in Hf; lia |].
    inversion HP as [| ? ? Hx Hl]; subst.
    rewrite !map_cons, !list_sum_cons in Hf.
    change (map (SerializeJSONProperty gap (spaces k)) (x :: y :: l))
      with (SerializeJSONProperty gap (spaces k) x
            :: map (SerializeJSONProperty gap (spaces k)) (y :: l)).
    rewrite join_strings_cons by discriminate.
    rewrite !append_assoc. cbn [parse_elements].
    rewrite Hx by lia.
    change (skip_ws ("," ++ ?z)) with (String "," z). cbv iota.
    rewrite (parse_elements_skip fuel _ _ (skip_ws_line k _)).
    rewrite (IH ltac:(discriminate) Hl fuel rest)
      by (rewrite !map_cons, !list_sum_cons; lia).
    reflexivity.
Qed.

Lemma parse_serialized g v :
  forall k fuel rest,
    reading_fuel v <= fuel ->
    parse_value fuel (SerializeJSONProperty (spaces (S g)) (spaces k) v ++ rest)
    = Some (JSON_of_value v, rest).
Proof.
  induction v as [s | l IH |] using Value_nested_ind; intros k fuel rest Hf;
    (destruct fuel as [| fuel]; [simpl in Hf; lia |]).
  - apply parse_value_string.
  - destruct l as [| x l]; [reflexivity |].
    rewrite serialize_array. cbn [reading_fuel] in Hf.
    destruct (join_strings_head ("," ++ LF_text ++ spaces (k + S g))
                (SerializeJSONProperty (spaces (S g)) (spaces (k + S g)) x)
                (map (SerializeJSONProperty (spaces (S g)) (spaces (k + S g))) l)
                (LF_text ++ spaces k ++ "]" ++ rest)) as [y Ey].
    destruct (skip_ws_serialized (spaces (S g)) (spaces (k + S g)) x y) as [c [z [Ez Hc]]].
    rewrite (parse_value_array fuel _ c z);
      [| rewrite skip_ws_line; cbn [map]; rewrite Ey; exact Ez | exact Hc].
    rewrite (parse_elements_skip fuel _ _ (skip_ws_line (k + S g) _)).
    rewrite (parse_serialized_elements (spaces (S g)) (k + S g) k (x :: l)
               ltac:(discriminate) IH fuel rest) by lia.
    reflexivity.
  - apply parse_value_null.
Qed.

Lemma join_strings_length sep l :
  1 <= String.length sep ->
  list_sum (map (fun x => S (String.length x)) l) <= S (String.length (join_strings sep l)).
Proof.
  intros Hsep. induction l as [| x [| y l] IH].
  - simpl. lia.
  - simpl. lia.
  - rewrite join_strings_cons by discriminate.
    rewrite map_cons, list_sum_cons, !length_append. lia.
Qed.

Lemma reading_fuel_length gap v :
  forall indent, reading_fuel v <= String.length (SerializeJSONProperty gap indent v).
Proof.
  induction v as [s | l IH |] using Value_nested_ind; intros indent.
  - cbn [reading_fuel SerializeJSONProperty]. unfold quote.
    rewrite !length_append. simpl. lia.
  - cbn [reading_fuel SerializeJSONProperty].
    assert (Hsum : list_sum (map (fun x => S (reading_fuel x)) l)
                   <= list_sum (map (fun x => S (String.length x))
                                  (map (SerializeJSONProperty gap (indent ++ gap)) l))).
    { clear - IH. induction IH as [| x l Hx _ IHl]; [simpl; lia |].
      rewrite !map_cons, !list_sum_cons. specialize (Hx (indent ++ gap)). lia. }
    destruct l as [| x l]; [simpl; lia |].
    remember (map (SerializeJSONProperty gap (indent ++ gap)) (x :: l)) as partial eqn:Ep.
    destruct partial as [| p partial]; [discriminate |].
    destruct (String.length gap =? 0)%nat.
    + pose proof (join_strings_length "," (p :: partial) ltac:(simpl; lia)) as Hj.
      rewrite !length_append. simpl String.length at 1 3. lia.
    + pose proof (join_strings_length ("," ++ LF_text ++ (indent ++ gap)) (p :: partial)
                    ltac:(simpl; lia)) as Hj.
      rewrite !length_append. simpl String.length at 1 2. lia.
  - simpl. lia.
Qed.

Lemma append_empty s : s ++ "" = s.
Proof. induction s as [| c s IH]; simpl; [reflexivity | rewrite IH; reflexivity]. Qed.

(** X18. The formatted output of an array is JSON for that array. When
    the output is an array, at any depth of nesting, what the page shows is
    a text that [JSON.parse] reads, and it reads it as the array of the
    output, an [undefined] element being read as [null]. *)
Theorem outputValueFormated_parses_back :
  forall l : list Value,
    exists text,
      outputValueFormated (VArr l) = VStr text
      /\ JSON_parse text = Some (JArray (map JSON_of_value l)).
Proof.
  intros l. eexists. split; [reflexivity |].
  unfold JSON_parse, JSON_stringify_indented.
  change (spaces (Nat.min 10 4)) with (spaces 4).
  pose proof (reading_fuel_length (spaces 4) (VArr l) EmptyString) as Hlen.
  pose proof (parse_serialized 3 (VArr l) 0
                (2 * String.length (SerializeJSONProperty (spaces 4) EmptyString (VArr l)) + 2)
                EmptyString ltac:(lia)) as Hp.
  change (spaces 0) with EmptyString in Hp. rewrite append_empty in Hp.
  rewrite Hp. reflexivity.
Qed.

Lemma count_LF_app a b : count_LF (a ++ b) = count_LF a + count_LF b.
Proof.
  induction a as [| c a IH]; [reflexivity |].
  cbn [append]. rewrite !count_LF_cons, IH. lia.
Qed.

Lemma count_LF_quote_code_unit c : count_LF (quote_code_unit c) = 0.
Proof. destruct c as [[] [] [] [] [] [] [] []]; reflexivity. Qed.

Lemma count_LF_quote s : count_LF (quote s) = 0.
Proof.
  unfold quote. rewrite !count_LF_app.
  assert (H : count_LF (quote_body s) = 0).
  { induction s as [| c s IH]; [reflexivity |].
    cbn [quote_body]. rewrite count_LF_app, count_LF_quote_code_unit, IH. reflexivity. }
  rewrite H. reflexivity.
Qed.

Lemma count_LF_spaces k : count_LF (spaces k) = 0.
Proof. induction k as [| k IH]; [reflexivity | exact IH]. Qed.

Lemma count_LF_join sep l :
  l <> [] ->
  count_LF (join_strings sep l) + count_LF sep
  = list_sum (map count_LF l) + length l * count_LF sep.
Proof.
  induction l as [| x [| y l] IH]; intros Hne; [contradiction | simpl; lia |].
  rewrite join_strings_cons by discriminate.
  rewrite !count_LF_app, map_cons, list_sum_cons.
  specialize (IH ltac:(discriminate)). cbn [length] in *. lia.
Qed.

Lemma count_LF_serialized g v :
  forall k, S (count_LF (SerializeJSONProperty (spaces (S g)) (spaces k) v)) = display_lines v.
Proof.
  induction v as [s | l IH |] using Value_nested_ind; intros k.
  - cbn [SerializeJSONProperty display_lines]. rewrite count_LF_quote. reflexivity.
  - destruct l as [| x l]; [reflexivity |].
    rewrite <- (append_empty (SerializeJSONProperty _ _ _)), serialize_array.
    remember (x :: l) as xs eqn:Exs.
    assert (Hne : map (SerializeJSONProperty (spaces (S g)) (spaces (k + S g))) xs <> [])
      by (subst xs; discriminate).
    pose proof (count_LF_join ("," ++ LF_text ++ spaces (k + S g)) _ Hne) as Hj.
    assert (Hsum : list_sum (map count_LF
                     (map (SerializeJSONProperty (spaces (S g)) (spaces (k + S g))) xs))
                   + length xs = list_sum (map display_lines xs)).
    { clear - IH. induction IH as [| y ys Hy _ IHys]; [reflexivity |].
      rewrite !map_cons, !list_sum_cons. cbn [length]. specialize (Hy (k + S g)). lia. }
    assert (Hsep : count_LF ("," ++ LF_text ++ spaces (k + S g)) = 1).
    { change ("," ++ LF_text ++ spaces (k + S g))
        with (String "," (String LF (spaces (k + S g)))).
      rewrite !count_LF_cons, count_LF_spaces. reflexivity. }
    rewrite length_map, Hsep in Hj.
    assert (Hd : display_lines (VArr xs) = 2 + list_sum (map display_lines xs))
      by (subst xs; reflexivity).
    rewrite Hd, count_LF_cons, !count_LF_app, count_LF_spaces, count_LF_spaces.
    change (count_LF LF_text) with 1. change (count_LF "]") with 0.
    change (count_LF "") with 0. change (Ascii.eqb "[" LF) with false. cbv iota.
    lia.
  - reflexivity.
Qed.

(** X19. The number of lines of the output. For a string it is one more
    than the number of its line feeds. For an array it is the number of
    lines of the indented print: one for each string, absent element and
    empty array at any depth, and two more for each array that is not
    empty; a line feed inside a string adds none. *)
Theorem outputStats_linesCount_of_output :
  (forall s, outputStats_linesCount (VStr s) = Ok (S (count_LF s)))
  /\ (forall l, outputStats_linesCount (VArr l) = Ok (display_lines (VArr l))).
Proof.
  split.
  - intros s. unfold outputStats_linesCount. cbn [outputValueFormated].
    rewrite linesCount_spec. reflexivity.
  - intros l. unfold outputStats_linesCount. cbn [outputValueFormated].
    rewrite linesCount_spec. unfold JSON_stringify_indented.
    change (spaces (Nat.min 10 4)) with (spaces 4).
    rewrite <- (count_LF_serialized 3 (VArr l) 0). reflexivity.
Qed.

(** ** Trimming and lower case *)

Lemma trimStart_cut s :
  exists a, s = a ++ trimStart s /\ white a = true.
Proof.
  induction s as [| c s [a [E Ha]]]; [exists ""; split; reflexivity |].
  cbn [trimStart]. destruct (is_white_space c) eqn:Ec.
  - exists (String c a). cbn [append white]. rewrite <- E, Ec, Ha. split; reflexivity.
  - exists "". split; reflexivity.
Qed.

Lemma trimStart_head s c x : trimStart s = String c x -> is_white_space c = false.
Proof.
  induction s as [| d s IH]; [discriminate |].
  cbn [trimStart]. destruct (is_white_space d) eqn:Ed; [exact IH |].
  intros H. inversion H; subst. exact Ed.
Qed.

Lemma trimStart_fixed s :
  (forall c x, s = String c x -> is_white_space c = false) -> trimStart s = s.
Proof.
  destruct s as [| c s]; [reflexivity |]. intros H.
  cbn [trimStart]. rewrite (H c s eq_refl). reflexivity.
Qed.

Lemma string_rev_app a b : string_rev (a ++ b) = string_rev b ++ string_rev a.
Proof.
  induction a as [| c a IH]; cbn [append string_rev].
  - rewrite append_empty. reflexivity.
  - rewrite IH, append_assoc. reflexivity.
Qed.

Lemma string_rev_involutive s : string_rev (string_rev s) = s.
Proof.
  induction s as [| c s IH]; [reflexivity |].
  cbn [string_rev]. rewrite string_rev_app, IH. reflexivity.
Qed.

Lemma white_app a b : white (a ++ b) = white a && white b.
Proof.
  induction a as [| c a IH]; [reflexivity |].
  cbn [append white]. rewrite IH, Bool.andb_assoc. reflexivity.
Qed.

Lemma white_rev s : white (string_rev s) = white s.
Proof.
  induction s as [| c s IH]; [reflexivity |].
  cbn [string_rev white]. rewrite white_app, IH. cbn [white].
  rewrite Bool.andb_true_r. apply Bool.andb_comm.
Qed.

Lemma trimEnd_cut s :
  exists b, s = trimEnd s ++ b /\ white b = true.
Proof.
  destruct (trimStart_cut (string_rev s)) as [a [E Ha]].
  exists (string_rev a). split; [| rewrite white_rev; exact Ha].
  unfold trimEnd. rewrite <- string_rev_app, <- E, string_rev_involutive. reflexivity.
Qed.

Lemma trimEnd_last s c x : trimEnd s = x ++ String c "" -> is_white_space c = false.
Proof.
  unfold trimEnd. intros H.
  apply (f_equal string_rev) in H.
  rewrite string_rev_involutive, string_rev_app in H.
  exact (trimStart_head _ _ _ H).
Qed.

Lemma trimEnd_fixed s :
  (forall c x, s = x ++ String c "" -> is_white_space c = false) -> trimEnd s = s.
Proof.
  intros H. unfold trimEnd. rewrite trimStart_fixed; [apply string_rev_involutive |].
  intros c x E. apply (H c (string_rev x)).
  rewrite <- (string_rev_involutive s), E. reflexivity.
Qed.

(** X20. Trim. The result of the transformer on a string is the string
    without a run of white space at its front and one at its end: the
    string is the result between two texts of white space only, the result
    neither starts nor ends with white space, and the transformer returns
    the result as it is. *)
Theorem trim_Func_removes_the_white_ends :
  forall (s : string) (args : list string),
    exists a r b,
      trim_Func (VStr s) args = Ok (VStr r)
      /\ s = a ++ r ++ b
      /\ white a = true /\ white b = true
      /\ (forall c x, r = String c x -> is_white_space c = false)
      /\ (forall c x, r = x ++ String c "" -> is_white_space c = false)
      /\ trim_Func (VStr r) args = Ok (VStr r).
Proof.
  intros s args.
  destruct (trimStart_cut s) as [a [Ea Ha]].
  destruct (trimEnd_cut (trimStart s)) as [b [Eb Hb]].
  assert (Hhead : forall c x, trim s = String c x -> is_white_space c = false).
  { intros c x E. unfold trim in E. rewrite E in Eb.
    exact (trimStart_head s c (x ++ b) Eb). }
  assert (Hlast : forall c x, trim s = x ++ String c "" -> is_white_space c = false).
  { intros c x E. exact (trimEnd_last _ _ _ E). }
  exists a, (trim s), b. repeat split; try assumption.
  - unfold trim. rewrite <- Eb. exact Ea.
  - cbn [trim_Func]. unfold trim at 1.
    rewrite (trimStart_fixed (trim s) Hhead), (trimEnd_fixed (trim s) Hlast). reflexivity.
Qed.

Lemma trim_Func_removes_the_white_ends_witness :
  "a b" = String "a" " b" /\ is_white_space "a" = false.
Proof.
  split; [reflexivity |].
  destruct (trim_Func_removes_the_white_ends " a b " [])
    as [a [r [b [Hr [_ [_ [_ [Hhead _]]]]]]]].
  cbv in Hr. inversion Hr; subst r.
  exact (Hhead "a"%char " b" eq_refl).
Defined.

Lemma string_map_length f s : String.length (string_map f s) = String.length s.
Proof. induction s as [| c s IH]; simpl; [reflexivity | rewrite IH; reflexivity]. Qed.

Lemma lower_char_not_capital c : is_capital (lower_char c) = false.
Proof. destruct c as [[] [] [] [] [] [] [] []]; reflexivity. Qed.

Lemma lower_char_fixed c : is_capital c = false -> lower_char c = c.
Proof. destruct c as [[] [] [] [] [] [] [] []]; intros H; try reflexivity; discriminate. Qed.

Lemma toLowerCase_fixed s : no_capital s = true -> toLowerCase s = s.
Proof.
  induction s as [| c s IH]; [reflexivity |].
  cbn [no_capital]. intros H. apply andb_true_iff in H. destruct H as [Hc Hs].
  unfold toLowerCase in *. cbn [string_map].
  rewrite lower_char_fixed by (destruct (is_capital c); [discriminate | reflexivity]).
  rewrite (IH Hs). reflexivity.
Qed.

Lemma toLowerCase_no_capital s : no_capital (toLowerCase s) = true.
Proof.
  induction s as [| c s IH]; [reflexivity |].
  unfold toLowerCase in *. cbn [string_map no_capital].
  rewrite lower_char_not_capital, IH. reflexivity.
Qed.

(** X21. Lower case, on a string of the alphabet of the model (every code
    unit below 256; a capital letter above it can have a lower case form
    of two code units). The transformer returns a string of the length of
    its input, in which no capital letter is left; it returns a string
    without capital letters as it is, and so it returns its own result as
    it is. *)
Theorem lower_case_Func_idempotent :
  forall (s : string) (args args' : list string),
    exists r,
      lower_case_Func (VStr s) args = Ok (VStr r)
      /\ String.length r = String.length s
      /\ no_capital r = true
      /\ (no_capital s = true -> r = s)
      /\ lower_case_Func (VStr r) args' = Ok (VStr r).
Proof.
  intros s args args'. exists (toLowerCase s).
  split; [reflexivity |].
  split; [apply string_map_length |].
  split; [apply toLowerCase_no_capital |].
  split; [apply toLowerCase_fixed |].
  cbn [lower_case_Func]. rewrite (toLowerCase_fixed _ (toLowerCase_no_capital s)).
  reflexivity.
Qed.

(** ** The transformers that the page lists *)

Lemma is_Ok_array_map {A B} (f : A -> M B) (l : list A) :
  Forall (fun x => is_Ok (outcome (f x)) = true) l ->
  is_Ok (outcome (r <- array_map f l ;; ret r)) = true.
Proof.
  induction 1 as [| x l Hx _ IH]; [reflexivity |].
  cbn [array_map]. destruct (f x) as [tr [y | e]]; [| discriminate].
  destruct (array_map f l) as [tr' [ys | e]]; [reflexivity | discriminate].
Qed.

Lemma is_Ok_map_then_ret (f : Value -> M Value) (l : list Value) :
  Forall (fun x => is_Ok (outcome (f x)) = true) l ->
  is_Ok (outcome (r <- array_map f l ;; ret (VArr r))) = true.
Proof.
  intros H. apply is_Ok_array_map in H.
  destruct (array_map f l) as [tr [ys | e]]; [reflexivity | discriminate].
Qed.

Lemma applies_on_regular_values t :
  (forall w, well_targeted (Target (Transformer t)) w = true ->
             is_Ok (Func (Transformer t) w (Arguments t)) = true) ->
  forall v,
    defined v = true ->
    (Target (Transformer t) = Tarray -> grouped v = true) ->
    is_Ok (outcome (applyTransformer v t)) = true.
Proof.
  intros Hf. induction v as [s | l IH |] using Value_nested_ind; intros Hd Hg.
  - rewrite applyTransformer_string. destruct (Target (Transformer t)) eqn:Et.
    + rewrite outcome_invoke. apply Hf. reflexivity.
    + discriminate (Hg eq_refl).
  - assert (Hmap : (Target (Transformer t) = Tarray -> forallb grouped l = true) ->
                   is_Ok (outcome (r <- array_map (fun vm => applyTransformer vm t) l ;;
                                   ret (VArr r))) = true).
    { intros Hgl. apply is_Ok_map_then_ret.
      cbn [defined] in Hd. rewrite forallb_forall in Hd.
      rewrite Forall_forall in IH. apply Forall_forall. intros x Hx.
      apply (IH x Hx (Hd x Hx)). intros Et.
      specialize (Hgl Et). rewrite forallb_forall in Hgl. exact (Hgl x Hx). }
    rewrite applyTransformer_array. destruct (Target (Transformer t)) eqn:Et.
    + apply Hmap. discriminate.
    + rewrite innermost_test. specialize (Hg eq_refl).
      destruct l as [| [s | l' |] l].
      * apply Hmap. reflexivity.
      * rewrite outcome_invoke. apply Hf. reflexivity.
      * apply Hmap. intros _. exact Hg.
      * apply Hmap. intros _. exact Hg.
  - discriminate.
Qed.

(** X22. The transformers that the page lists. Let the output be made of
    strings and arrays only, with the rows of an array all at its innermost
    level. Then every transformer of the catalog that the page lists for
    this output, invoked with all its arguments, applies: it returns a
    value, and the step of the chain raises no alert. *)
Theorem listed_transformers_apply :
  forall (pst : PSTransformer) (args : list string) (v : Value),
    In pst PSTransformers ->
    length (Args pst) <= length args ->
    defined v = true ->
    (is_Array v = true -> grouped v = true) ->
    listed pst v = true ->
    is_Ok (outcome (applyTransformer v (applied pst args))) = true
    /\ alerts (trace (outputValue_step v (applied pst args))) = [].
Proof.
  intros pst args v Hin Hargs Hd Hg Hl.
  assert (Hok : is_Ok (outcome (applyTransformer v (applied pst args))) = true).
  { apply applies_on_regular_values.
    - intros w Hw. cbn [applied Transformer Arguments] in *.
      destruct (catalog_Func_returns pst w args Hin (well_targeted_has_shape _ _ Hw) Hargs)
        as [r [E _]].
      rewrite E. reflexivity.
    - exact Hd.
    - cbn [applied Transformer]. intros Et. apply Hg.
      unfold listed in Hl. rewrite Et in Hl. exact Hl. }
  split; [exact Hok |].
  rewrite outputValue_step_spec.
  pose proof (applyTransformer_no_alert (applied pst args) v) as Hna.
  destruct (applyTransformer v (applied pst args)) as [tr [v' | e]]; [exact Hna | discriminate].
Qed.

Lemma listed_transformers_apply_witness :
  is_Ok (outcome (applyTransformer (VArr [strings ["b"; "a"]; strings ["c"]])
                    (applied sort_transformer []))) = true
  /\ alerts (trace (outputValue_step (VArr [strings ["b"; "a"]; strings ["c"]])
                      (applied sort_transformer []))) = [].
Proof.
  apply (listed_transformers_apply sort_transformer [] (VArr [strings ["b"; "a"]; strings ["c"]])).
  - simpl. tauto.
  - simpl. lia.
  - reflexivity.
  - intros _. reflexivity.
  - reflexivity.
Defined.

(** ** The fuel of [JSON.parse]

    The parser spends one unit of fuel at each call, and [JSON_parse] gives
    it twice the length of the text and two more. That is never too little:
    larger fuel gives the same answer, so that [None] is the answer for a
    text that is not JSON and for no other. *)

Ltac split_head s := destruct s as [| [[] [] [] [] [] [] [] []] s].
Ltac split_char c := destruct c as [[] [] [] [] [] [] [] []].

Lemma skip_ws_length s : String.length (skip_ws s) <= String.length s.
Proof.
  induction s as [| c s IH]; [simpl; lia |].
  cbn [skip_ws]. destruct (is_json_space c); simpl in *; lia.
Qed.

Lemma span_digits_length s :
  forall d r, span_digits s = (d, r) -> String.length r <= String.length s.
Proof.
  induction s as [| c s IH]; intros d r H; simpl in H.
  - inversion H. simpl. lia.
  - destruct (is_digit c).
    + destruct (span_digits s) as [d' r'] eqn:E. inversion H; subst.
      specialize (IH _ _ eq_refl). simpl. lia.
    + inversion H; subst. lia.
Qed.

Lemma parse_string_body_length n :
  forall s t r, String.length s <= n ->
    parse_string_body s = Some (t, r) -> String.length r < String.length s.
Proof.
  induction n as [| n IH]; intros s t r Hn H.
  - destruct s; [discriminate | simpl in Hn; lia].
  - destruct s as [| c s1]; [discriminate |].
    assert (Hrec : forall s' t' r', String.length s' <= String.length s1 ->
               parse_string_body s' = Some (t', r') -> String.length r' < String.length s').
    { intros s' t' r' Hs'. apply IH. simpl in Hn. lia. }
    destruct (Ascii.eqb_spec c "\") as [-> | Hc].
    + destruct s1 as [| e s2]; [discriminate |].
      destruct (Ascii.eqb_spec e "u") as [-> | He].
      * destruct s2 as [| h1 [| h2 [| h3 [| h4 r2]]]]; try discriminate.
        cbn [parse_string_body] in H.
        destruct (unicode_escape h1 h2 h3 h4); [| discriminate].
        destruct (parse_string_body r2) as [[t' r'] |] eqn:E; [| discriminate].
        inversion H; subst. apply Hrec in E; simpl in *; lia.
      * split_char e; try (exfalso; apply He; reflexivity);
          cbn [parse_string_body] in H;
          try discriminate;
          (destruct (parse_string_body s2) as [[t' r'] |] eqn:E;
           [| try discriminate];
           try (inversion H; subst; apply Hrec in E; simpl in *; lia)).
    + split_char c; try (exfalso; apply Hc; reflexivity);
        cbn [parse_string_body] in H;
        try discriminate;
        try (inversion H; subst; simpl; lia);
        (destruct (parse_string_body s1) as [[t' r'] |] eqn:E;
         [| try discriminate];
         try (inversion H; subst; apply Hrec in E; simpl in *; lia)).
Qed.

Lemma parse_number_length s lexeme r :
  parse_number s = Some (lexeme, r) -> String.length r <= String.length s.
Proof.
  unfold parse_number.
  set (p1 := match s with String "-" r => ("-", r) | _ => (EmptyString, s) end).
  assert (H1 : String.length (snd p1) <= String.length s).
  { subst p1. split_head s; simpl; lia. }
  destruct p1 as [sign s1]. cbn [snd] in H1.
  set (ip := match s1 with
             | String "0" r => Some ("0", r)
             | _ => let (d, r) := span_digits s1 in
                    if (String.length d =? 0)%nat then None else Some (d, r)
             end).
  assert (H2 : forall i s2, ip = Some (i, s2) -> String.length s2 <= String.length s1).
  { subst ip. intros i s2.
    split_head s1; cbv beta iota;
      try (intros E; inversion E; subst; simpl; lia);
      match goal with
      | |- context [span_digits ?x] =>
          pose proof (span_digits_length x) as Hs;
          destruct (span_digits x) as [d r']; specialize (Hs _ _ eq_refl);
          destruct (String.length d =? 0)%nat; intros E; inversion E; subst; exact Hs
      end. }
  destruct ip as [[i s2] |]; [| discriminate]. specialize (H2 _ _ eq_refl).
  set (fp := match s2 with
             | String "." r =>
                 let (d, r') := span_digits r in
                 if (String.length d =? 0)%nat then None else Some ("." ++ d, r')
             | _ => Some (EmptyString, s2)
             end).
  assert (H3 : forall f s3, fp = Some (f, s3) -> String.length s3 <= String.length s2).
  { subst fp. intros f s3.
    split_head s2; cbv beta iota;
      try (intros E; inversion E; subst; simpl; lia);
      match goal with
      | |- context [span_digits ?x] =>
          pose proof (span_digits_length x) as Hs;
          destruct (span_digits x) as [d r']; specialize (Hs _ _ eq_refl);
          destruct (String.length d =? 0)%nat; intros E; inversion E; subst;
          simpl; lia
      end. }
  destruct fp as [[f s3] |]; [| discriminate]. specialize (H3 _ _ eq_refl).
  assert (Hexp : forall e x,
             (let '(sg, r1) :=
                match x with
                | String "+" r1 => ("+", r1)
                | String "-" r1 => ("-", r1)
                | _ => (EmptyString, x)
                end in
              let (d, r') := span_digits r1 in
              if (String.length d =? 0)%nat then None
              else Some (sign ++ i ++ f ++ e ++ sg ++ d, r')) = Some (lexeme, r) ->
             String.length r <= String.length x).
  { intros e x.
    set (q := match x with
              | String "+" r1 => ("+", r1)
              | String "-" r1 => ("-", r1)
              | _ => (EmptyString, x)
              end).
    assert (Hq : String.length (snd q) <= String.length x).
    { subst q. split_head x; simpl; lia. }
    destruct q as [sg r1]. cbn [snd] in Hq.
    pose proof (span_digits_length r1) as Hs.
    destruct (span_digits r1) as [d r']. specialize (Hs _ _ eq_refl).
    destruct (String.length d =? 0)%nat; intros E; inversion E; subst. lia. }
  split_head s3; cbv beta iota zeta;
    try (intros E; inversion E; subst; simpl in *; lia);
    intros E; apply Hexp in E; simpl in *; lia.
Qed.

(** The tests of the parser on the next character, as tests of equality. *)
Lemma when_closing_bracket {A} (x : string) (a : string -> A) (b : A) :
  match x with String "]" r' => a r' | _ => b end
  = match x with
    | String c r' => if Ascii.eqb c "]" then a r' else b
    | EmptyString => b
    end.
Proof. split_head x; reflexivity. Qed.

Lemma when_closing_brace {A} (x : string) (a : string -> A) (b : A) :
  match x with String "}" r' => a r' | _ => b end
  = match x with
    | String c r' => if Ascii.eqb c "}" then a r' else b
    | EmptyString => b
    end.
Proof. split_head x; reflexivity. Qed.

Lemma when_colon {A} (x : string) (a : string -> A) (b : A) :
  match x with String ":" r' => a r' | _ => b end
  = match x with
    | String c r' => if Ascii.eqb c ":" then a r' else b
    | EmptyString => b
    end.
Proof. split_head x; reflexivity. Qed.

Lemma when_comma_or_bracket {A} (x : string) (a b : string -> A) (c : A) :
  match x with String "," r' => a r' | String "]" r' => b r' | _ => c end
  = match x with
    | String k r' => if Ascii.eqb k "," then a r' else if Ascii.eqb k "]" then b r' else c
    | EmptyString => c
    end.
Proof. split_head x; reflexivity. Qed.

Lemma when_comma_or_brace {A} (x : string) (a b : string -> A) (c : A) :
  match x with String "," r' => a r' | String "}" r' => b r' | _ => c end
  = match x with
    | String k r' => if Ascii.eqb k "," then a r' else if Ascii.eqb k "}" then b r' else c
    | EmptyString => c
    end.
Proof. split_head x; reflexivity. Qed.

Lemma parse_value_unfold fuel s :
  parse_value (S fuel) s
  = match skip_ws s with
    | EmptyString => None
    | String c r =>
        if Ascii.eqb c "[" then
          match skip_ws r with
          | String k r' =>
              if Ascii.eqb k "]" then Some (JArray [], r')
              else match parse_elements fuel r with
                   | Some (l, r') => Some (JArray l, r')
                   | None => None
                   end
          | EmptyString =>
              match parse_elements fuel r with
              | Some (l, r') => Some (JArray l, r')
              | None => None
              end
          end
        else if Ascii.eqb c "{" then
          match skip_ws r with
          | String k r' =>
              if Ascii.eqb k "}" then Some (JObject [], r')
              else match parse_members fuel r with
                   | Some (m, r') => Some (JSON_of_members m, r')
                   | None => None
                   end
          | EmptyString =>
              match parse_members fuel r with
              | Some (m, r') => Some (JSON_of_members m, r')
              | None => None
              end
          end
        else if Ascii.eqb c quote_char then
          match parse_string_body r with
          | Some (t, r') => Some (JSON_of_text t, r')
          | None => None
          end
        else if prefix "true" (String c r) then Some (JBool true, drop 4 (String c r))
        else if prefix "false" (String c r) then Some (JBool false, drop 5 (String c r))
        else if prefix "null" (String c r) then Some (JNull, drop 4 (String c r))
        else
          match parse_number (String c r) with
          | Some (lexeme, r') => Some (JNumber lexeme, r')
          | None => None
          end
    end.
Proof.
  cbn [parse_value]. destruct (skip_ws s) as [| c r]; [reflexivity |].
  rewrite !when_closing_bracket, !when_closing_brace. reflexivity.
Qed.

Lemma parse_elements_unfold fuel s :
  parse_elements (S fuel) s
  = match parse_value fuel s with
    | None => None
    | Some (v, r) =>
        match skip_ws r with
        | String k r' =>
            if Ascii.eqb k "," then
              match parse_elements fuel r' with
              | Some (l, r'') => Some (v :: l, r'')
              | None => None
              end
            else if Ascii.eqb k "]" then Some ([v], r')
            else None
        | EmptyString => None
        end
    end.
Proof.
  cbn [parse_elements]. destruct (parse_value fuel s) as [[v r] |]; [| reflexivity].
  rewrite when_comma_or_bracket. reflexivity.
Qed.

Lemma parse_members_unfold fuel s :
  parse_members (S fuel) s
  = match skip_ws s with
    | String c r =>
        if Ascii.eqb c quote_char then
          match parse_string_body r with
          | None => None
          | Some (key, r1) =>
              match skip_ws r1 with
              | String k r2 =>
                  if Ascii.eqb k ":" then
                    match parse_value fuel r2 with
                    | None => None
                    | Some (v, r3) =>
                        match skip_ws r3 with
                        | String k' r4 =>
                            if Ascii.eqb k' "," then
                              match parse_members fuel r4 with
                              | Some (m, r5) => Some ((key, v) :: m, r5)
                              | None => None
                              end
                            else if Ascii.eqb k' "}" then Some ([(key, v)], r4)
                            else None
                        | EmptyString => None
                        end
                    end
                  else None
              | EmptyString => None
              end
          end
        else None
    | EmptyString => None
    end.
Proof.
  cbn [parse_members]. destruct (skip_ws s) as [| c r]; [reflexivity |].
  destruct (Ascii.eqb c quote_char); [| reflexivity].
  destruct (parse_string_body r) as [[key r1] |]; [| reflexivity].
  rewrite when_colon. destruct (skip_ws r1) as [| k r2]; [reflexivity |].
  destruct (Ascii.eqb k ":"); [| reflexivity].
  destruct (parse_value fuel r2) as [[v r3] |]; [| reflexivity].
  rewrite when_comma_or_brace. reflexivity.
Qed.

Lemma length_drop n s : String.length (drop n s) <= String.length s.
Proof. unfold drop. rewrite length_substring. lia. Qed.

(** What the parser leaves is not longer than what it was given. *)
Lemma parse_length fuel :
  forall s,
    (forall v r, parse_value fuel s = Some (v, r) -> String.length r <= String.length s)
    /\ (forall l r, parse_elements fuel s = Some (l, r) -> String.length r <= String.length s)
    /\ (forall m r, parse_members fuel s = Some (m, r) -> String.length r <= String.length s).
Proof.
  induction fuel as [| fuel IH]; intros s; [repeat split; discriminate |].
  assert (IHe : forall x l r, parse_elements fuel x = Some (l, r) ->
                              String.length r <= String.length x)
    by (intros x; apply (IH x)).
  assert (IHm : forall x m r, parse_members fuel x = Some (m, r) ->
                              String.length r <= String.length x)
    by (intros x; apply (IH x)).
  assert (IHv : forall x v r, parse_value fuel x = Some (v, r) ->
                              String.length r <= String.length x)
    by (intros x; apply (IH x)).
  clear IH. split; [| split].
  - intros v r H. rewrite parse_value_unfold in H.
    pose proof (skip_ws_length s) as Hs.
    destruct (skip_ws s) as [| c r0]; [discriminate |]. cbn [String.length] in Hs.
    pose proof (skip_ws_length r0) as Hs0.
    destruct (Ascii.eqb c "[").
    { destruct (skip_ws r0) as [| k r'].
      - destruct (parse_elements fuel r0) as [[l r''] |] eqn:E; [| discriminate].
        inversion H; subst. apply IHe in E. lia.
      - cbn [String.length] in Hs0. destruct (Ascii.eqb k "]").
        + inversion H; subst. lia.
        + destruct (parse_elements fuel r0) as [[l r''] |] eqn:E; [| discriminate].
          inversion H; subst. apply IHe in E. lia. }
    destruct (Ascii.eqb c "{").
    { destruct (skip_ws r0) as [| k r'].
      - destruct (parse_members fuel r0) as [[l r''] |] eqn:E; [| discriminate].
        inversion H; subst. apply IHm in E. lia.
      - cbn [String.length] in Hs0. destruct (Ascii.eqb k "}").
        + inversion H; subst. lia.
        + destruct (parse_members fuel r0) as [[l r''] |] eqn:E; [| discriminate].
          inversion H; subst. apply IHm in E. lia. }
    destruct (Ascii.eqb c quote_char).
    { destruct (parse_string_body r0) as [[t r'] |] eqn:E; [| discriminate].
      inversion H; subst.
      apply (parse_string_body_length (String.length r0)) in E; lia. }
    destruct (prefix "true" (String c r0)).
    { inversion H; subst. pose proof (length_drop 4 (String c r0)). simpl in *. lia. }
    destruct (prefix "false" (String c r0)).
    { inversion H; subst. pose proof (length_drop 5 (String c r0)). simpl in *. lia. }
    destruct (prefix "null" (String c r0)).
    { inversion H; subst. pose proof (length_drop 4 (String c r0)). simpl in *. lia. }
    destruct (parse_number (String c r0)) as [[lexeme r'] |] eqn:E; [| discriminate].
    inversion H; subst. apply parse_number_length in E. simpl in E. lia.
  - intros l r H. rewrite parse_elements_unfold in H.
    destruct (parse_value fuel s) as [[v r1] |] eqn:Ev; [| discriminate].
    apply IHv in Ev. pose proof (skip_ws_length r1) as Hs1.
    destruct (skip_ws r1) as [| k r']; [discriminate |]. cbn [String.length] in Hs1.
    destruct (Ascii.eqb k ",").
    + destruct (parse_elements fuel r') as [[l' r''] |] eqn:E; [| discriminate].
      inversion H; subst. apply IHe in E. lia.
    + destruct (Ascii.eqb k "]"); [| discriminate]. inversion H; subst. lia.
  - intros m r H. rewrite parse_members_unfold in H.
    pose proof (skip_ws_length s) as Hs.
    destruct (skip_ws s) as [| c r0]; [discriminate |]. cbn [String.length] in Hs.
    destruct (Ascii.eqb c quote_char); [| discriminate].
    destruct (parse_string_body r0) as [[key r1] |] eqn:Ek; [| discriminate].
    apply (parse_string_body_length (String.length r0)) in Ek; [| lia].
    pose proof (skip_ws_length r1) as Hs1.
    destruct (skip_ws r1) as [| k r2]; [discriminate |]. cbn [String.length] in Hs1.
    destruct (Ascii.eqb k ":"); [| discriminate].
    destruct (parse_value fuel r2) as [[v r3] |] eqn:Ev; [| discriminate].
    apply IHv in Ev. pose proof (skip_ws_length r3) as Hs3.
    destruct (skip_ws r3) as [| k' r4]; [discriminate |]. cbn [String.length] in Hs3.
    destruct (Ascii.eqb k' ",").
    + destruct (parse_members fuel r4) as [[m' r5] |] eqn:E; [| discriminate].
      inversion H; subst. apply IHm in E. lia.
    + destruct (Ascii.eqb k' "}"); [| discriminate]. inversion H; subst. lia.
Qed.

(** More fuel than twice the length of the text changes nothing: no answer
    of the parser is for want of fuel. *)
Lemma parse_fuel fuel :
  forall fuel' s,
    fuel <= fuel' ->
    (2 * String.length s <= fuel -> parse_value fuel' s = parse_value fuel s)
    /\ (2 * String.length s + 1 <= fuel -> parse_elements fuel' s = parse_elements fuel s)
    /\ (2 * String.length s + 1 <= fuel -> parse_members fuel' s = parse_members fuel s).
Proof.
  induction fuel as [| fuel IH]; intros fuel' s Hle.
  - split; [| split; intros H; lia].
    intros H. destruct s; [| simpl in H; lia]. destruct fuel'; reflexivity.
  - destruct fuel' as [| fuel']; [lia |].
    assert (Hle' : fuel <= fuel') by lia.
    assert (IHv : forall x, 2 * String.length x <= fuel ->
                            parse_value fuel' x = parse_value fuel x)
      by (intros x; apply (IH fuel' x Hle')).
    assert (IHe : forall x, 2 * String.length x + 1 <= fuel ->
                            parse_elements fuel' x = parse_elements fuel x)
      by (intros x; apply (IH fuel' x Hle')).
    assert (IHm : forall x, 2 * String.length x + 1 <= fuel ->
                            parse_members fuel' x = parse_members fuel x)
      by (intros x; apply (IH fuel' x Hle')).
    clear IH. split; [| split].
    + intros Hf. rewrite !parse_value_unfold.
      pose proof (skip_ws_length s) as Hs.
      destruct (skip_ws s) as [| c r0]; [reflexivity |]. cbn [String.length] in Hs.
      rewrite (IHe r0), (IHm r0) by lia. reflexivity.
    + intros Hf. rewrite !parse_elements_unfold.
      rewrite (IHv s) by lia.
      destruct (parse_value fuel s) as [[v r1] |] eqn:Ev; [| reflexivity].
      apply (parse_length fuel s) in Ev. pose proof (skip_ws_length r1) as Hs1.
      destruct (skip_ws r1) as [| k r']; [reflexivity |]. cbn [String.length] in Hs1.
      rewrite (IHe r') by lia. reflexivity.
    + intros Hf. rewrite !parse_members_unfold.
      pose proof (skip_ws_length s) as Hs.
      destruct (skip_ws s) as [| c r0]; [reflexivity |]. cbn [String.length] in Hs.
      destruct (Ascii.eqb c quote_char); [| reflexivity].
      destruct (parse_string_body r0) as [[key r1] |] eqn:Ek; [| reflexivity].
      apply (parse_string_body_length (String.length r0)) in Ek; [| lia].
      pose proof (skip_ws_length r1) as Hs1.
      destruct (skip_ws r1) as [| k r2]; [reflexivity |]. cbn [String.length] in Hs1.
      rewrite (IHv r2) by lia.
      destruct (parse_value fuel r2) as [[v r3] |] eqn:Ev; [| reflexivity].
      apply (parse_length fuel r2) in Ev. pose proof (skip_ws_length r3) as Hs3.
      destruct (skip_ws r3) as [| k' r4]; [reflexivity |]. cbn [String.length] in Hs3.
      rewrite (IHm r4) by lia. reflexivity.
Qed.

(** [JSON_parse] gives the answer that any larger fuel gives. *)
Lemma JSON_parse_fuel t fuel :
  2 * String.length t + 2 <= fuel ->
  JSON_parse t
  = match parse_value fuel t with
    | Some (v, r) => match skip_ws r with EmptyString => Some v | _ => None end
    | None => None
    end.
Proof.
  intros H. unfold JSON_parse.
  rewrite (proj1 (parse_fuel (2 * String.length t + 2) fuel t H)) by lia.
  reflexivity.
Qed.
